(** * mpt_bench: the two-phase state benchmark of cmd/mpt_bench

    A shallow embedding of [main] and [getDirSize]
    (cmd/mpt_bench/main.go, the Pebble build, and its LevelDB sibling)
    together with the properties of the workload generator, the
    batch/commit scheduler and the phase orchestrator.

    [main] is one long imperative function.  It is embedded as a
    state-and-outcome monad over the variables of [main]; every call
    into the state store and every line written to standard output is
    also appended to an event log, so that properties of the sequence
    of calls can be stated.  The collaborators whose code lives outside
    the benchmark (math/rand, Keccak, the state store, the clock and
    the memory/disk probes) are interfaces.  Line numbers are those of
    cmd/mpt_bench/main.go. *)

From Stdlib Require Import ZArith Lia String.
From stdpp Require Import base tactics option list strings pretty.

Open Scope Z_scope.

(** ** Machine integers *)

(** The largest [int]. *)
Definition int_max : Z := 2 ^ 63 - 1.

(** Go's [int] on a 64-bit target: results wrap around. *)
Definition wrap_int (z : Z) : Z := (z + 2 ^ 63) `mod` 2 ^ 64 - 2 ^ 63.

(** The conversion [uint64(x)] and arithmetic on [uint64]. *)
Definition to_uint64 (z : Z) : Z := z `mod` 2 ^ 64.

(** ** Data *)

Definition bytes := list Byte.byte.

(** [common.Address] is [[20]byte], [common.Hash] is [[32]byte]. *)
Definition Address := bytes.
Definition Hash := bytes.

Definition AddressLength : nat := 20.
Definition HashLength : nat := 32.

(** The zero value of [common.Hash]. *)
Definition zeroHash : Hash := replicate HashLength Byte.x00.

(** The two builds of the benchmark. They differ in the database that
    backs the store, in the textual label of a slot key and in the
    throughput lines. *)
Inductive Build := Pebble | LevelDB.

#[global] Instance Build_eq_dec : EqDecision Build.
Proof. solve_decision. Defined.

(** The command line flags, with their defaults. *)
Record Flags := {
  nAccounts : Z;
  nSlots : Z;
  mModify : Z;
  kCommit : Z;
  dbPath : string;
  clearDB : bool
}.

Definition default_flags : Flags :=
  {| nAccounts := 100; nSlots := 1000; mModify := 10; kCommit := 50;
     dbPath := "mpt_bench_db"; clearDB := true |}.

(** ** Collaborators *)

(** [crypto.Keccak256] and the conversions of package [common]. Only
    the length of a digest is used: the slice [[:20]] of it is in
    range. *)
Class Hasher := {
  Keccak256 : bytes → bytes;
  BytesToAddress : bytes → Address;
  BytesToHash : bytes → Hash;
  Keccak256_length : ∀ b, length (Keccak256 b) = 32%nat
}.

(** A [*rand.Rand]. [draw n] is [Intn(n)] for a positive [n], [fill n]
    is [Read] on a buffer of [n] bytes, [shuffle n] is [Perm(n)] for a
    non-negative [n]. The object is mutated by every call, which shows
    here as the source returned with the result. *)
Class RandSource := {
  Rng : Type;
  NewSource : Z → Rng;
  draw : Z → Rng → Z * Rng;
  fill : nat → Rng → bytes * Rng;
  shuffle : Z → Rng → list Z * Rng;
  draw_range : ∀ n r, 0 < n → 0 ≤ (draw n r).1 < n;
  fill_length : ∀ n r, length (fill n r).1 = n;
  shuffle_perm : ∀ n r, 0 ≤ n → (shuffle n r).1 ≡ₚ seqZ 0 n
}.

(** The state store: the [*state.StateDB] view in use together with the
    [state.Database], the [triedb.Database] and the disk behind it.
    [OpenStore] stands for lines 35-61 of [main]: the optional removal
    of the directory, opening the key-value database (which can fail)
    and the first [state.New] at the empty root. The error of
    [state.New] is dropped by [main], so [StateNew] has none: the
    stores of this interface are those on which every [state.New]
    yields a [statedb] that can be used. *)
Class StateStore := {
  Store : Type;
  OpenStore : Build → string → bool → string + Store;
  SetBalance : Address → Z → Store → Store;
  SetNonce : Address → Z → Store → Store;
  SetState : Address → Hash → Hash → Store → Store;
  Commit : Z → Store → (string + Hash) * Store;
  TrieCommit : Hash → Store → option string * Store;
  StateNew : Hash → Store → Store
}.

(** What a run observes of its surroundings: the clock reading that
    seeds phase 2, and the elapsed time, the allocated memory and the
    size of the database directory that it prints, indexed by the
    number of events so far. *)
Record Env := {
  unixNano : Z;
  elapsed : nat → Z;
  memAlloc : nat → Z;
  dirSize : nat → Z
}.

(** ** Events *)

(** Lines on standard output. Numbers that the program prints through
    floating point formats are kept as the integers they are computed
    from. *)
Inductive Line :=
| LCleaning (path : string)
| LInitDB (b : Build) (path : string)
| LOpenFailed (err : string)
| LInitTrieDB
| LPhase1 (n slots k : Z)
| LProcessed (done total : Z)
| LCommitStateFailed (err : string)
| LCommitTrieFailed (err : string)
| LBatch (idx : Z) (root : Hash) (disk mem : Z)
| LCreationFinished (time : Z) (root : Hash)
| LSlotsCreated (total time : Z)
| LPhase2 (m k : Z)
| LModified (done total : Z)
| LCommitModFailed (err : string)
| LCommitTrieModFailed (err : string)
| LModBatch (disk mem : Z)
| LModificationFinished (time : Z) (root : Hash)
| LSlotsModified (total time : Z)
| LFinalReport (path : string) (size : Z).

Inductive Event :=
| ESetBalance (a : Address) (amount : Z)
| ESetNonce (a : Address) (nonce : Z)
| ESetState (a : Address) (key value : Hash)
| ECommit (rev : Z) (res : string + Hash)
| ETrieCommit (root : Hash) (res : option string)
| EStateNew (root : Hash)
| EPrint (l : Line).

(** How a piece of [main] ends: it falls through with a value, [main]
    returns early (after it reported an error), or the runtime
    panics. *)
Inductive Outcome (A : Type) :=
| Val (a : A)
| Returned
| Panicked (msg : string).
Arguments Val {A} a.
Arguments Returned {A}.
Arguments Panicked {A} msg.

(** ** The variables of [main] *)

Section Bench.
Context `{HS : Hasher} `{RS : RandSource} `{SS : StateStore}.

(** [rng] is [r] during phase 1 and [rMod] during phase 2: [r] is not
    used after phase 1. [total] is [totalSlotsCreated], then
    [totalSlotsModified]. *)
Record State := {
  statedb : Store;
  rng : Rng;
  addrs : list Address;
  currentRoot : Hash;
  total : Z;
  out : list Event
}.

Definition with_statedb (f : Store → Store) (s : State) : State :=
  {| statedb := f (statedb s); rng := rng s; addrs := addrs s;
     currentRoot := currentRoot s; total := total s; out := out s |}.
Definition with_rng (r : Rng) (s : State) : State :=
  {| statedb := statedb s; rng := r; addrs := addrs s;
     currentRoot := currentRoot s; total := total s; out := out s |}.
Definition with_addrs (f : list Address → list Address) (s : State) : State :=
  {| statedb := statedb s; rng := rng s; addrs := f (addrs s);
     currentRoot := currentRoot s; total := total s; out := out s |}.
Definition with_currentRoot (h : Hash) (s : State) : State :=
  {| statedb := statedb s; rng := rng s; addrs := addrs s;
     currentRoot := h; total := total s; out := out s |}.
Definition with_total (t : Z) (s : State) : State :=
  {| statedb := statedb s; rng := rng s; addrs := addrs s;
     currentRoot := currentRoot s; total := t; out := out s |}.
Definition log (e : Event) (s : State) : State :=
  {| statedb := statedb s; rng := rng s; addrs := addrs s;
     currentRoot := currentRoot s; total := total s; out := out s ++ [e] |}.

(** ** The monad *)

Definition M (A : Type) : Type := State → Outcome A * State.

#[export] Instance M_ret : MRet M := λ A a s, (Val a, s).

#[export] Instance M_bind : MBind M := λ A B k c s,
  match c s with
  | (Val a, s') => k a s'
  | (Returned, s') => (Returned, s')
  | (Panicked msg, s') => (Panicked msg, s')
  end.

Definition return_ {A} : M A := λ s, (Returned, s).
Definition panic {A} (msg : string) : M A := λ s, (Panicked msg, s).
Definition modify (f : State → State) : M unit := λ s, (Val tt, f s).
Definition gets {A} (f : State → A) : M A := λ s, (Val (f s), s).

Definition emit (e : Event) : M unit := modify (log e).
Definition print (l : Line) : M unit := emit (EPrint l).

(** [for i := lo; i < hi; i++ { body }], the bounds being evaluated
    once (no body of [main] assigns to its bound or its counter). *)
Fixpoint for_each (l : list Z) (body : Z → M unit) : M unit :=
  match l with
  | [] => mret tt
  | i :: l => body i;; for_each l body
  end.

Definition for_range (lo hi : Z) (body : Z → M unit) : M unit :=
  for_each (seqZ lo (hi - lo)) body.

(** ** Calls *)

(** [Intn] panics unless its argument is positive. *)
Definition Intn (n : Z) : M Z :=
  if decide (n ≤ 0) then panic "invalid argument to Intn"
  else λ s, let '(x, r) := draw n (rng s) in (Val x, with_rng r s).

(** [Read(h[:])] on a [common.Hash]: all 32 bytes are overwritten; the
    error it returns is always nil. *)
Definition Read : M Hash :=
  λ s, let '(b, r) := fill HashLength (rng s) in (Val b, with_rng r s).

(** [Perm]: allocating a slice of negative length panics. The [n]
    integers of the slice are smaller than the [n] addresses of line
    67, so that in a run of [main] the limit of an allocation is met
    there and not here. *)
Definition Perm (n : Z) : M (list Z) :=
  if decide (n < 0) then panic "makeslice: len out of range"
  else λ s, let '(p, r) := shuffle n (rng s) in (Val p, with_rng r s).

Definition call_SetBalance (a : Address) (v : Z) : M unit :=
  modify (with_statedb (SetBalance a v)) ;; emit (ESetBalance a v).

Definition call_SetNonce (a : Address) (n : Z) : M unit :=
  modify (with_statedb (SetNonce a n)) ;; emit (ESetNonce a n).

Definition call_SetState (a : Address) (k v : Hash) : M unit :=
  modify (with_statedb (SetState a k v)) ;; emit (ESetState a k v).

Definition call_Commit (rev : Z) : M (string + Hash) :=
  λ s, let '(res, st) := Commit rev (statedb s) in
       (Val res, log (ECommit rev res) (with_statedb (λ _, st) s)).

Definition call_TrieCommit (root : Hash) : M (option string) :=
  λ s, let '(res, st) := TrieCommit root (statedb s) in
       (Val res, log (ETrieCommit root res) (with_statedb (λ _, st) s)).

Definition call_StateNew (root : Hash) : M unit :=
  modify (with_statedb (StateNew root)) ;; emit (EStateNew root).

(** [a % b] on [int]: a zero divisor panics; the remainder has the sign
    of the dividend. *)
Definition int_rem (a b : Z) : M Z :=
  if decide (b = 0) then panic "integer divide by zero" else mret (a `rem` b).

(** ** Keys *)

Definition label_bytes (s : string) : bytes := list_byte_of_string s.

(** [fmt.Sprintf("account-%d", i)] *)
Definition account_label (i : Z) : string := "account-" +:+ pretty i.

(** [fmt.Sprintf("acc-%d-slot-%d", i, j)] in the Pebble build,
    [fmt.Sprintf("account-%d-slot-%d", i, j)] in the LevelDB build. *)
Definition slot_label (b : Build) (i j : Z) : string :=
  match b with
  | Pebble => "acc-" +:+ pretty i +:+ "-slot-" +:+ pretty j
  | LevelDB => "account-" +:+ pretty i +:+ "-slot-" +:+ pretty j
  end.

Definition account_addr (i : Z) : Address :=
  BytesToAddress (take AddressLength (Keccak256 (label_bytes (account_label i)))).

Definition slot_key (b : Build) (i j : Z) : Hash :=
  BytesToHash (Keccak256 (label_bytes (slot_label b i j))).

(** ** Phase 1: creation *)

Definition zeroAddress : Address := replicate AddressLength Byte.x00.

(** The largest size of one allocation, [maxAlloc] of package runtime:
    2^48 bytes on a 64-bit target with 48 bits of heap address
    (linux/amd64). *)
Definition maxAlloc : Z := 2 ^ 48.

(** [make([]common.Address, n)]: the runtime panics when [n] is
    negative and when the [n] addresses, 20 bytes each, are larger than
    [maxAlloc]. Within these bounds the allocation is taken to succeed:
    a machine that runs out of memory stops with a fatal error, which
    is no panic and has no part here. *)
Definition make_addrs (n : Z) : M unit :=
  if decide (n < 0 ∨ maxAlloc < 20 * n) then panic "makeslice: len out of range"
  else modify (with_addrs (λ _, replicate (Z.to_nat n) zeroAddress)).

(** [l[i]] *)
Definition index {A} (l : list A) (i : Z) : M A :=
  if decide (0 ≤ i) then
    match l !! Z.to_nat i with
    | Some x => mret x
    | None => panic "index out of range"
    end
  else panic "index out of range".

(** [addrs[i] = addr] *)
Definition store_addr (i : Z) (a : Address) : M unit :=
  l ← gets addrs;
  _ ← index l i;
  modify (with_addrs <[Z.to_nat i := a]>).

(** [totalSlotsCreated++] and [totalSlotsModified++]; the LevelDB build
    has no such counter. *)
Definition count_slot (b : Build) : M unit :=
  match b with
  | Pebble => modify (λ s, with_total (wrap_int (total s + 1)) s)
  | LevelDB => mret tt
  end.

(** Lines 90-98: the value of a new slot. *)
Definition slot_value : M Hash :=
  dice ← Intn 100;
  if decide (dice < 20) then mret zeroHash
  else if decide (dice < 30) then mret (<[31%nat := Byte.x01]> zeroHash)
  else Read.

(** Lines 85-99: the body of the loop over [j]. *)
Definition create_slot (b : Build) (i : Z) (addr : Address) (j : Z) : M unit :=
  count_slot b;;
  let slotKey := slot_key b i j in
  slotVal ← slot_value;
  call_SetState addr slotKey slotVal.

(** Lines 76-100: the mutations of account [i]. *)
Definition create_account (b : Build) (fl : Flags) (i : Z) : M unit :=
  let addr := account_addr i in
  store_addr i addr;;
  call_SetBalance addr (10 ^ 18);;
  call_SetNonce addr (to_uint64 i);;
  vSlots ← Intn (wrap_int (nSlots fl * 2));
  for_range 0 vSlots (create_slot b i addr).

(** The test [(i+1)%batchSize == 0 || i+1 == total] of lines 107 and
    168; the remainder is evaluated first. *)
Definition at_boundary (batchSize total i : Z) : M bool :=
  x ← int_rem (i + 1) batchSize;
  mret (bool_decide (x = 0 ∨ i + 1 = total)).

(** The progress line of lines 102 and 163. *)
Definition progress (line : Z → Z → Line) (total i : Z) : M unit :=
  if decide ((i + 1) `rem` 10 = 0 ∨ i + 1 = total)
  then print (line (i + 1) total) else mret tt.

(** Lines 108-128: the commit at a boundary of phase 1. *)
Definition commit_created (env : Env) (fl : Flags) (i : Z) : M unit :=
  let batchSize := kCommit fl in
  res ← call_Commit (to_uint64 (i `quot` batchSize));
  match res with
  | inl err => print (LCommitStateFailed err);; return_
  | inr root =>
      res ← call_TrieCommit root;
      match res with
      | Some err => print (LCommitTrieFailed err);; return_
      | None =>
          modify (with_currentRoot root);;
          t ← gets (λ s, length (out s));
          cur ← gets currentRoot;
          print (LBatch (wrap_int (i `quot` batchSize + 1)) cur
                   (dirSize env t) (memAlloc env t));;
          call_StateNew cur
      end
  end.

(** Lines 75-130: one turn of the loop of phase 1. *)
Definition create_step (env : Env) (b : Build) (fl : Flags) (i : Z) : M unit :=
  create_account b fl i;;
  progress LProcessed (nAccounts fl) i;;
  cut ← at_boundary (kCommit fl) (nAccounts fl) i;
  if cut : bool then commit_created env fl i else mret tt.

(** Lines 64-134. *)
Definition phase1 (env : Env) (b : Build) (fl : Flags) : M unit :=
  print (LPhase1 (nAccounts fl) (nSlots fl) (kCommit fl));;
  make_addrs (nAccounts fl);;
  modify (with_currentRoot zeroHash);;
  modify (with_total 0);;
  modify (with_rng (NewSource 42));;
  for_range 0 (nAccounts fl) (create_step env b fl);;
  t ← gets (λ s, length (out s));
  cur ← gets currentRoot;
  print (LCreationFinished (elapsed env t) cur);;
  match b with
  | Pebble => n ← gets total; print (LSlotsCreated n (elapsed env t))
  | LevelDB => mret tt
  end.

(** ** Phase 2: modification *)

Definition slotsToModifyPerAccount : Z := 500.

(** The offset of the revisions of phase 2 (line 169). *)
Definition phaseOffset : Z := 1000000.

(** Lines 137-139. *)
Definition clamp_modify (fl : Flags) : Z :=
  if decide (mModify fl > nAccounts fl) then nAccounts fl else mModify fl.

(** Lines 154-160: the body of the loop over [j]. *)
Definition modify_slot (b : Build) (fl : Flags) (accountIdx : Z)
    (addr : Address) (j : Z) : M unit :=
  count_slot b;;
  slotIdx ← Intn (nSlots fl);
  let slotKey := slot_key b accountIdx slotIdx in
  newVal ← Read;
  call_SetState addr slotKey newVal.

(** Lines 149-161: the mutations of the [i]-th account to modify. *)
Definition modify_account (b : Build) (fl : Flags) (perm : list Z) (i : Z) : M unit :=
  accountIdx ← index perm i;
  l ← gets addrs;
  addr ← index l accountIdx;
  for_range 0 slotsToModifyPerAccount (modify_slot b fl accountIdx addr).

(** Lines 169-187: the commit at a boundary of phase 2. *)
Definition commit_modified (env : Env) (fl : Flags) (i : Z) : M unit :=
  let batchSize := kCommit fl in
  res ← call_Commit (to_uint64 (to_uint64 (i `quot` batchSize) + phaseOffset));
  match res with
  | inl err => print (LCommitModFailed err);; return_
  | inr root =>
      res ← call_TrieCommit root;
      match res with
      | Some err => print (LCommitTrieModFailed err);; return_
      | None =>
          modify (with_currentRoot root);;
          t ← gets (λ s, length (out s));
          print (LModBatch (dirSize env t) (memAlloc env t));;
          cur ← gets currentRoot;
          call_StateNew cur
      end
  end.

(** Lines 148-189: one turn of the loop of phase 2, [m] being the
    clamped [*mModify]. *)
Definition modify_step (env : Env) (b : Build) (fl : Flags) (m : Z)
    (perm : list Z) (i : Z) : M unit :=
  modify_account b fl perm i;;
  progress LModified m i;;
  cut ← at_boundary (kCommit fl) m i;
  if cut : bool then commit_modified env fl i else mret tt.

(** Lines 137-193. *)
Definition phase2 (env : Env) (b : Build) (fl : Flags) : M unit :=
  let m := clamp_modify fl in
  print (LPhase2 m (kCommit fl));;
  match b with Pebble => modify (with_total 0) | LevelDB => mret tt end;;
  modify (with_rng (NewSource (unixNano env)));;
  perm ← Perm (nAccounts fl);
  for_range 0 m (modify_step env b fl m perm);;
  t ← gets (λ s, length (out s));
  cur ← gets currentRoot;
  print (LModificationFinished (elapsed env t) cur);;
  match b with
  | Pebble => n ← gets total; print (LSlotsModified n (elapsed env t))
  | LevelDB => mret tt
  end.

(** ** The whole run *)

(** Lines 196-199. *)
Definition report (env : Env) (fl : Flags) : M unit :=
  t ← gets (λ s, length (out s));
  print (LFinalReport (dbPath fl) (dirSize env t)).

(** Lines 63-199, from the store just opened. *)
Definition phases (env : Env) (b : Build) (fl : Flags) : M unit :=
  phase1 env b fl;; phase2 env b fl;; report env fl.

(** The lines printed before the store is opened. *)
Definition prologue (b : Build) (fl : Flags) : list Event :=
  (if clearDB fl then [EPrint (LCleaning (dbPath fl))] else [])
  ++ [EPrint (LInitDB b (dbPath fl))].

(** The variables of [main] when phase 1 starts. *)
Definition init_state (b : Build) (fl : Flags) (st : Store) : State :=
  {| statedb := st; rng := NewSource 42; addrs := [];
     currentRoot := zeroHash; total := 0;
     out := prologue b fl ++ [EPrint LInitTrieDB] |}.

(** [main]: how it ends, what it logged, and the variables at that
    point (none when the store did not open). The deferred [Close] of
    the database, the calls to [runtime.GC] and the empty lines printed
    between the phases have no part in what follows and are left
    out. *)
Definition main (env : Env) (b : Build) (fl : Flags)
    : Outcome unit * list Event * option State :=
  match OpenStore b (dbPath fl) (clearDB fl) with
  | inl err => (Returned, prologue b fl ++ [EPrint (LOpenFailed err)], None)
  | inr st =>
      let '(o, s) := phases env b fl (init_state b fl st) in
      (o, out s, Some s)
  end.

End Bench.

(** ** The size of the database directory

    [getDirSize] (lines 202-217) walks the directory with
    [filepath.Walk]; the walker and the tree it goes through are
    collaborators. *)

(** [os.FileInfo], as far as [getDirSize] reads it. *)
Record FileInfo := { IsDir : bool; Size : Z }.

(** One call of the function handed to [filepath.Walk]: the walker
    passes the entry it found, or the error it met on the way ([info]
    is then nil, or the directory that could not be read). *)
Inductive Visit :=
| Found (info : FileInfo)
| Failed (info : option FileInfo) (err : string).

(** The directory tree behind a path, as the walker goes through it. *)
Class Disk := { entries : string → list Visit }.

(** [filepath.Walk]: [fn] is called on the entries of the tree, in the
    order of the walker; the walk stops at the first call that returns
    an error, which [Walk] returns. [st] stands for the variables that
    [fn] captures. *)
Fixpoint walk_entries {St : Type} (l : list Visit)
    (fn : Visit → St → option string * St) (st : St) : option string * St :=
  match l with
  | [] => (None, st)
  | v :: l =>
      match fn v st with
      | (Some err, st') => (Some err, st')
      | (None, st') => walk_entries l fn st'
      end
  end.

Definition Walk `{Disk} {St : Type} (root : string)
    (fn : Visit → St → option string * St) (st : St) : option string * St :=
  walk_entries (entries root) fn st.

(** Lines 204-212: the function that [getDirSize] hands to the walker;
    it captures [size], an [int64]. *)
Definition add_size (v : Visit) (size : Z) : option string * Z :=
  match v with
  | Failed _ err => (Some err, size)
  | Found info =>
      (None, if IsDir info then size else wrap_int (size + Size info))
  end.

(** Lines 202-217. *)
Definition getDirSize `{Disk} (path : string) : Z :=
  let '(err, size) := Walk path add_size 0 in
  match err with
  | Some _ => 0
  | None => size
  end.

(** The sizes that count: those of the entries that are not
    directories. *)
Definition file_sizes (l : list Visit) : list Z :=
  omap (λ v, match v with
             | Found info => if IsDir info then None else Some (Size info)
             | Failed _ _ => None
             end) l.

Definition is_failed (v : Visit) : bool :=
  match v with Failed _ _ => true | Found _ => false end.

Definition sum_list_Z (l : list Z) : Z := foldr Z.add 0 l.

(** ** Small collaborators to run the benchmark on

    They stand in for Keccak, math/rand and the store when the
    embedding is evaluated on concrete flags. *)

Module Sim.

(** A digest that keeps the first 32 bytes of its (zero padded)
    input. *)
Definition pad32 (b : bytes) : bytes := take 32 (b ++ replicate 32 Byte.x00).

Lemma pad32_length b : length (pad32 b) = 32%nat.
Proof.
  unfold pad32. rewrite length_take, length_app, length_replicate. lia.
Qed.

#[export] Instance hasher : Hasher :=
  {| Keccak256 := pad32; BytesToAddress := id; BytesToHash := id;
     Keccak256_length := pad32_length |}.

(** A linear congruential source. *)
Definition next (r : Z) : Z :=
  (r * 6364136223846793005 + 1442695040888963407) `mod` 2 ^ 64.

Definition byte_of (z : Z) : Byte.byte :=
  default Byte.x00 (Byte.of_N (Z.to_N (z `mod` 256))).

Fixpoint sim_fill (n : nat) (r : Z) : bytes * Z :=
  match n with
  | O => ([], r)
  | S n => let '(l, r') := sim_fill n (next r) in (byte_of (r `div` 2 ^ 32) :: l, r')
  end.

Lemma sim_fill_length n r : length (sim_fill n r).1 = n.
Proof.
  revert r. induction n as [|n IH]; intros r; simpl; [done|].
  specialize (IH (next r)). destruct (sim_fill n (next r)). simpl in *. lia.
Qed.

Definition sim_draw (n r : Z) : Z * Z := ((next r `div` 2 ^ 16) `mod` n, next r).

Lemma sim_draw_range n r : 0 < n → 0 ≤ (sim_draw n r).1 < n.
Proof. intros Hn. simpl. apply Z.mod_pos_bound. lia. Qed.

(** The permutation is a rotation of [0 .. n-1]. *)
Definition sim_shuffle (n r : Z) : list Z * Z :=
  (rotate (Z.to_nat ((next r `div` 2 ^ 16) `mod` 251)) (seqZ 0 n), next r).

Lemma sim_shuffle_perm n r : 0 ≤ n → (sim_shuffle n r).1 ≡ₚ seqZ 0 n.
Proof.
  intros _. simpl. unfold rotate. rewrite <- Permutation_app_comm.
  by rewrite take_drop.
Qed.

#[export] Instance rand : RandSource :=
  {| Rng := Z; NewSource := λ seed, seed `mod` 2 ^ 64;
     draw := sim_draw; fill := sim_fill; shuffle := sim_shuffle;
     draw_range := sim_draw_range; fill_length := sim_fill_length;
     shuffle_perm := sim_shuffle_perm |}.

(** A store that counts: its root after a commit records how many
    mutations and commits it has seen. [failState] and [failTrie] tell
    which commits fail, by their rank (from 0). *)
Record counters := {
  writes : Z;
  commits : nat;
  flushes : nat
}.

Definition root_of (c : counters) (rev : Z) : Hash :=
  replicate 29 Byte.x00 ++
  [byte_of (writes c `div` 256); byte_of (writes c); byte_of rev].

Definition bump (c : counters) : counters :=
  {| writes := writes c + 1; commits := commits c; flushes := flushes c |}.

Definition sim_Commit (failState : nat → bool) (rev : Z) (c : counters)
    : (string + Hash) * counters :=
  let c' := {| writes := writes c; commits := S (commits c); flushes := flushes c |} in
  if failState (commits c) then (inl "disk full", c') else (inr (root_of c rev), c').

Definition sim_TrieCommit (failTrie : nat → bool) (root : Hash) (c : counters)
    : option string * counters :=
  let c' := {| writes := writes c; commits := commits c; flushes := S (flushes c) |} in
  if failTrie (flushes c) then (Some "flush failed", c') else (None, c').

Definition store (failState failTrie : nat → bool) : StateStore :=
  {| Store := counters;
     OpenStore := λ _ _ _, inr {| writes := 0; commits := 0; flushes := 0 |};
     SetBalance := λ _ _, bump;
     SetNonce := λ _ _, bump;
     SetState := λ _ _ _, bump;
     Commit := sim_Commit failState;
     TrieCommit := sim_TrieCommit failTrie;
     StateNew := λ _ c, c |}.

Definition never : nat → bool := λ _, false.
Definition at_rank (n : nat) : nat → bool := λ i, bool_decide (i = n).

(** The store whose commits all go through. *)
Definition reliable : StateStore := store never never.

(** A store whose database does not open. *)
Definition closed_store : StateStore :=
  {| Store := unit;
     OpenStore := λ _ _ _, inl "resource temporarily unavailable";
     SetBalance := λ _ _ s, s; SetNonce := λ _ _ s, s; SetState := λ _ _ _ s, s;
     Commit := λ _ s, (inl "closed", s);
     TrieCommit := λ _ s, (Some "closed", s);
     StateNew := λ _ s, s |}.

Definition env : Env :=
  {| unixNano := 1767225600000000000;
     elapsed := λ t, Z.of_nat t; memAlloc := λ t, 4096 * Z.of_nat t;
     dirSize := λ t, 512 * Z.of_nat t |}.

Definition flags (n slots m k : Z) : Flags :=
  {| nAccounts := n; nSlots := slots; mModify := m; kCommit := k;
     dbPath := "mpt_bench_db"; clearDB := true |}.

End Sim.

(** ** What the generators are meant to produce

    These definitions follow the description of the workload: they are
    pure functions of an injected random source, and the embedding of
    [main] is compared with them below. *)

Section Generators.
Context `{HS : Hasher} `{RS : RandSource}.

Inductive ValueKind := AllZero | SmallValue | RandomWord.

(** 20% of the draws give zero, 10% the small value, the rest a random
    word. *)
Definition value_kind (d : Z) : ValueKind :=
  if decide (d < 20) then AllZero
  else if decide (d < 30) then SmallValue
  else RandomWord.

#[global] Instance ValueKind_eq_dec : EqDecision ValueKind.
Proof. solve_decision. Defined.

(** Only the lowest-order byte is set, to 1. *)
Definition small_value : Hash := replicate 31 Byte.x00 ++ [Byte.x01].

Definition gen_value (r : Rng) : Hash * Rng :=
  let '(d, r1) := draw 100 r in
  match value_kind d with
  | AllZero => (zeroHash, r1)
  | SmallValue => (small_value, r1)
  | RandomWord => fill 32 r1
  end.

Fixpoint gen_values (n : nat) (r : Rng) : list Hash * Rng :=
  match n with
  | O => ([], r)
  | S n => let '(v, r1) := gen_value r in
           let '(vs, r2) := gen_values n r1 in (v :: vs, r2)
  end.

(** The slot values of one account of phase 1: the count is drawn from
    [[0, range)], then the values, all from the same source. *)
Definition gen_account (range : Z) (r : Rng) : list Hash * Rng :=
  let '(vSlots, r1) := draw range r in gen_values (Z.to_nat vSlots) r1.

(** The key of slot [j] of account [i], as each build labels it. *)
Definition key_prefix (b : Build) : string :=
  match b with Pebble => "acc" | LevelDB => "account" end.

Definition labelled_key (b : Build) (i j : Z) : Hash :=
  BytesToHash (Keccak256 (label_bytes
    (key_prefix b +:+ "-" +:+ pretty i +:+ "-slot-" +:+ pretty j))).

(** The mutations of account [i] of phase 1, given its slot values. *)
Definition account_events (b : Build) (i : Z) (vs : list Hash) : list Event :=
  ESetBalance (account_addr i) (10 ^ 18) ::
  ESetNonce (account_addr i) (to_uint64 i) ::
  imap (λ j v, ESetState (account_addr i) (slot_key b i (Z.of_nat j)) v) vs.

(** The mutations of account [i] with the keys spelled out as the
    digests of their labels. *)
Definition labelled_account_events (b : Build) (i : Z) (vs : list Hash)
    : list Event :=
  ESetBalance (account_addr i) (10 ^ 18) ::
  ESetNonce (account_addr i) (to_uint64 i) ::
  imap (λ j v, ESetState (account_addr i) (labelled_key b i (Z.of_nat j)) v) vs.

(** The slot values of [n] accounts in a row, from one source. *)
Fixpoint gen_accounts (n : nat) (range : Z) (r : Rng)
    : list (list Hash) * Rng :=
  match n with
  | O => ([], r)
  | S n => let '(vs, r1) := gen_account range r in
           let '(vss, r2) := gen_accounts n range r1 in (vs :: vss, r2)
  end.

(** The mutations of phase 1: the source is seeded with 42. *)
Definition gen_phase1 (b : Build) (n range : Z) : list Event :=
  concat (zip_with (account_events b) (seqZ 0 n)
            (gen_accounts (Z.to_nat n) range (NewSource 42)).1).

(** One mutation of phase 2: a slot index below [slots], then a random
    word, written to the account at [addr]. *)
Definition gen_modification (b : Build) (slots : Z) (accountIdx : Z)
    (addr : Address) (r : Rng) : Event * Rng :=
  let '(slotIdx, r1) := draw slots r in
  let '(v, r2) := fill 32 r1 in
  (ESetState addr (slot_key b accountIdx slotIdx) v, r2).

Fixpoint gen_modifications (n : nat) (b : Build) (slots accountIdx : Z)
    (addr : Address) (r : Rng) : list Event * Rng :=
  match n with
  | O => ([], r)
  | S n => let '(e, r1) := gen_modification b slots accountIdx addr r in
           let '(es, r2) := gen_modifications n b slots accountIdx addr r1 in
           (e :: es, r2)
  end.

(** The mutations of phase 2 for the accounts [idxs], 500 each. *)
Fixpoint gen_modified (b : Build) (slots : Z) (idxs : list Z) (r : Rng)
    : list Event * Rng :=
  match idxs with
  | [] => ([], r)
  | a :: idxs =>
      let '(es, r1) := gen_modifications 500 b slots a (account_addr a) r in
      let '(ess, r2) := gen_modified b slots idxs r1 in
      (es ++ ess, r2)
  end.

(** The whole of phase 2: a permutation of all the accounts, of which
    the first [m] are modified. *)
Definition gen_phase2 (b : Build) (n slots m : Z) (r : Rng) : list Event :=
  let '(perm, r1) := shuffle n r in
  (gen_modified b slots (take (Z.to_nat m) perm) r1).1.

End Generators.

(** ** The scheduler, as described *)

(** A boundary falls after unit [i] when [(i+1) mod k = 0] or [i] is
    the last unit. *)
Definition is_boundary (k total i : Z) : bool :=
  bool_decide ((i + 1) `mod` k = 0 ∨ i + 1 = total).

Definition boundaries (k total : Z) : list Z :=
  filter (λ i, is_boundary k total i = true) (seqZ 0 total).

(** The revision numbers handed to [Commit] (lines 108 and 169). *)
Definition revision1 (k i : Z) : Z := to_uint64 (i `quot` k).
Definition revision2 (k i : Z) : Z :=
  to_uint64 (to_uint64 (i `quot` k) + phaseOffset).

Definition phase1_revisions (n k : Z) : list Z :=
  revision1 k <$> boundaries k n.

(** [m] is the flag, clamped by [n] as [main] does. *)
Definition phase2_revisions (n m k : Z) : list Z :=
  let m := if decide (m > n) then n else m in
  revision2 k <$> boundaries k m.

(** ** Views of the event log *)

Definition is_mutation (e : Event) : bool :=
  match e with
  | ESetBalance _ _ | ESetNonce _ _ | ESetState _ _ _ => true
  | _ => false
  end.

Definition is_print (e : Event) : bool :=
  match e with EPrint _ => true | _ => false end.

(** The calls into the store, without the lines printed. *)
Definition store_calls (tr : list Event) : list Event :=
  filter (λ e, is_print e = false) tr.

Definition mutations (tr : list Event) : list Event :=
  filter (λ e, is_mutation e = true) tr.

(** The revisions of the commits and the roots they returned. *)
Definition commit_revisions (tr : list Event) : list Z :=
  omap (λ e, match e with ECommit rev _ => Some rev | _ => None end) tr.

Definition commit_roots (tr : list Event) : list Hash :=
  omap (λ e, match e with ECommit _ (inr root) => Some root | _ => None end) tr.

(** A commit that returned an error. *)
Definition failed_commit (e : Event) : bool :=
  match e with
  | ECommit _ (inl _) | ETrieCommit _ (Some _) => true
  | _ => false
  end.

Definition is_final_report (e : Event) : bool :=
  match e with EPrint (LFinalReport _ _) => true | _ => false end.

(** The line [l] reports the error of the failed commit [e]. *)
Definition reports_failure (e : Event) (l : Line) : Prop :=
  match e with
  | ECommit _ (inl err) => l = LCommitStateFailed err ∨ l = LCommitModFailed err
  | ETrieCommit _ (Some err) =>
      l = LCommitTrieFailed err ∨ l = LCommitTrieModFailed err
  | _ => False
  end.

(** The roots of the commits that went through, state commit and trie
    commit, and the last of them (the zero hash when there is none). *)
Definition flushed_roots (tr : list Event) : list Hash :=
  omap (λ e, match e with ETrieCommit root None => Some root | _ => None end) tr.

Definition last_root (tr : list Event) : Hash :=
  default zeroHash (last (flushed_roots tr)).

(** An event that is neither a commit that went through, nor a failed
    commit, nor the final report. *)
Definition quiet_event (e : Event) : Prop :=
  failed_commit e = false ∧ is_final_report e = false ∧ flushed_roots [e] = [].

(** An event of a run that has not failed: no failed commit, no final
    report. *)
Definition sound_event (e : Event) : Prop :=
  failed_commit e = false ∧ is_final_report e = false.

(** The order of units of work and commits in a log: [inl ()] for an
    event that [is_unit] counts, [inr rev] for a commit. *)
Definition schedule (is_unit : Event → bool) (tr : list Event) : list (unit + Z) :=
  omap (λ e, match e with
             | ECommit rev _ => Some (inr rev)
             | _ => if is_unit e then Some (inl ()) else None
             end) tr.

Definition is_nonce (e : Event) : bool :=
  match e with ESetNonce _ _ => true | _ => false end.

Definition is_slot_write (e : Event) : bool :=
  match e with ESetState _ _ _ => true | _ => false end.

(** The order the scheduler is meant to give: every unit [i] counts
    for [u] events, and is followed by the commit of revision [rev i]
    exactly at a boundary. *)
Definition scheduled (u : nat) (rev : Z → Z) (k total : Z) : list (unit + Z) :=
  flat_map (λ i, replicate u (inl ()) ++
                 if is_boundary k total i then [inr (rev i)] else [])
           (seqZ 0 total).

(** * Properties *)

(** ** Machine integers *)

Lemma to_uint64_small z : 0 ≤ z < 2 ^ 64 → to_uint64 z = z.
Proof. intros. unfold to_uint64. by rewrite Z.mod_small. Qed.

Lemma quot_div_nonneg a b : 0 ≤ a → 0 < b → a `quot` b = a `div` b.
Proof. intros. apply Z.quot_div_nonneg; lia. Qed.

Lemma rem_mod_nonneg a b : 0 ≤ a → 0 < b → a `rem` b = a `mod` b.
Proof. intros. apply Z.rem_mod_nonneg; lia. Qed.

Section Facts.
Context `{HS : Hasher} `{RS : RandSource} `{SS : StateStore}.

(** ** Running the monad *)

Lemma bind_run {A B} (c : M A) (k : A → M B) s :
  (c ≫= k) s =
  match c s with
  | (Val a, s') => k a s'
  | (Returned, s') => (Returned, s')
  | (Panicked msg, s') => (Panicked msg, s')
  end.
Proof. reflexivity. Qed.

Lemma bind_Val {A B} (c : M A) (k : A → M B) s b s' :
  (c ≫= k) s = (Val b, s') →
  ∃ a s1, c s = (Val a, s1) ∧ k a s1 = (Val b, s').
Proof.
  rewrite bind_run. destruct (c s) as [[a| |msg] s1]; intros; simplify_eq; eauto.
Qed.

Lemma bind_Val_l {A B} (c : M A) (k : A → M B) s a s1 :
  c s = (Val a, s1) → (c ≫= k) s = k a s1.
Proof. intros H. by rewrite bind_run, H. Qed.

Lemma bind_Panicked_l {A B} (c : M A) (k : A → M B) s msg s1 :
  c s = (Panicked msg, s1) → (c ≫= k) s = (Panicked msg, s1).
Proof. intros H. by rewrite bind_run, H. Qed.

(** A loop that runs to its end is a chain of steps. *)
Inductive steps (R : Z → State → State → Prop) : list Z → State → State → Prop :=
| steps_nil s : steps R [] s s
| steps_cons i l s s1 s2 :
    R i s s1 → steps R l s1 s2 → steps R (i :: l) s s2.

Lemma for_each_Val l body s s' :
  for_each l body s = (Val tt, s') →
  steps (λ i s s', body i s = (Val tt, s')) l s s'.
Proof.
  revert s. induction l as [|i l IH]; intros s; simpl.
  - intros [= <-]. constructor.
  - intros (? & s1 & Hb & Hl)%bind_Val. destruct x. econstructor; eauto.
Qed.

Lemma steps_impl (R R' : Z → State → State → Prop) l s s' :
  (∀ i s s', i ∈ l → R i s s' → R' i s s') → steps R l s s' → steps R' l s s'.
Proof.
  intros HR Hs. induction Hs as [|i l s s1 s2 Hb _ IH]; [constructor|].
  econstructor.
  - apply HR; [constructor | done].
  - apply IH. intros ????. apply HR. by constructor.
Qed.

(** ** The calls, when they return *)

Lemma Intn_pos n s :
  0 < n → Intn n s = (Val (draw n (rng s)).1, with_rng (draw n (rng s)).2 s).
Proof.
  intros. unfold Intn. case_decide; [lia|]. by destruct (draw n (rng s)).
Qed.

Lemma Intn_nonpos n s :
  n ≤ 0 → Intn n s = (Panicked "invalid argument to Intn", s).
Proof. intros. unfold Intn. by case_decide; [|lia]. Qed.

Lemma Read_run s :
  Read s = (Val (fill 32 (rng s)).1, with_rng (fill 32 (rng s)).2 s).
Proof. unfold Read, HashLength. by destruct (fill 32 (rng s)). Qed.

Lemma index_Val {A} (l : list A) i s x s' :
  index l i s = (Val x, s') → 0 ≤ i ∧ l !! Z.to_nat i = Some x ∧ s' = s.
Proof.
  unfold index. case_decide; [|done].
  destruct (l !! Z.to_nat i); [|done]. by intros [= <- <-].
Qed.

Lemma index_lookup {A} (l : list A) i s x :
  0 ≤ i → l !! Z.to_nat i = Some x → index l i s = (Val x, s).
Proof. intros ? Hl. unfold index. case_decide; [|lia]. by rewrite Hl. Qed.

Lemma int_rem_Val a b s x s' :
  int_rem a b s = (Val x, s') → b ≠ 0 ∧ x = a `rem` b ∧ s' = s.
Proof. unfold int_rem. case_decide; [done|]. by intros [= <- <-]. Qed.

Lemma at_boundary_Val k total i s c s' :
  at_boundary k total i s = (Val c, s') →
  k ≠ 0 ∧ c = bool_decide ((i + 1) `rem` k = 0 ∨ i + 1 = total) ∧ s' = s.
Proof.
  unfold at_boundary. intros (x & s1 & (? & -> & ->)%int_rem_Val & [= <- <-])%bind_Val.
  done.
Qed.

Lemma at_boundary_run k total i s :
  k ≠ 0 →
  at_boundary k total i s =
    (Val (bool_decide ((i + 1) `rem` k = 0 ∨ i + 1 = total)), s).
Proof. intros. unfold at_boundary, int_rem. rewrite bind_run. by case_decide. Qed.

(** For a positive batch size and a counter in range, the test of the
    loops is the boundary of the scheduler. *)
Lemma boundary_test k total i :
  0 < k → 0 ≤ i →
  bool_decide ((i + 1) `rem` k = 0 ∨ i + 1 = total) = is_boundary k total i.
Proof.
  intros. unfold is_boundary. by rewrite rem_mod_nonneg by lia.
Qed.

Lemma call_SetBalance_run a v s :
  call_SetBalance a v s =
  (Val tt, log (ESetBalance a v) (with_statedb (SetBalance a v) s)).
Proof. reflexivity. Qed.

Lemma call_SetNonce_run a n s :
  call_SetNonce a n s =
  (Val tt, log (ESetNonce a n) (with_statedb (SetNonce a n) s)).
Proof. reflexivity. Qed.

(** Stepping over the first call of a sequence, given how it runs. *)
Tactic Notation "mstep" uconstr(H) := erewrite (bind_Val_l _ _ _ _ _ H).

(** ** Phase 1, account by account *)

(** What the variables other than the log and the source keep across a
    piece of [main] that neither commits nor stores an address. *)
Definition same_vars (s s' : State) : Prop :=
  addrs s' = addrs s ∧ currentRoot s' = currentRoot s.

Lemma slot_value_run s :
  slot_value s = (Val (gen_value (rng s)).1, with_rng (gen_value (rng s)).2 s).
Proof.
  unfold slot_value, gen_value, value_kind.
  rewrite bind_run, Intn_pos by lia.
  destruct (draw 100 (rng s)) as [d r1]; simpl.
  repeat case_decide; try done.
  rewrite Read_run. simpl. by destruct (fill 32 r1).
Qed.

Lemma count_slot_run b s :
  ∃ s1, count_slot b s = (Val tt, s1) ∧ out s1 = out s ∧ rng s1 = rng s ∧
        same_vars s s1.
Proof. destruct b; eexists; (split; [reflexivity|done]). Qed.

Lemma create_slot_run b i addr j s :
  ∃ s', create_slot b i addr j s = (Val tt, s') ∧
    out s' = out s ++ [ESetState addr (slot_key b i j) (gen_value (rng s)).1] ∧
    rng s' = (gen_value (rng s)).2 ∧ same_vars s s'.
Proof.
  unfold create_slot.
  destruct (count_slot_run b s) as (s1 & H1 & Ho & Hr & Ha & Hc).
  mstep H1. mstep (slot_value_run s1).
  eexists. split; [reflexivity|]. simpl. rewrite Ho, Hr. done.
Qed.

(** The slot mutations of an account, for the slot indices from [lo]
    onwards. *)
Definition slot_events (b : Build) (i : Z) (addr : Address) (lo : Z)
    (vs : list Hash) : list Event :=
  imap (λ j v, ESetState addr (slot_key b i (lo + Z.of_nat j)) v) vs.

Lemma slot_events_cons b i addr lo v vs :
  slot_events b i addr lo (v :: vs) =
  ESetState addr (slot_key b i lo) v :: slot_events b i addr (lo + 1) vs.
Proof.
  unfold slot_events. simpl. rewrite Z.add_0_r. f_equal.
  apply imap_ext. intros j w _. simpl. do 2 f_equal. lia.
Qed.

Lemma create_slots_run b i addr (n : nat) lo s :
  ∃ s', for_each (seqZ lo (Z.of_nat n)) (create_slot b i addr) s = (Val tt, s') ∧
    out s' = out s ++ slot_events b i addr lo (gen_values n (rng s)).1 ∧
    rng s' = (gen_values n (rng s)).2 ∧ same_vars s s'.
Proof.
  revert lo s. induction n as [|n IH]; intros lo s.
  - eexists. split; [reflexivity|]. simpl. by rewrite app_nil_r.
  - rewrite seqZ_cons by lia. simpl.
    destruct (create_slot_run b i addr lo s) as (s1 & H1 & Ho1 & Hr1 & Ha1 & Hc1).
    rewrite (bind_Val_l _ _ _ _ _ H1).
    replace (Z.pred (Z.of_nat (S n))) with (Z.of_nat n) by lia.
    destruct (IH (Z.succ lo) s1) as (s2 & H2 & Ho2 & Hr2 & Ha2 & Hc2).
    exists s2. split; [done|].
    rewrite Hr1 in Ho2, Hr2.
    destruct (gen_value (rng s)) as [v r1]; simpl in *.
    destruct (gen_values n r1) as [vs r2]; simpl in *.
    rewrite slot_events_cons, Ho2, Ho1, <- app_assoc. simpl.
    unfold same_vars. rewrite Ha2, Hc2. by replace (lo + 1) with (Z.succ lo) by lia.
Qed.

Lemma account_events_slots b i vs :
  account_events b i vs =
  [ESetBalance (account_addr i) (10 ^ 18); ESetNonce (account_addr i) (to_uint64 i)]
  ++ slot_events b i (account_addr i) 0 vs.
Proof. reflexivity. Qed.

(** The range of the slot count of phase 1, as line 83 computes it. *)
Definition slot_range (fl : Flags) : Z := wrap_int (nSlots fl * 2).

Lemma store_addr_Val i a s s' :
  store_addr i a s = (Val tt, s') →
  0 ≤ i ∧ (Z.to_nat i < length (addrs s))%nat ∧
  s' = with_addrs <[Z.to_nat i := a]> s.
Proof.
  unfold store_addr. intros (l & s1 & [= <- <-] & H)%bind_Val.
  apply bind_Val in H as (x & s1 & (? & Hl & ->)%index_Val & [= <-]).
  split_and!; [done| |done]. by apply lookup_lt_Some in Hl.
Qed.

Lemma store_addr_run i a s :
  0 ≤ i → (Z.to_nat i < length (addrs s))%nat →
  store_addr i a s = (Val tt, with_addrs <[Z.to_nat i := a]> s).
Proof.
  intros ? Hlt. unfold store_addr.
  destruct (lookup_lt_is_Some_2 _ _ Hlt) as [x Hx].
  rewrite bind_run. simpl.
  by rewrite (bind_Val_l _ _ _ _ _ (index_lookup _ _ _ _ H Hx)).
Qed.

(** The variables after the mutations of account [i], when they ran to
    their end. *)
Definition account_done (b : Build) (fl : Flags) (i : Z) (s s' : State) : Prop :=
  out s' = out s ++ account_events b i (gen_account (slot_range fl) (rng s)).1 ∧
  rng s' = (gen_account (slot_range fl) (rng s)).2 ∧
  addrs s' = <[Z.to_nat i := account_addr i]> (addrs s) ∧
  currentRoot s' = currentRoot s.

Lemma create_account_run b fl i s :
  0 ≤ i → (Z.to_nat i < length (addrs s))%nat → 0 < slot_range fl →
  ∃ s', create_account b fl i s = (Val tt, s') ∧ account_done b fl i s s'.
Proof.
  intros Hi Hlt Hrange. unfold create_account.
  mstep (store_addr_run _ (account_addr i) _ Hi Hlt).
  mstep (call_SetBalance_run _ _ _).
  mstep (call_SetNonce_run _ _ _).
  fold (slot_range fl). mstep (Intn_pos (slot_range fl) _ Hrange).
  unfold for_range. rewrite Z.sub_0_r.
  pose proof (draw_range (slot_range fl) (rng s) Hrange) as Hd.
  unfold account_done, gen_account. simpl.
  destruct (draw (slot_range fl) (rng s)) as [v r1]; simpl in *.
  replace (seqZ 0 v) with (seqZ 0 (Z.of_nat (Z.to_nat v))) by (f_equal; lia).
  match goal with |- context [for_each _ _ ?s0] =>
    destruct (create_slots_run b i (account_addr i) (Z.to_nat v) 0 s0)
      as (s2 & H2 & Ho2 & Hr2 & Ha2 & Hc2) end.
  exists s2. split; [done|]. simpl in *.
  rewrite Ho2, Hr2, Ha2, Hc2, account_events_slots, <- !app_assoc. done.
Qed.

Lemma create_account_Val b fl i s s' :
  create_account b fl i s = (Val tt, s') →
  0 ≤ i ∧ (Z.to_nat i < length (addrs s))%nat ∧ 0 < slot_range fl ∧
  account_done b fl i s s'.
Proof.
  intros H.
  assert (0 ≤ i ∧ (Z.to_nat i < length (addrs s))%nat) as [Hi Hlt].
  { unfold create_account in H.
    apply bind_Val in H as ([] & s1 & H1%store_addr_Val & _). tauto. }
  assert (0 < slot_range fl) as Hrange.
  { unfold create_account in H.
    rewrite (bind_Val_l _ _ _ _ _ (store_addr_run _ (account_addr i) _ Hi Hlt)) in H.
    rewrite (bind_Val_l _ _ _ _ _ (call_SetBalance_run (account_addr i) (10 ^ 18) _)) in H.
    rewrite (bind_Val_l _ _ _ _ _ (call_SetNonce_run (account_addr i) (to_uint64 i) _)) in H.
    fold (slot_range fl) in H.
    destruct (decide (0 < slot_range fl)); [done|].
    rewrite (bind_Panicked_l _ _ _ _ _ (Intn_nonpos (slot_range fl) _ ltac:(lia))) in H.
    done. }
  destruct (create_account_run b fl i s Hi Hlt Hrange) as (s2 & H2 & Hd).
  rewrite H in H2. by simplify_eq.
Qed.

(** When the range of the slot count is not positive, the first draw of
    an account panics, after its balance and nonce were set. *)
Lemma create_account_panics b fl i s :
  0 ≤ i → (Z.to_nat i < length (addrs s))%nat → slot_range fl ≤ 0 →
  ∃ s', create_account b fl i s = (Panicked "invalid argument to Intn", s') ∧
    out s' = out s ++ [ESetBalance (account_addr i) (10 ^ 18);
                       ESetNonce (account_addr i) (to_uint64 i)] ∧
    currentRoot s' = currentRoot s.
Proof.
  intros Hi Hlt Hrange. unfold create_account.
  mstep (store_addr_run _ (account_addr i) _ Hi Hlt).
  mstep (call_SetBalance_run _ _ _).
  mstep (call_SetNonce_run _ _ _).
  fold (slot_range fl).
  rewrite (bind_Panicked_l _ _ _ _ _ (Intn_nonpos (slot_range fl) _ Hrange)).
  eexists. split; [reflexivity|]. simpl. by rewrite <- app_assoc.
Qed.

(** ** The commit at a boundary *)

(** The events of a commit that went through. *)
Definition cut_events (rev : Z) (root : Hash) (line : Line) : list Event :=
  [ECommit rev (inr root); ETrieCommit root None; EPrint line; EStateNew root].

(** The three ways a commit ends: the state commit fails, the trie
    commit fails, or both go through. [lineS] and [lineT] are the lines
    that report the failures. *)
Definition commit_outcome (rev : Z) (lineS lineT : string → Line)
    (s : State) (o : Outcome unit) (s' : State) : Prop :=
  rng s' = rng s ∧ addrs s' = addrs s ∧
  ((∃ err, o = Returned ∧ currentRoot s' = currentRoot s ∧
      out s' = out s ++ [ECommit rev (inl err); EPrint (lineS err)]) ∨
   (∃ root err, o = Returned ∧ currentRoot s' = currentRoot s ∧
      out s' = out s ++ [ECommit rev (inr root); ETrieCommit root (Some err);
                         EPrint (lineT err)]) ∨
   (∃ root line, o = Val tt ∧ currentRoot s' = root ∧
      is_final_report (EPrint line) = false ∧
      out s' = out s ++ cut_events rev root line)).

Lemma commit_created_outcome env fl i s :
  commit_outcome (revision1 (kCommit fl) i) LCommitStateFailed LCommitTrieFailed
    s (commit_created env fl i s).1 (commit_created env fl i s).2.
Proof.
  unfold commit_created, commit_outcome, revision1, call_Commit, call_TrieCommit.
  rewrite bind_run.
  destruct (Commit _ (statedb s)) as [[err|root] st1]; simpl.
  { split_and!; [done..|]. left. exists err. by rewrite <- app_assoc. }
  rewrite bind_run. simpl.
  destruct (TrieCommit root st1) as [[err|] st2]; simpl.
  { split_and!; [done..|]. right; left. exists root, err.
    by rewrite <- !app_assoc. }
  split_and!; [done..|]. right; right. eexists root, (LBatch _ _ _ _).
  split_and!; [done..|]. rewrite <- !app_assoc. reflexivity.
Qed.

Lemma commit_modified_outcome env fl i s :
  commit_outcome (revision2 (kCommit fl) i) LCommitModFailed LCommitTrieModFailed
    s (commit_modified env fl i s).1 (commit_modified env fl i s).2.
Proof.
  unfold commit_modified, commit_outcome, revision2, call_Commit, call_TrieCommit.
  rewrite bind_run.
  destruct (Commit _ (statedb s)) as [[err|root] st1]; simpl.
  { split_and!; [done..|]. left. exists err. by rewrite <- app_assoc. }
  rewrite bind_run. simpl.
  destruct (TrieCommit root st1) as [[err|] st2]; simpl.
  { split_and!; [done..|]. right; left. exists root, err.
    by rewrite <- !app_assoc. }
  split_and!; [done..|]. right; right. eexists root, (LModBatch _ _).
  split_and!; [done..|]. rewrite <- !app_assoc. reflexivity.
Qed.

Lemma commit_outcome_Val rev lineS lineT s s' :
  commit_outcome rev lineS lineT s (Val tt) s' →
  rng s' = rng s ∧ addrs s' = addrs s ∧
  ∃ line, out s' = out s ++ cut_events rev (currentRoot s') line.
Proof.
  intros (? & ? & [(? & ? & _)|[(? & ? & ? & _)|(root & line & _ & <- & _ & ?)]]);
    [done..|]. eauto.
Qed.

(** The progress line. *)
Definition progress_events (line : Z → Z → Line) (total i : Z) : list Event :=
  if decide ((i + 1) `rem` 10 = 0 ∨ i + 1 = total)
  then [EPrint (line (i + 1) total)] else [].

Lemma progress_run line total i s :
  ∃ s', progress line total i s = (Val tt, s') ∧
    out s' = out s ++ progress_events line total i ∧
    rng s' = rng s ∧ same_vars s s'.
Proof.
  unfold progress, progress_events. case_decide.
  - eexists. split; [reflexivity|]. done.
  - eexists. split; [reflexivity|]. simpl. by rewrite app_nil_r.
Qed.

(** The events that close unit [i] of a phase: the progress line, then
    the commit when [i] is at a boundary. *)
Definition closing (line : Z → Z → Line) (rev : Z → Z) (k total i : Z)
    (s s' : State) : Prop :=
  k ≠ 0 ∧ rng s' = rng s ∧ addrs s' = addrs s ∧
  if bool_decide ((i + 1) `rem` k = 0 ∨ i + 1 = total)
  then ∃ batch, out s' = out s ++ progress_events line total i
                    ++ cut_events (rev i) (currentRoot s') batch
  else out s' = out s ++ progress_events line total i ∧
       currentRoot s' = currentRoot s.

(** One turn of the loop of phase 1 that ran to its end. *)
Definition created (b : Build) (fl : Flags) (i : Z) (s s' : State) : Prop :=
  ∃ s1, 0 ≤ i ∧ (Z.to_nat i < length (addrs s))%nat ∧ 0 < slot_range fl ∧
    account_done b fl i s s1 ∧
    closing LProcessed (revision1 (kCommit fl)) (kCommit fl) (nAccounts fl) i s1 s'.

Lemma create_step_Val env b fl i s s' :
  create_step env b fl i s = (Val tt, s') → created b fl i s s'.
Proof.
  unfold create_step.
  intros ([] & s1 & (Hi & Hlt & Hr & Hacc)%create_account_Val & H)%bind_Val.
  destruct (progress_run LProcessed (nAccounts fl) i s1)
    as (s2 & H2 & Ho2 & Hr2 & Ha2 & Hc2).
  rewrite (bind_Val_l _ _ _ _ _ H2) in H.
  apply bind_Val in H as (cut & s3 & (Hk & -> & ->)%at_boundary_Val & H).
  exists s1. split_and!; [done..|].
  unfold closing. split; [done|]. case_bool_decide.
  - pose proof (commit_created_outcome env fl i s2) as Hc. rewrite H in Hc.
    simpl in Hc. apply commit_outcome_Val in Hc as (Hr3 & Ha3 & line & Ho3).
    split_and!; [congruence..|]. exists line. by rewrite Ho3, Ho2, <- app_assoc.
  - injection H as <-. done.
Qed.

(** The variables when the loop of phase 1 starts. *)
Definition phase1_start (fl : Flags) (s s0 : State) : Prop :=
  0 ≤ nAccounts fl ∧
  out s0 = out s ++ [EPrint (LPhase1 (nAccounts fl) (nSlots fl) (kCommit fl))] ∧
  rng s0 = NewSource 42 ∧
  addrs s0 = replicate (Z.to_nat (nAccounts fl)) zeroAddress ∧
  currentRoot s0 = zeroHash ∧ statedb s0 = statedb s.

(** The lines that close a phase. *)
Definition closing_lines (s s' : State) : Prop :=
  ∃ ls, out s' = out s ++ (EPrint <$> ls) ∧ (0 < length ls)%nat ∧
        rng s' = rng s ∧ same_vars s s' ∧ statedb s' = statedb s.

Lemma phase1_Val env b fl s s' :
  phase1 env b fl s = (Val tt, s') →
  ∃ s0 s1, phase1_start fl s s0 ∧
    steps (created b fl) (seqZ 0 (nAccounts fl)) s0 s1 ∧
    closing_lines s1 s'.
Proof.
  unfold phase1. intros H.
  apply bind_Val in H as ([] & s1 & [= <-] & H).
  apply bind_Val in H as ([] & s2 & H2 & H).
  unfold make_addrs in H2. case_decide; [done|]. injection H2 as <-.
  apply bind_Val in H as ([] & s3 & [= <-] & H).
  apply bind_Val in H as ([] & s4 & [= <-] & H).
  apply bind_Val in H as ([] & s5 & [= <-] & H).
  apply bind_Val in H as ([] & s6 & Hloop & H).
  unfold for_range in Hloop. rewrite Z.sub_0_r in Hloop.
  apply for_each_Val in Hloop.
  match type of Hloop with steps _ _ ?s0 _ => exists s0, s6 end.
  split; [|split].
  - split; [lia|]. split_and!; reflexivity.
  - eapply steps_impl; [|exact Hloop]. intros ??? _ Hst.
    exact (create_step_Val _ _ _ _ _ _ Hst).
  - apply bind_Val in H as (t & ? & [= <- <-] & H).
    apply bind_Val in H as (cur & ? & [= <- <-] & H).
    destruct b.
    + apply bind_Val in H as ([] & ? & [= <-] & H).
      apply bind_Val in H as (n & ? & [= <- <-] & [= <-]).
      eexists [_; _]. simpl. rewrite <- app_assoc. split_and!; done || lia.
    + apply bind_Val in H as ([] & ? & [= <-] & [= <-]).
      eexists [_]. simpl. split_and!; done || lia.
Qed.

(** ** Phase 2, account by account *)

Lemma modify_slot_run b fl idx addr j s :
  0 < nSlots fl →
  ∃ s', modify_slot b fl idx addr j s = (Val tt, s') ∧
    out s' = out s ++ [(gen_modification b (nSlots fl) idx addr (rng s)).1] ∧
    rng s' = (gen_modification b (nSlots fl) idx addr (rng s)).2 ∧
    same_vars s s'.
Proof.
  intros Hn. unfold modify_slot.
  destruct (count_slot_run b s) as (s1 & H1 & Ho & Hr & Ha & Hc).
  mstep H1. mstep (Intn_pos (nSlots fl) _ Hn). mstep (Read_run _).
  eexists. split; [reflexivity|]. simpl. rewrite Hr, Ho.
  unfold gen_modification, same_vars.
  destruct (draw (nSlots fl) (rng s)) as [x r1]; simpl.
  destruct (fill 32 r1) as [v r2]; simpl. done.
Qed.

Lemma modify_slot_panics b fl idx addr j s :
  nSlots fl ≤ 0 →
  ∃ s', modify_slot b fl idx addr j s = (Panicked "invalid argument to Intn", s') ∧
    out s' = out s ∧ same_vars s s'.
Proof.
  intros Hn. unfold modify_slot.
  destruct (count_slot_run b s) as (s1 & H1 & Ho & Hr & Ha & Hc).
  mstep H1. rewrite (bind_Panicked_l _ _ _ _ _ (Intn_nonpos (nSlots fl) _ Hn)).
  exists s1. by split_and!.
Qed.

Lemma modify_slots_run b fl idx addr (n : nat) lo s :
  0 < nSlots fl →
  ∃ s', for_each (seqZ lo (Z.of_nat n)) (modify_slot b fl idx addr) s = (Val tt, s') ∧
    out s' = out s ++ (gen_modifications n b (nSlots fl) idx addr (rng s)).1 ∧
    rng s' = (gen_modifications n b (nSlots fl) idx addr (rng s)).2 ∧
    same_vars s s'.
Proof.
  intros Hn. revert lo s. induction n as [|n IH]; intros lo s.
  - eexists. split; [reflexivity|]. simpl. by rewrite app_nil_r.
  - rewrite seqZ_cons by lia. simpl.
    destruct (modify_slot_run b fl idx addr lo s Hn) as (s1 & H1 & Ho1 & Hr1 & Ha1 & Hc1).
    mstep H1.
    replace (Z.pred (Z.of_nat (S n))) with (Z.of_nat n) by lia.
    destruct (IH (Z.succ lo) s1) as (s2 & H2 & Ho2 & Hr2 & Ha2 & Hc2).
    exists s2. split; [done|].
    rewrite Hr1 in Ho2, Hr2.
    destruct (gen_modification b (nSlots fl) idx addr (rng s)) as [e r1]; simpl in *.
    destruct (gen_modifications n b (nSlots fl) idx addr r1) as [es r2]; simpl in *.
    rewrite Ho2, Ho1, <- app_assoc. unfold same_vars. by rewrite Ha2, Hc2.
Qed.

(** The variables after the mutations of the [i]-th permuted account,
    when they ran to their end. *)
Definition account_modified (b : Build) (fl : Flags) (perm : list Z) (i : Z)
    (s s' : State) : Prop :=
  ∃ idx addr, 0 ≤ i ∧ perm !! Z.to_nat i = Some idx ∧ 0 ≤ idx ∧
    addrs s !! Z.to_nat idx = Some addr ∧ 0 < nSlots fl ∧
    out s' = out s ++ (gen_modifications 500 b (nSlots fl) idx addr (rng s)).1 ∧
    rng s' = (gen_modifications 500 b (nSlots fl) idx addr (rng s)).2 ∧
    same_vars s s'.

Lemma modify_account_run b fl perm i idx addr s :
  0 ≤ i → perm !! Z.to_nat i = Some idx → 0 ≤ idx →
  addrs s !! Z.to_nat idx = Some addr → 0 < nSlots fl →
  ∃ s', modify_account b fl perm i s = (Val tt, s') ∧
        account_modified b fl perm i s s'.
Proof.
  intros Hi Hp Hidx Ha Hn. unfold modify_account.
  mstep (index_lookup perm i _ idx Hi Hp).
  rewrite bind_run. simpl.
  mstep (index_lookup (addrs s) idx _ addr Hidx Ha).
  destruct (modify_slots_run b fl idx addr 500 0 s Hn) as (s2 & H2 & ?).
  exists s2. split; [exact H2|]. by exists idx, addr.
Qed.

Lemma modify_account_Val b fl perm i s s' :
  modify_account b fl perm i s = (Val tt, s') →
  account_modified b fl perm i s s'.
Proof.
  intros H. pose proof H as H'. unfold modify_account in H'.
  apply bind_Val in H' as (idx & ? & (Hi & Hp & ->)%index_Val & H').
  apply bind_Val in H' as (l & ? & [= <- <-] & H').
  apply bind_Val in H' as (addr & ? & (Hidx & Ha & ->)%index_Val & H').
  destruct (decide (0 < nSlots fl)) as [Hn|Hn].
  - destruct (modify_account_run b fl perm i idx addr s) as (s2 & H2 & ?);
      [done..|]. rewrite H in H2. by simplify_eq.
  - exfalso. unfold for_range in H'. simpl in H'.
    destruct (modify_slot_panics b fl idx addr 0 s ltac:(lia)) as (s1 & H1 & _).
    rewrite (bind_Panicked_l _ _ _ _ _ H1) in H'. done.
Qed.

(** One turn of the loop of phase 2 that ran to its end. *)
Definition modified (b : Build) (fl : Flags) (m : Z) (perm : list Z) (i : Z)
    (s s' : State) : Prop :=
  ∃ s1, account_modified b fl perm i s s1 ∧
    closing LModified (revision2 (kCommit fl)) (kCommit fl) m i s1 s'.

Lemma modify_step_Val env b fl m perm i s s' :
  modify_step env b fl m perm i s = (Val tt, s') → modified b fl m perm i s s'.
Proof.
  unfold modify_step.
  intros ([] & s1 & Hacc%modify_account_Val & H)%bind_Val.
  destruct (progress_run LModified m i s1) as (s2 & H2 & Ho2 & Hr2 & Ha2 & Hc2).
  rewrite (bind_Val_l _ _ _ _ _ H2) in H.
  apply bind_Val in H as (cut & s3 & (Hk & -> & ->)%at_boundary_Val & H).
  exists s1. split; [done|].
  unfold closing. split; [done|]. case_bool_decide.
  - pose proof (commit_modified_outcome env fl i s2) as Hc. rewrite H in Hc.
    simpl in Hc. apply commit_outcome_Val in Hc as (Hr3 & Ha3 & line & Ho3).
    split_and!; [congruence..|]. exists line. by rewrite Ho3, Ho2, <- app_assoc.
  - injection H as <-. done.
Qed.

(** The variables when the loop of phase 2 starts. *)
Definition phase2_start (env : Env) (fl : Flags) (perm : list Z)
    (s s0 : State) : Prop :=
  0 ≤ nAccounts fl ∧
  out s0 = out s ++ [EPrint (LPhase2 (clamp_modify fl) (kCommit fl))] ∧
  shuffle (nAccounts fl) (NewSource (unixNano env)) = (perm, rng s0) ∧
  same_vars s s0 ∧ statedb s0 = statedb s.

Lemma phase2_Val env b fl s s' :
  phase2 env b fl s = (Val tt, s') →
  ∃ perm s0 s1, phase2_start env fl perm s s0 ∧
    steps (modified b fl (clamp_modify fl) perm) (seqZ 0 (clamp_modify fl)) s0 s1 ∧
    closing_lines s1 s'.
Proof.
  unfold phase2. intros H.
  apply bind_Val in H as ([] & s1 & [= <-] & H).
  apply bind_Val in H as ([] & s2 & H2 & H).
  assert (out s2 = out s ++ [EPrint (LPhase2 (clamp_modify fl) (kCommit fl))] ∧
          same_vars s s2 ∧ statedb s2 = statedb s) as (Ho2 & Hv2 & Hst2).
  { destruct b; injection H2 as <-; done. }
  clear H2.
  apply bind_Val in H as ([] & s3 & [= <-] & H).
  apply bind_Val in H as (perm & s4 & H4 & H).
  unfold Perm in H4. case_decide; [done|].
  simpl in H4. destruct (shuffle _ _) as [p r] eqn:Hsh. injection H4 as <- <-.
  apply bind_Val in H as ([] & s6 & Hloop & H).
  unfold for_range in Hloop. rewrite Z.sub_0_r in Hloop.
  apply for_each_Val in Hloop.
  match type of Hloop with steps _ _ ?s0 _ => exists p, s0, s6 end.
  split; [|split].
  - split; [lia|]. by simpl.
  - eapply steps_impl; [|exact Hloop]. intros ??? _ Hst.
    exact (modify_step_Val _ _ _ _ _ _ _ _ Hst).
  - apply bind_Val in H as (t & ? & [= <- <-] & H).
    apply bind_Val in H as (cur & ? & [= <- <-] & H).
    destruct b.
    + apply bind_Val in H as ([] & ? & [= <-] & H).
      apply bind_Val in H as (n & ? & [= <- <-] & [= <-]).
      eexists [_; _]. simpl. rewrite <- app_assoc. split_and!; done || lia.
    + apply bind_Val in H as ([] & ? & [= <-] & [= <-]).
      eexists [_]. simpl. split_and!; done || lia.
Qed.

(** ** The log of a phase *)

(** The events logged between two points of a run. *)
Definition since (s s' : State) : list Event := drop (length (out s)) (out s').

Lemma since_app s s' tr : out s' = out s ++ tr → since s s' = tr.
Proof. intros H. unfold since. rewrite H. by rewrite drop_app_length. Qed.

Lemma steps_trace (T : Z → list Event → Prop) (R : Z → State → State → Prop)
    l s s' :
  (∀ i s s', R i s s' → ∃ tr, out s' = out s ++ tr ∧ T i tr) →
  steps R l s s' →
  ∃ trs, out s' = out s ++ concat trs ∧ Forall2 T l trs.
Proof.
  intros HR. induction 1 as [s|i l s s1 s2 Hb _ (trs & Ho & HT)].
  - exists []. simpl. by rewrite app_nil_r.
  - destruct (HR _ _ _ Hb) as (tr & Ho1 & HT1).
    exists (tr :: trs). simpl. rewrite Ho, Ho1, <- app_assoc. by split; [|constructor].
Qed.

Lemma omap_concat_Forall2 {X} (f : Event → option X) (g : Z → list X)
    (T : Z → list Event → Prop) l trs :
  (∀ i tr, i ∈ l → T i tr → omap f tr = g i) →
  Forall2 T l trs → omap f (concat trs) = flat_map g l.
Proof.
  intros HT. induction 1 as [|i tr l trs Hi _ IH]; simpl; [done|].
  rewrite omap_app, IH, (HT i tr); [done|constructor|done|].
  intros ????. apply HT; [by constructor|done].
Qed.

(** The log of one unit of work: its mutations [body], the progress
    line, and the events of a commit exactly when the test of the loop
    holds. *)
Definition unit_trace (body : list Event) (line : Z → Z → Line) (rev : Z → Z)
    (k total i : Z) (tr : list Event) : Prop :=
  ∃ cut, tr = body ++ progress_events line total i ++ cut ∧
    if bool_decide ((i + 1) `rem` k = 0 ∨ i + 1 = total)
    then ∃ root batch, cut = cut_events (rev i) root batch
    else cut = [].

Lemma closing_trace line rev k total i s0 s s' body :
  out s = out s0 ++ body →
  closing line rev k total i s s' →
  ∃ tr, out s' = out s0 ++ tr ∧ unit_trace body line rev k total i tr.
Proof.
  intros Ho (Hk & _ & _ & Hc). unfold unit_trace.
  case_bool_decide.
  - destruct Hc as (batch & Ho'). eexists. split.
    + rewrite Ho', Ho, <- app_assoc. reflexivity.
    + eexists. split; [reflexivity|]. eauto.
  - destruct Hc as (Ho' & _). eexists. split.
    + rewrite Ho', Ho, <- app_assoc. reflexivity.
    + exists []. by rewrite app_nil_r.
Qed.

Lemma schedule_app is_unit tr1 tr2 :
  schedule is_unit (tr1 ++ tr2) = schedule is_unit tr1 ++ schedule is_unit tr2.
Proof. apply omap_app. Qed.

Lemma schedule_progress is_unit line total i :
  is_unit (EPrint (line (i + 1) total)) = false →
  schedule is_unit (progress_events line total i) = [].
Proof.
  intros Hu. unfold progress_events. case_decide; [|done]. simpl. by rewrite Hu.
Qed.

Lemma schedule_cut is_unit rev root batch :
  is_unit (ETrieCommit root None) = false →
  is_unit (EPrint batch) = false →
  is_unit (EStateNew root) = false →
  schedule is_unit (cut_events rev root batch) = [inr rev].
Proof. intros H1 H2 H3. simpl. by rewrite H1, H2, H3. Qed.

(** The schedule of a unit's log, given the schedule of its
    mutations. *)
Lemma schedule_unit_trace is_unit body line rev k total i tr (u : nat) :
  (∀ l, is_unit (EPrint l) = false) →
  (∀ root res, is_unit (ETrieCommit root res) = false) →
  (∀ root, is_unit (EStateNew root) = false) →
  0 < k → 0 ≤ i →
  schedule is_unit body = replicate u (inl ()) →
  unit_trace body line rev k total i tr →
  schedule is_unit tr =
    replicate u (inl ()) ++ if is_boundary k total i then [inr (rev i)] else [].
Proof.
  intros Hp Ht Hn Hk Hi Hbody (cut & -> & Hcut).
  rewrite !schedule_app, Hbody, schedule_progress by done. simpl.
  rewrite boundary_test in Hcut by done.
  destruct (is_boundary k total i).
  - destruct Hcut as (root & batch & ->). by rewrite schedule_cut.
  - by subst cut.
Qed.

Lemma omap_imap_None {X Y} (f : Event → option X) (g : nat → Y → Event) l :
  (∀ j y, f (g j y) = None) → omap f (imap g l) = [].
Proof.
  intros Hf. revert g Hf. induction l as [|y l IH]; intros g Hf; simpl; [done|].
  rewrite Hf. apply IH. intros. apply Hf.
Qed.

Lemma schedule_account_events b i vs :
  schedule is_nonce (account_events b i vs) = [inl ()].
Proof.
  unfold account_events, schedule. simpl. f_equal. by apply omap_imap_None.
Qed.

Lemma schedule_gen_modifications n b slots idx addr r :
  schedule is_slot_write (gen_modifications n b slots idx addr r).1
  = replicate n (inl ()).
Proof.
  revert r. induction n as [|n IH]; intros r; simpl; [done|].
  unfold gen_modification at 1.
  destruct (draw slots r) as [x r1]. destruct (fill 32 r1) as [v r2].
  specialize (IH r2). destruct (gen_modifications n b slots idx addr r2).
  simpl in *. by rewrite IH.
Qed.

(** The log of a turn of each loop. *)
Definition created_trace (b : Build) (fl : Flags) (i : Z) (tr : list Event) : Prop :=
  ∃ vs, Z.of_nat (length vs) < slot_range fl ∧
    unit_trace (account_events b i vs) LProcessed (revision1 (kCommit fl))
      (kCommit fl) (nAccounts fl) i tr.

Lemma gen_values_length n r : length (gen_values n r).1 = n.
Proof.
  revert r. induction n as [|n IH]; intros r; simpl; [done|].
  destruct (gen_value r) as [v r1]. specialize (IH r1).
  destruct (gen_values n r1). simpl in *. by rewrite IH.
Qed.

Lemma gen_account_length range r :
  0 < range → Z.of_nat (length (gen_account range r).1) < range.
Proof.
  intros Hr. unfold gen_account. pose proof (draw_range range r Hr) as Hd.
  destruct (draw range r) as [v r1]. simpl in Hd.
  rewrite gen_values_length. lia.
Qed.

Lemma created_has_trace b fl i s s' :
  created b fl i s s' → ∃ tr, out s' = out s ++ tr ∧ created_trace b fl i tr.
Proof.
  intros (s1 & Hi & Hlt & Hr & (Ho & _) & Hc).
  destruct (closing_trace _ _ _ _ _ _ _ _ _ Ho Hc) as (tr & Ho' & Htr).
  exists tr. split; [done|]. eexists. split; [|exact Htr].
  by apply gen_account_length.
Qed.

Definition modified_trace (fl : Flags) (m i : Z) (tr : list Event) : Prop :=
  ∃ body, schedule is_slot_write body = replicate 500 (inl ()) ∧
    unit_trace body LModified (revision2 (kCommit fl)) (kCommit fl) m i tr.

Lemma modified_has_trace b fl m perm i s s' :
  modified b fl m perm i s s' →
  ∃ tr, out s' = out s ++ tr ∧ modified_trace fl m i tr.
Proof.
  intros (s1 & (idx & addr & _ & _ & _ & _ & _ & Ho & _) & Hc).
  destruct (closing_trace _ _ _ _ _ _ _ _ _ Ho Hc) as (tr & Ho' & Htr).
  exists tr. split; [done|]. eexists. split; [|exact Htr].
  apply schedule_gen_modifications.
Qed.

Lemma schedule_prints is_unit (ls : list Line) :
  (∀ l, is_unit (EPrint l) = false) → schedule is_unit (EPrint <$> ls) = [].
Proof.
  intros Hp. induction ls as [|l ls IH]; simpl; [done|]. by rewrite Hp.
Qed.

(** The schedule of phase 1, when it ran to its end: one nonce per
    account, and a commit of revision [revision1 k i] after account [i]
    exactly at the boundaries. *)
Lemma phase1_schedule env b fl s s1 :
  0 < kCommit fl →
  phase1 env b fl s = (Val tt, s1) →
  schedule is_nonce (since s s1)
  = scheduled 1 (revision1 (kCommit fl)) (kCommit fl) (nAccounts fl).
Proof.
  intros Hk (s0 & s' & (Hn & Ho0 & _) & Hsteps & (ls & Ho1 & _))%phase1_Val.
  destruct (steps_trace (created_trace b fl) _ _ _ _
              (created_has_trace b fl) Hsteps) as (trs & Ho & HT).
  rewrite (since_app s s1 ([EPrint (LPhase1 (nAccounts fl) (nSlots fl) (kCommit fl))]
                           ++ concat trs ++ (EPrint <$> ls))).
  2: { rewrite Ho1, Ho, Ho0, <- !app_assoc. done. }
  rewrite !schedule_app, schedule_prints by done. simpl. rewrite app_nil_r.
  unfold scheduled. eapply omap_concat_Forall2; [|exact HT].
  intros i tr Hi%elem_of_seqZ (vs & _ & Htr).
  eapply (schedule_unit_trace is_nonce _ _ _ _ _ _ _ 1); try done; [lia|].
  apply schedule_account_events.
Qed.

(** The schedule of phase 2, when it ran to its end: 500 slot writes per
    account, and a commit of revision [revision2 k i] after the [i]-th
    account exactly at the boundaries. *)
Lemma phase2_schedule env b fl s s1 :
  0 < kCommit fl →
  phase2 env b fl s = (Val tt, s1) →
  schedule is_slot_write (since s s1)
  = scheduled 500 (revision2 (kCommit fl)) (kCommit fl) (clamp_modify fl).
Proof.
  intros Hk (perm & s0 & s' & (Hn & Ho0 & _) & Hsteps & (ls & Ho1 & _))%phase2_Val.
  destruct (steps_trace (modified_trace fl (clamp_modify fl)) _ _ _ _
              (modified_has_trace b fl _ perm) Hsteps) as (trs & Ho & HT).
  rewrite (since_app s s1 ([EPrint (LPhase2 (clamp_modify fl) (kCommit fl))]
                           ++ concat trs ++ (EPrint <$> ls))).
  2: { rewrite Ho1, Ho, Ho0, <- !app_assoc. done. }
  rewrite !schedule_app, schedule_prints by done. simpl. rewrite app_nil_r.
  unfold scheduled. eapply omap_concat_Forall2; [|exact HT].
  intros i tr Hi%elem_of_seqZ (body & Hbody & Htr).
  eapply (schedule_unit_trace is_slot_write _ _ _ _ _ _ _ 500); try done. lia.
Qed.

(** The revisions of the commits, read off a schedule. *)
Definition schedule_revisions (l : list (unit + Z)) : list Z :=
  omap (λ x, match x with inr rev => Some rev | inl _ => None end) l.

Lemma commit_revisions_schedule is_unit tr :
  commit_revisions tr = schedule_revisions (schedule is_unit tr).
Proof.
  induction tr as [|e tr IH]; [done|].
  destruct e; simpl; rewrite ?IH; try done;
    match goal with |- context [is_unit ?e] => by destruct (is_unit e) end.
Qed.

Lemma schedule_revisions_app l1 l2 :
  schedule_revisions (l1 ++ l2) = schedule_revisions l1 ++ schedule_revisions l2.
Proof. apply omap_app. Qed.

Lemma schedule_revisions_units u : schedule_revisions (replicate u (inl ())) = [].
Proof. by induction u. Qed.

Lemma scheduled_revisions u rev k total :
  schedule_revisions (scheduled u rev k total) = rev <$> boundaries k total.
Proof.
  unfold scheduled, boundaries.
  induction (seqZ 0 total) as [|i l IH]; simpl; [done|].
  rewrite !schedule_revisions_app, schedule_revisions_units, IH. simpl.
  rewrite filter_cons. destruct (is_boundary k total i) eqn:Hb.
  - by rewrite decide_True by done.
  - by rewrite decide_False by done.
Qed.

Lemma scheduled_ext u rev rev' k total :
  (∀ i, 0 ≤ i < total → rev i = rev' i) →
  scheduled u rev k total = scheduled u rev' k total.
Proof.
  intros Hrev. unfold scheduled.
  assert (Forall (λ i, 0 ≤ i < total) (seqZ 0 total)) as Hall.
  { apply Forall_seqZ. lia. }
  induction Hall as [|i l Hi _ IH]; simpl; [done|].
  by rewrite IH, Hrev.
Qed.

Lemma revision1_div k i : 0 < k → 0 ≤ i ≤ int_max → revision1 k i = i `div` k.
Proof.
  intros Hk Hi. unfold revision1, int_max in *. rewrite quot_div_nonneg by lia.
  apply to_uint64_small.
  split; [apply Z.div_pos; lia|].
  apply Z.le_lt_trans with i; [|lia].
  apply Z.div_le_upper_bound; nia.
Qed.

Lemma revision2_div k i :
  0 < k → 0 ≤ i ≤ int_max → revision2 k i = i `div` k + phaseOffset.
Proof.
  intros Hk Hi. unfold revision2. fold (revision1 k i).
  rewrite revision1_div by done.
  assert (0 ≤ i `div` k ≤ i).
  { split; [apply Z.div_pos; lia|]. apply Z.div_le_upper_bound; nia. }
  apply to_uint64_small. unfold int_max, phaseOffset in *. lia.
Qed.

Lemma clamp_modify_le fl : clamp_modify fl ≤ nAccounts fl.
Proof. unfold clamp_modify. case_decide; lia. Qed.

Lemma elem_of_boundaries k total i :
  i ∈ boundaries k total ↔ 0 ≤ i < total ∧ is_boundary k total i = true.
Proof.
  unfold boundaries. rewrite list_elem_of_filter, elem_of_seqZ. intuition lia.
Qed.

Lemma phase1_commit_revisions env b fl s s1 :
  0 < kCommit fl →
  phase1 env b fl s = (Val tt, s1) →
  commit_revisions (since s s1) = phase1_revisions (nAccounts fl) (kCommit fl).
Proof.
  intros Hk H1.
  rewrite (commit_revisions_schedule is_nonce), (phase1_schedule _ _ _ _ _ Hk H1).
  apply scheduled_revisions.
Qed.

Lemma phase2_commit_revisions env b fl s s1 :
  0 < kCommit fl →
  phase2 env b fl s = (Val tt, s1) →
  commit_revisions (since s s1)
  = phase2_revisions (nAccounts fl) (mModify fl) (kCommit fl).
Proof.
  intros Hk H1.
  rewrite (commit_revisions_schedule is_slot_write), (phase2_schedule _ _ _ _ _ Hk H1).
  apply scheduled_revisions.
Qed.

Lemma phase1_revisions_bound n k r :
  0 < k → n ≤ int_max → r ∈ phase1_revisions n k → 0 ≤ r ∧ r * k < n.
Proof.
  intros Hk Hn (i & -> & (Hi & _)%elem_of_boundaries)%list_elem_of_fmap.
  rewrite revision1_div by lia.
  split; [apply Z.div_pos; lia|].
  pose proof (Z.mul_div_le i k Hk). lia.
Qed.

Lemma phase2_revisions_bound n m k r :
  0 < k → n ≤ int_max → r ∈ phase2_revisions n m k → phaseOffset ≤ r.
Proof.
  intros Hk Hn. unfold phase2_revisions.
  intros (i & -> & (Hi & _)%elem_of_boundaries)%list_elem_of_fmap.
  rewrite revision2_div; [|done|case_decide; lia].
  assert (0 ≤ i `div` k) by (apply Z.div_pos; lia). lia.
Qed.

(** ** The claims about the scheduler *)

(** C1 (as amended). The revision numbers of phase 1 and of phase 2 do
    not overlap as long as phase 1 has at most 1000000 batches, that is
    for a batch size [k] of at least 1 and [n ≤ 1000000 * k] accounts:
    no revision of a commit of phase 1 is the revision of a commit of
    phase 2, and the commits of a run that reaches the end of both
    phases carry exactly these revisions. *)
Theorem revisions_disjoint_within_offset (fl : Flags) :
  1 ≤ kCommit fl → nAccounts fl ≤ phaseOffset * kCommit fl →
  nAccounts fl ≤ int_max →
  (∀ r, r ∈ phase1_revisions (nAccounts fl) (kCommit fl) →
        r ∉ phase2_revisions (nAccounts fl) (mModify fl) (kCommit fl)) ∧
  (∀ env b s s1 s2,
     phase1 env b fl s = (Val tt, s1) → phase2 env b fl s1 = (Val tt, s2) →
     commit_revisions (since s s1)
       = phase1_revisions (nAccounts fl) (kCommit fl) ∧
     commit_revisions (since s1 s2)
       = phase2_revisions (nAccounts fl) (mModify fl) (kCommit fl) ∧
     ∀ r, r ∈ commit_revisions (since s s1) →
          r ∉ commit_revisions (since s1 s2)).
Proof.
  intros Hk Hn Hmax.
  assert (∀ r, r ∈ phase1_revisions (nAccounts fl) (kCommit fl) →
               r ∉ phase2_revisions (nAccounts fl) (mModify fl) (kCommit fl))
    as Hdisj.
  { intros r Hr1 Hr2.
    apply phase1_revisions_bound in Hr1 as [H1 H1']; [|lia|done].
    apply phase2_revisions_bound in Hr2; [|lia|done].
    nia. }
  split; [exact Hdisj|].
  intros env b s s1 s2 H1 H2. assert (0 < kCommit fl) as Hk' by lia.
  rewrite (phase1_commit_revisions _ _ _ _ _ Hk' H1).
  rewrite (phase2_commit_revisions _ _ _ _ _ Hk' H2).
  done.
Qed.

(** C5. For a batch size [k] of at least 1, the commits of a phase come
    exactly at the boundaries: in the log of phase 1 every account (one
    nonce each) is followed by a commit if and only if
    [(i+1) mod k = 0] or [i] is the last account, and that commit has
    revision [i / k]; the same holds for phase 2 with 500 slot writes
    per account and revision [i / k + 1000000]. With 237 accounts and
    [k = 50] the commits of phase 1 come after accounts 50, 100, 150,
    200 and 237, with revisions 0 to 4. *)
Theorem batch_boundaries env b fl s s1 s2 :
  1 ≤ kCommit fl → nAccounts fl ≤ int_max →
  phase1 env b fl s = (Val tt, s1) →
  phase2 env b fl s1 = (Val tt, s2) →
  schedule is_nonce (since s s1)
    = scheduled 1 (λ i, i `div` kCommit fl) (kCommit fl) (nAccounts fl) ∧
  schedule is_slot_write (since s1 s2)
    = scheduled 500 (λ i, i `div` kCommit fl + 1000000) (kCommit fl)
        (clamp_modify fl) ∧
  (nAccounts fl = 237 → kCommit fl = 50 →
   commit_revisions (since s s1) = [0; 1; 2; 3; 4] ∧
   schedule is_nonce (since s s1)
     = replicate 50 (inl ()) ++ [inr 0] ++ replicate 50 (inl ()) ++ [inr 1] ++
       replicate 50 (inl ()) ++ [inr 2] ++ replicate 50 (inl ()) ++ [inr 3] ++
       replicate 37 (inl ()) ++ [inr 4]).
Proof.
  intros Hk Hmax H1 H2. assert (0 < kCommit fl) as Hk' by lia.
  assert (schedule is_nonce (since s s1)
    = scheduled 1 (λ i, i `div` kCommit fl) (kCommit fl) (nAccounts fl)) as E1.
  { rewrite (phase1_schedule _ _ _ _ _ Hk' H1).
    apply scheduled_ext. intros i Hi. apply revision1_div; lia. }
  split; [exact E1|]. split.
  - rewrite (phase2_schedule _ _ _ _ _ Hk' H2).
    apply scheduled_ext. intros i Hi. pose proof (clamp_modify_le fl).
    rewrite revision2_div by lia. done.
  - intros Hn Hk50.
    rewrite (commit_revisions_schedule is_nonce), E1, Hn, Hk50.
    split; reflexivity.
Qed.

(** ** Panics of the draws *)

Lemma print_run l s : print l s = (Val tt, log (EPrint l) s).
Proof. reflexivity. Qed.

Lemma modify_run f s : modify f s = (Val tt, f s).
Proof. reflexivity. Qed.

Lemma gets_run {A} (f : State → A) s : gets f s = (Val (f s), s).
Proof. reflexivity. Qed.

Lemma make_addrs_run n s :
  0 ≤ n → 20 * n ≤ maxAlloc →
  make_addrs n s
  = (Val tt, with_addrs (λ _, replicate (Z.to_nat n) zeroAddress) s).
Proof. intros. unfold make_addrs. by case_decide; [lia|]. Qed.

Lemma make_addrs_panics n s :
  n < 0 ∨ maxAlloc < 20 * n →
  make_addrs n s = (Panicked "makeslice: len out of range", s).
Proof. intros. unfold make_addrs. by case_decide. Qed.

Lemma for_each_head_panics i l body s msg s1 :
  body i s = (Panicked msg, s1) →
  for_each (i :: l) body s = (Panicked msg, s1).
Proof. intros H. simpl. by rewrite (bind_Panicked_l _ _ _ _ _ H). Qed.

Lemma create_step_panics env b fl i s msg s1 :
  create_account b fl i s = (Panicked msg, s1) →
  create_step env b fl i s = (Panicked msg, s1).
Proof. intros H. unfold create_step. by rewrite (bind_Panicked_l _ _ _ _ _ H). Qed.

(** With a slot range that is not positive and at least one account,
    whose addresses can be allocated, phase 1 panics at the first
    draw, after the balance and the nonce of account 0 were set. *)
Lemma phase1_panics_at_first_draw env b fl s :
  slot_range fl ≤ 0 → 1 ≤ nAccounts fl → 20 * nAccounts fl ≤ maxAlloc →
  ∃ s', phase1 env b fl s = (Panicked "invalid argument to Intn", s') ∧
    out s' = out s ++
      [EPrint (LPhase1 (nAccounts fl) (nSlots fl) (kCommit fl));
       ESetBalance (account_addr 0) (10 ^ 18);
       ESetNonce (account_addr 0) (to_uint64 0)].
Proof.
  intros Hr Hn Hmem. unfold phase1. assert (0 ≤ nAccounts fl) as Hn0 by lia.
  mstep (print_run _ _). mstep (make_addrs_run _ _ Hn0 Hmem).
  do 3 mstep (modify_run _ _).
  unfold for_range. rewrite Z.sub_0_r, seqZ_cons by lia.
  lazymatch goal with |- ex (λ _, _ ?s0 = _ ∧ _) =>
    destruct (create_account_panics b fl 0 s0) as (s1 & H1 & Ho1 & _) end;
    [done| |done|].
  { simpl. rewrite length_replicate. lia. }
  apply (create_step_panics env), (for_each_head_panics _ (seqZ 1 (Z.pred (nAccounts fl)))) in H1.
  rewrite (bind_Panicked_l _ _ _ _ _ H1).
  exists s1. split; [done|]. rewrite Ho1. simpl. by rewrite <- app_assoc.
Qed.

(** With a number of accounts that is negative, or too large for their
    addresses to be allocated, phase 1 panics at line 67, before any
    call into the store. *)
Lemma phase1_panics_at_make env b fl s :
  nAccounts fl < 0 ∨ maxAlloc < 20 * nAccounts fl →
  phase1 env b fl s
  = (Panicked "makeslice: len out of range",
     log (EPrint (LPhase1 (nAccounts fl) (nSlots fl) (kCommit fl))) s).
Proof.
  intros Hn. unfold phase1. mstep (print_run _ _).
  by rewrite (bind_Panicked_l _ _ _ _ _ (make_addrs_panics _ _ Hn)).
Qed.

Lemma Perm_run n s :
  0 ≤ n → Perm n s = (Val (shuffle n (rng s)).1, with_rng (shuffle n (rng s)).2 s).
Proof. intros. unfold Perm. case_decide; [lia|]. by destruct (shuffle n (rng s)). Qed.

Lemma shuffle_lookup n r (i : nat) :
  (Z.of_nat i < n) →
  ∃ idx, (shuffle n r).1 !! i = Some idx ∧ 0 ≤ idx < n.
Proof.
  intros Hi. pose proof (shuffle_perm n r ltac:(lia)) as Hp.
  destruct (lookup_lt_is_Some_2 (shuffle n r).1 i) as [idx Hidx].
  { rewrite Hp, length_seqZ. lia. }
  exists idx. split; [done|].
  apply list_elem_of_lookup_2 in Hidx. rewrite Hp in Hidx.
  apply elem_of_seqZ in Hidx. lia.
Qed.

Lemma modify_account_panics b fl perm i idx addr s :
  0 ≤ i → perm !! Z.to_nat i = Some idx → 0 ≤ idx →
  addrs s !! Z.to_nat idx = Some addr → nSlots fl ≤ 0 →
  ∃ s', modify_account b fl perm i s = (Panicked "invalid argument to Intn", s') ∧
        out s' = out s ∧ same_vars s s'.
Proof.
  intros Hi Hp Hidx Ha Hn. unfold modify_account.
  mstep (index_lookup perm i _ idx Hi Hp).
  mstep (gets_run _ _).
  mstep (index_lookup (addrs s) idx _ addr Hidx Ha).
  destruct (modify_slot_panics b fl idx addr 0 s Hn) as (s1 & H1 & Ho1 & Hv1).
  exists s1. split; [|done].
  unfold for_range, slotsToModifyPerAccount. rewrite seqZ_cons by lia.
  by apply for_each_head_panics.
Qed.

Lemma modify_step_panics env b fl m perm i s msg s1 :
  modify_account b fl perm i s = (Panicked msg, s1) →
  modify_step env b fl m perm i s = (Panicked msg, s1).
Proof. intros H. unfold modify_step. by rewrite (bind_Panicked_l _ _ _ _ _ H). Qed.

Lemma reset_total_run b s :
  ∃ s1, match b with Pebble => modify (with_total 0) | LevelDB => mret tt end s
        = (Val tt, s1) ∧
    out s1 = out s ∧ rng s1 = rng s ∧ same_vars s s1 ∧ statedb s1 = statedb s.
Proof. destruct b; eexists; (split; [reflexivity|done]). Qed.

(** Entered with a slot count that is not positive, with at least one
    account to modify, phase 2 panics at its first draw, before any
    mutation. *)
Lemma phase2_panics_at_first_draw env b fl s :
  nSlots fl ≤ 0 → 1 ≤ clamp_modify fl →
  length (addrs s) = Z.to_nat (nAccounts fl) →
  ∃ s', phase2 env b fl s = (Panicked "invalid argument to Intn", s') ∧
    out s' = out s ++ [EPrint (LPhase2 (clamp_modify fl) (kCommit fl))].
Proof.
  intros Hslots Hm Hlen. pose proof (clamp_modify_le fl) as Hle.
  assert (0 ≤ nAccounts fl) as Hn0 by lia.
  unfold phase2. mstep (print_run _ _).
  lazymatch goal with |- ex (λ _, _ ?s0 = _ ∧ _) =>
    destruct (reset_total_run b s0) as (s1 & H1 & Ho1 & Hr1 & [Ha1 Hc1] & _) end.
  mstep H1. mstep (modify_run _ _). mstep (Perm_run _ _ Hn0).
  unfold for_range. rewrite Z.sub_0_r, seqZ_cons by lia.
  lazymatch goal with |- ex (λ _, (for_each _ (modify_step _ _ _ _ ?p) ≫= _) ?s0 = _ ∧ _) =>
    destruct (shuffle_lookup (nAccounts fl) (NewSource (unixNano env)) 0)
      as (idx & Hidx & Hrange); [lia|];
    destruct (lookup_lt_is_Some_2 (addrs s0) (Z.to_nat idx)) as [addr Haddr];
    [simpl; rewrite Ha1; simpl; lia|];
    destruct (modify_account_panics b fl p 0 idx addr s0) as (s2 & H2 & Ho2 & _);
    [lia|exact Hidx|lia|exact Haddr|done|]
  end.
  apply (modify_step_panics env _ _ (clamp_modify fl)),
    (for_each_head_panics _ (seqZ 1 (Z.pred (clamp_modify fl)))) in H2.
  rewrite (bind_Panicked_l _ _ _ _ _ H2).
  exists s2. split; [done|]. rewrite Ho2. simpl. by rewrite Ho1.
Qed.

Lemma main_opened env b fl st :
  OpenStore b (dbPath fl) (clearDB fl) = inr st →
  main env b fl =
    ((phases env b fl (init_state b fl st)).1,
     out (phases env b fl (init_state b fl st)).2,
     Some (phases env b fl (init_state b fl st)).2).
Proof.
  intros H. unfold main. rewrite H.
  by destruct (phases env b fl (init_state b fl st)).
Qed.

(** ** The claims about panics *)

(** C3. With [slots = 0] and at least one account the run does not
    proceed: the draw [Intn(0)] of the slot count of account 0 panics,
    after the balance and the nonce of that account were set and before
    any commit. The number of accounts is one whose addresses line 67
    can allocate (20 bytes each, at most [maxAlloc]); beyond that the
    run panics earlier, at the allocation. *)
Theorem zero_slots_panics_in_phase1 env b fl st :
  nSlots fl = 0 → 1 ≤ nAccounts fl → 20 * nAccounts fl ≤ maxAlloc →
  OpenStore b (dbPath fl) (clearDB fl) = inr st →
  ∃ s', main env b fl = (Panicked "invalid argument to Intn", out s', Some s') ∧
    out s' = prologue b fl ++
      [EPrint LInitTrieDB;
       EPrint (LPhase1 (nAccounts fl) 0 (kCommit fl));
       ESetBalance (account_addr 0) (10 ^ 18);
       ESetNonce (account_addr 0) 0].
Proof.
  intros Hslots Hn Hmem Hopen. rewrite (main_opened _ _ _ _ Hopen).
  destruct (phase1_panics_at_first_draw env b fl (init_state b fl st))
    as (s1 & H1 & Ho1); [|done|done|].
  { unfold slot_range. rewrite Hslots. done. }
  unfold phases. rewrite (bind_Panicked_l _ _ _ _ _ H1). simpl.
  exists s1. split; [done|]. rewrite Ho1, Hslots. simpl. by rewrite <- app_assoc.
Qed.

(** C10 (as amended). Entered with [slots = 0], a clamped [m] of at
    least 1 and the addresses of phase 1, phase 2 panics at its first
    slot-index draw, before any mutation. No run of [main] gets there:
    with [slots = 0] and at least one account the run panics in
    phase 1, before the first line of phase 2; with no account, [m] is
    clamped to 0 and phase 2 runs to its end without a mutation; with a
    negative [n], or one whose addresses are too large to allocate,
    phase 1 panics when it allocates the addresses. *)
Theorem zero_slots_phase2 env b fl :
  nSlots fl = 0 →
  (∀ s, 1 ≤ clamp_modify fl → length (addrs s) = Z.to_nat (nAccounts fl) →
     ∃ s', phase2 env b fl s = (Panicked "invalid argument to Intn", s') ∧
       since s s' = [EPrint (LPhase2 (clamp_modify fl) (kCommit fl))]) ∧
  (∀ s, 1 ≤ nAccounts fl → 20 * nAccounts fl ≤ maxAlloc →
     ∃ s', phases env b fl s = (Panicked "invalid argument to Intn", s') ∧
       since s s' = [EPrint (LPhase1 (nAccounts fl) 0 (kCommit fl));
                     ESetBalance (account_addr 0) (10 ^ 18);
                     ESetNonce (account_addr 0) 0]) ∧
  (∀ s, nAccounts fl = 0 →
     ∃ s', phase2 env b fl s = (Val tt, s') ∧ mutations (since s s') = []) ∧
  (∀ s, nAccounts fl < 0 ∨ maxAlloc < 20 * nAccounts fl →
     ∃ s', phases env b fl s = (Panicked "makeslice: len out of range", s') ∧
       since s s' = [EPrint (LPhase1 (nAccounts fl) 0 (kCommit fl))]).
Proof.
  intros Hslots. split_and!.
  - intros s Hm Hlen.
    destruct (phase2_panics_at_first_draw env b fl s) as (s' & H & Ho);
      [lia|done..|].
    exists s'. split; [done|]. by apply since_app.
  - intros s Hn Hmem.
    destruct (phase1_panics_at_first_draw env b fl s) as (s1 & H1 & Ho1);
      [|done|done|].
    { unfold slot_range. by rewrite Hslots. }
    unfold phases. rewrite (bind_Panicked_l _ _ _ _ _ H1).
    exists s1. split; [done|]. apply since_app. by rewrite Ho1, Hslots.
  - intros s Hn. unfold phase2.
    assert (clamp_modify fl ≤ 0) as Hm.
    { pose proof (clamp_modify_le fl). lia. }
    mstep (print_run _ _).
    lazymatch goal with |- ex (λ _, _ ?s0 = _ ∧ _) =>
      destruct (reset_total_run b s0) as (s1 & H1 & Ho1 & _) end.
    mstep H1. mstep (modify_run _ _).
    assert (0 ≤ nAccounts fl) as Hn0 by lia. mstep (Perm_run _ _ Hn0).
    unfold for_range. rewrite seqZ_nil by lia. simpl for_each.
    rewrite bind_run. simpl.
    destruct b; (eexists; split; [reflexivity|]);
      (erewrite since_app; [|simpl; rewrite Ho1; simpl; rewrite <- ?app_assoc; reflexivity]);
      done.
  - intros s Hn. unfold phases.
    eexists. split.
    + apply bind_Panicked_l, phase1_panics_at_make, Hn.
    + apply since_app. simpl. by rewrite Hslots.
Qed.

(** ** The mutations of phase 1 *)

Lemma mutations_app tr1 tr2 :
  mutations (tr1 ++ tr2) = mutations tr1 ++ mutations tr2.
Proof. apply filter_app. Qed.

Lemma mutations_prints (ls : list Line) : mutations (EPrint <$> ls) = [].
Proof. by induction ls. Qed.

Lemma mutations_progress line total i :
  mutations (progress_events line total i) = [].
Proof. unfold progress_events. by case_decide. Qed.

Lemma mutations_all tr :
  Forall (λ e, is_mutation e = true) tr → mutations tr = tr.
Proof.
  induction 1 as [|e tr He _ IH]; [done|].
  unfold mutations in *. rewrite filter_cons, decide_True by done. by rewrite IH.
Qed.

Lemma Forall_imap {X Y} (P : Y → Prop) (g : nat → X → Y) l :
  (∀ j x, P (g j x)) → Forall P (imap g l).
Proof.
  intros Hg. revert g Hg. induction l as [|x l IH]; intros g Hg; simpl;
    constructor; [apply Hg|]. apply IH. intros. apply Hg.
Qed.

Lemma mutations_account_events b i vs :
  mutations (account_events b i vs) = account_events b i vs.
Proof.
  apply mutations_all. unfold account_events.
  do 2 (constructor; [done|]). by apply Forall_imap.
Qed.

Lemma mutations_unit_trace body line rev k total i tr :
  unit_trace body line rev k total i tr → mutations tr = mutations body.
Proof.
  intros (cut & -> & Hcut). rewrite !mutations_app, mutations_progress.
  case_bool_decide.
  - destruct Hcut as (root & batch & ->). simpl. by rewrite app_nil_r.
  - subst cut. by rewrite app_nil_r.
Qed.

Lemma closing_mutations line rev k total i s s' :
  closing line rev k total i s s' →
  ∃ tr, out s' = out s ++ tr ∧ mutations tr = [] ∧ rng s' = rng s ∧
        addrs s' = addrs s.
Proof.
  intros Hc. destruct (closing_trace line rev k total i s s s' [])
    as (tr & Ho & Htr); [by rewrite app_nil_r|done|].
  exists tr. split; [done|]. split; [by apply mutations_unit_trace in Htr|].
  by destruct Hc as (_ & ? & ? & _).
Qed.

Lemma steps_created_mutations b fl l s s' :
  steps (created b fl) l s s' →
  ∃ tr, out s' = out s ++ tr ∧
    mutations tr = concat (zip_with (account_events b) l
        (gen_accounts (length l) (slot_range fl) (rng s)).1) ∧
    rng s' = (gen_accounts (length l) (slot_range fl) (rng s)).2.
Proof.
  induction 1 as [s|i l s s1 s2 Hb _ (tr & Ho & Hm & Hr)].
  - exists []. simpl. by rewrite app_nil_r.
  - destruct Hb as (sa & _ & _ & _ & (Hoa & Hra & _) & Hc).
    apply closing_mutations in Hc as (trc & Hoc & Hmc & Hrc & _).
    simpl. rewrite Hrc, Hra in Hm, Hr.
    destruct (gen_account (slot_range fl) (rng s)) as [vs r1]; simpl in *.
    destruct (gen_accounts (length l) (slot_range fl) r1) as [vss r2]; simpl in *.
    eexists. split; [|split; [|done]].
    + rewrite Ho, Hoc, Hoa, <- !app_assoc. reflexivity.
    + rewrite !mutations_app, Hmc, Hm, mutations_account_events. done.
Qed.

(** The mutations of phase 1, when it ran to its end, are those of the
    generator seeded with 42. *)
Lemma phase1_mutations env b fl s s1 :
  phase1 env b fl s = (Val tt, s1) →
  mutations (since s s1) = gen_phase1 b (nAccounts fl) (slot_range fl).
Proof.
  intros (s0 & s' & (Hn & Ho0 & Hr0 & _) & Hsteps & (ls & Ho1 & _))%phase1_Val.
  apply steps_created_mutations in Hsteps as (tr & Ho & Hm & _).
  rewrite (since_app s s1 ([EPrint (LPhase1 (nAccounts fl) (nSlots fl) (kCommit fl))]
                           ++ tr ++ (EPrint <$> ls))).
  2: { rewrite Ho1, Ho, Ho0, <- !app_assoc. done. }
  rewrite !mutations_app, mutations_prints, Hm, app_nil_r. simpl.
  by rewrite length_seqZ, Hr0.
Qed.

Lemma slot_key_labelled b i j : slot_key b i j = labelled_key b i j.
Proof. by destruct b. Qed.

Lemma account_events_labelled b i vs :
  account_events b i vs = labelled_account_events b i vs.
Proof.
  unfold account_events, labelled_account_events. do 2 f_equal.
  apply imap_ext. intros. by rewrite slot_key_labelled.
Qed.

Lemma gen_accounts_length n range r :
  length (gen_accounts n range r).1 = n.
Proof.
  revert r. induction n as [|n IH]; intros r; simpl; [done|].
  destruct (gen_account range r) as [vs r1]. specialize (IH r1).
  destruct (gen_accounts n range r1). simpl in *. by rewrite IH.
Qed.

(** ** The claims about the generator of phase 1 *)

(** C2 (as amended). In a phase 1 that runs to its end, the mutations
    are, account after account, the balance, the nonce and then one
    slot write per generated slot [j], whose key is the digest of the
    label ["<prefix>-<i>-slot-<j>"]; the prefix is ["account"] in the
    LevelDB build and ["acc"] in the Pebble build. *)
Theorem slot_keys_are_labelled env b fl s s1 :
  phase1 env b fl s = (Val tt, s1) →
  ∃ vss : list (list Hash),
    length vss = Z.to_nat (nAccounts fl) ∧
    mutations (since s s1)
      = concat (zip_with (labelled_account_events b) (seqZ 0 (nAccounts fl)) vss) ∧
    (∀ i j, labelled_key b i j =
       BytesToHash (Keccak256 (label_bytes
         (match b with Pebble => "acc" | LevelDB => "account" end
          +:+ "-" +:+ pretty i +:+ "-slot-" +:+ pretty j)))) ∧
    (∀ i j, slot_key LevelDB i j =
       BytesToHash (Keccak256 (label_bytes
         ("account-" +:+ pretty i +:+ "-slot-" +:+ pretty j)))).
Proof.
  intros H. exists (gen_accounts (Z.to_nat (nAccounts fl)) (slot_range fl)
                      (NewSource 42)).1.
  split_and!.
  - apply gen_accounts_length.
  - rewrite (phase1_mutations _ _ _ _ _ H). unfold gen_phase1. f_equal.
    generalize (gen_accounts (Z.to_nat (nAccounts fl)) (slot_range fl)
                  (NewSource 42)).1.
    induction (seqZ 0 (nAccounts fl)) as [|i l IH]; intros [|vs vss]; simpl;
      [done..|]. by rewrite IH, account_events_labelled.
  - by destruct b.
  - done.
Qed.

(** C8. The value of a slot of phase 1 is decided by one draw [d] from
    [[0, 100)]: zero below 20, the word whose last byte alone is 1 from
    20 to 29, and 32 bytes read from the source otherwise; these are
    20, 10 and 70 of the 100 draws. The slot values of a phase 1 that
    runs to its end are generated this way, in order, from the source
    seeded with 42. *)
Theorem slot_value_policy :
  (∀ s, let d := (draw 100 (rng s)).1 in
        let r1 := (draw 100 (rng s)).2 in
        0 ≤ d < 100 ∧
        slot_value s =
          match value_kind d with
          | AllZero => (Val (replicate 32 Byte.x00), with_rng r1 s)
          | SmallValue => (Val (replicate 31 Byte.x00 ++ [Byte.x01]), with_rng r1 s)
          | RandomWord => (Val (fill 32 r1).1, with_rng (fill 32 r1).2 s)
          end) ∧
  (∀ d, value_kind d = AllZero ↔ d < 20) ∧
  (∀ d, value_kind d = SmallValue ↔ 20 ≤ d < 30) ∧
  (∀ d, value_kind d = RandomWord ↔ 30 ≤ d) ∧
  length (filter (λ d, value_kind d = AllZero) (seqZ 0 100)) = 20%nat ∧
  length (filter (λ d, value_kind d = SmallValue) (seqZ 0 100)) = 10%nat ∧
  length (filter (λ d, value_kind d = RandomWord) (seqZ 0 100)) = 70%nat ∧
  (∀ b i addr j s, ∃ s',
     create_slot b i addr j s = (Val tt, s') ∧
     since s s' = [ESetState addr (slot_key b i j) (gen_value (rng s)).1] ∧
     (Val (gen_value (rng s)).1, with_rng (gen_value (rng s)).2 s) = slot_value s) ∧
  (∀ env b fl s s1,
     phase1 env b fl s = (Val tt, s1) →
     mutations (since s s1) = gen_phase1 b (nAccounts fl) (slot_range fl)).
Proof.
  split_and!.
  - intros s d r1. split; [apply draw_range; lia|].
    rewrite slot_value_run. unfold gen_value. subst d r1.
    destruct (draw 100 (rng s)) as [d r1]; simpl.
    destruct (value_kind d); [done..|]. by destruct (fill 32 r1).
  - intros d. unfold value_kind. repeat case_decide; split; (done || lia).
  - intros d. unfold value_kind. repeat case_decide; split; (done || lia).
  - intros d. unfold value_kind. repeat case_decide; split; (done || lia).
  - reflexivity.
  - reflexivity.
  - reflexivity.
  - intros b i addr j s.
    destruct (create_slot_run b i addr j s) as (s' & H & Ho & _).
    exists s'. split; [done|]. split; [by apply since_app|].
    by rewrite slot_value_run.
  - intros env b fl s s1 H. by eapply phase1_mutations.
Qed.

(** ** The addresses after phase 1 *)

Lemma steps_created_addrs b fl (n : nat) lo s s' pre post :
  steps (created b fl) (seqZ lo (Z.of_nat n)) s s' →
  addrs s = pre ++ post → Z.of_nat (length pre) = lo → length post = n →
  addrs s' = pre ++ (account_addr <$> seqZ lo (Z.of_nat n)).
Proof.
  revert lo s pre post. induction n as [|n IH]; intros lo s pre post Hs Ha Hpre Hpost.
  - inversion Hs; subst. destruct post; [|done]. by rewrite Ha.
  - rewrite seqZ_cons in Hs |- * by lia.
    replace (Z.pred (Z.of_nat (S n))) with (Z.of_nat n) in * by lia.
    inversion Hs as [|i l s0 s1 s2 Hb Hl]; subst.
    destruct Hb as (sa & _ & _ & _ & (_ & _ & Haa & _) & (_ & _ & Hac & _)).
    destruct post as [|z post]; [done|].
    rewrite fmap_cons, (cons_middle _ pre), app_assoc.
    apply (IH _ _ _ post Hl).
    + rewrite Hac, Haa, Ha, Nat2Z.id.
      rewrite insert_app_r_alt by lia. rewrite Nat.sub_diag. simpl.
      by rewrite <- app_assoc.
    + rewrite length_app. simpl. lia.
    + simpl in Hpost. lia.
Qed.

Lemma seqZ_to_nat lo n : seqZ lo n = seqZ lo (Z.of_nat (Z.to_nat n)).
Proof. unfold seqZ. by rewrite Nat2Z.id. Qed.

(** After a phase 1 that ran to its end, [addrs] holds the addresses of
    the accounts 0 to [n-1], in order. *)
Lemma phase1_addrs env b fl s s1 :
  phase1 env b fl s = (Val tt, s1) →
  addrs s1 = account_addr <$> seqZ 0 (nAccounts fl).
Proof.
  intros (s0 & s' & (Hn & _ & _ & Ha0 & _) & Hsteps & (ls & _ & _ & _ & [Ha _] & _))%phase1_Val.
  rewrite Ha. rewrite seqZ_to_nat in Hsteps |- *.
  apply (steps_created_addrs b fl _ 0 s0 s' [] (addrs s0)); [done..|].
  by rewrite Ha0, length_replicate.
Qed.

(** ** The mutations of phase 2 *)

Lemma mutations_gen_modifications n b slots idx addr r :
  mutations (gen_modifications n b slots idx addr r).1
  = (gen_modifications n b slots idx addr r).1.
Proof.
  apply mutations_all. revert r. induction n as [|n IH]; intros r; simpl; [done|].
  unfold gen_modification at 1.
  destruct (draw slots r) as [x r1]. destruct (fill 32 r1) as [v r2].
  specialize (IH r2). destruct (gen_modifications n b slots idx addr r2).
  simpl in *. by constructor.
Qed.

(** The events of [n] modifications of one account are [n] slot writes,
    each with a slot index below [slots] and a word of 32 bytes. *)
Lemma gen_modifications_shape n b slots idx addr r :
  0 < slots →
  ∃ g : list (Z * Hash),
    length g = n ∧
    Forall (λ p, 0 ≤ p.1 < slots ∧ length p.2 = 32%nat) g ∧
    (gen_modifications n b slots idx addr r).1
    = (λ p, ESetState addr (slot_key b idx p.1) p.2) <$> g.
Proof.
  intros Hs. revert r. induction n as [|n IH]; intros r.
  - exists []. done.
  - cbn [gen_modifications]. unfold gen_modification.
    pose proof (draw_range slots r Hs) as Hd.
    destruct (draw slots r) as [x r1].
    pose proof (fill_length 32 r1) as Hf.
    destruct (fill 32 r1) as [v r2].
    destruct (IH r2) as (g & Hlen & Hall & Hg).
    destruct (gen_modifications n b slots idx addr r2) as [es r3].
    simpl in *. exists ((x, v) :: g). simpl.
    split_and!; [by rewrite Hlen|by constructor|by rewrite Hg].
Qed.

#[local] Arguments gen_modifications : simpl never.

Lemma steps_modified_mutations b fl m perm n (cnt : nat) lo s s' :
  steps (modified b fl m perm) (seqZ lo (Z.of_nat cnt)) s s' →
  0 ≤ lo → addrs s = account_addr <$> seqZ 0 n →
  ∃ tr, out s' = out s ++ tr ∧
    mutations tr = (gen_modified b (nSlots fl)
                      (take cnt (drop (Z.to_nat lo) perm)) (rng s)).1 ∧
    rng s' = (gen_modified b (nSlots fl)
                (take cnt (drop (Z.to_nat lo) perm)) (rng s)).2 ∧
    addrs s' = addrs s.
Proof.
  revert lo s. induction cnt as [|cnt IH]; intros lo s Hs Hlo Ha.
  - inversion Hs; subst. exists []. simpl. by rewrite app_nil_r.
  - rewrite seqZ_cons in Hs by lia.
    replace (Z.pred (Z.of_nat (S cnt))) with (Z.of_nat cnt) in * by lia.
    inversion Hs as [|i l s0 s1 s2 Hb Hl]; subst.
    destruct Hb as (sa & (idx & addr & _ & Hp & Hidx & Haddr & _ & Hoa & Hra & Haa & _) & Hc).
    apply closing_mutations in Hc as (trc & Hoc & Hmc & Hrc & Hac).
    destruct (IH (Z.succ lo) s1 Hl) as (tr & Ho & Hm & Hr & Ha'); [lia|congruence|].
    assert (addr = account_addr idx) as ->.
    { rewrite Ha, list_lookup_fmap in Haddr.
      destruct (seqZ 0 n !! Z.to_nat idx) as [x|] eqn:Hx; [|done].
      apply lookup_seqZ in Hx as [-> _]. simpl in Haddr.
      injection Haddr as <-. f_equal. lia. }
    rewrite (drop_S _ _ _ Hp). simpl.
    replace (Z.to_nat (Z.succ lo)) with (S (Z.to_nat lo)) in * by lia.
    rewrite Hrc, Hra in Hm, Hr.
    destruct (gen_modifications 500 b (nSlots fl) idx (account_addr idx) (rng s))
      as [es r1] eqn:Hg; simpl in *.
    destruct (gen_modified b (nSlots fl) (take cnt (drop (S (Z.to_nat lo)) perm)) r1)
      as [ess r2]; simpl in *.
    eexists. split_and!; [|..|done| congruence].
    + rewrite Ho, Hoc, Hoa, <- !app_assoc. reflexivity.
    + rewrite !mutations_app, Hmc, Hm. simpl.
      pose proof (mutations_gen_modifications 500 b (nSlots fl) idx
                    (account_addr idx) (rng s)) as Hmg.
      rewrite Hg in Hmg. simpl in Hmg. by rewrite Hmg.
Qed.

(** The mutations of phase 2, when both phases ran to their end, are
    those of the generator seeded with the clock. *)
Lemma phase2_mutations env b fl s s1 s2 :
  phase1 env b fl s = (Val tt, s1) →
  phase2 env b fl s1 = (Val tt, s2) →
  mutations (since s1 s2)
  = gen_phase2 b (nAccounts fl) (nSlots fl) (clamp_modify fl)
      (NewSource (unixNano env)).
Proof.
  intros Ha%phase1_addrs
    (perm & s0 & s' & (Hn & Ho0 & Hsh & [Ha0 _] & _) & Hsteps & (ls & Ho1 & _))%phase2_Val.
  rewrite seqZ_to_nat in Hsteps.
  apply (steps_modified_mutations _ _ _ _ (nAccounts fl)) in Hsteps
    as (tr & Ho & Hm & _); [|done|congruence].
  rewrite (since_app s1 s2 ([EPrint (LPhase2 (clamp_modify fl) (kCommit fl))]
                            ++ tr ++ (EPrint <$> ls))).
  2: { rewrite Ho1, Ho, Ho0, <- !app_assoc. done. }
  rewrite !mutations_app, mutations_prints, Hm, app_nil_r. simpl.
  unfold gen_phase2. rewrite Hsh. by rewrite drop_0.
Qed.

Lemma gen_modified_shape b slots idxs r :
  (idxs ≠ [] → 0 < slots) →
  ∃ groups : list (list (Z * Hash)),
    length groups = length idxs ∧
    Forall (λ g, length g = 500%nat ∧
                 Forall (λ p, 0 ≤ p.1 < slots ∧ length p.2 = 32%nat) g) groups ∧
    (gen_modified b slots idxs r).1
    = concat (zip_with
        (λ idx g, (λ p, ESetState (account_addr idx) (slot_key b idx p.1) p.2) <$> g)
        idxs groups).
Proof.
  intros Hs. revert r. induction idxs as [|idx idxs IH]; intros r.
  - exists []. done.
  - cbn [gen_modified].
    destruct (gen_modifications_shape 500 b slots idx (account_addr idx) r)
      as (g & Hlen & Hall & Hg); [by apply Hs|].
    destruct (gen_modifications 500 b slots idx (account_addr idx) r) as [es r1].
    destruct (IH ltac:(intros; by apply Hs) r1) as (groups & Hlens & Halls & Hgs).
    destruct (gen_modified b slots idxs r1) as [ess r2].
    simpl in *. exists (g :: groups). simpl.
    split_and!; [by rewrite Hlens|by constructor|by rewrite Hg, Hgs].
Qed.

(** ** The claim about the generator of phase 2 *)

(** Lines 137-139 assign to [*mModify]: the flags after the
    assignment. *)
Definition with_mModify (m : Z) (fl : Flags) : Flags :=
  {| nAccounts := nAccounts fl; nSlots := nSlots fl; mModify := m;
     kCommit := kCommit fl; dbPath := dbPath fl; clearDB := clearDB fl |}.

(** C7. [m] is clamped to at most [n]: phase 2 works with the smaller
    of [m] and [n], and a run asked to modify more accounts than there
    are goes, from any point, as the run asked to modify all of them.
    In a run that reaches the end of phase 2, the mutations of phase 2
    are those of the generator described for it: a permutation of all
    [n] account indices is drawn (from the source seeded with the
    clock), and for each of its first [min m n] indices there are
    exactly 500 slot writes to that account, each with the key of a
    slot index drawn from [[0, slots)] and a value of 32 bytes read
    from the source; the value policy of phase 1 plays no part. *)
Theorem modification_generator env b fl :
  let n := nAccounts fl in
  let m := Z.min (mModify fl) n in
  clamp_modify fl = m ∧
  (∀ s, phase2 env b fl s = phase2 env b (with_mModify m fl) s) ∧
  ∀ s s1 s2,
    phase1 env b fl s = (Val tt, s1) →
    phase2 env b fl s1 = (Val tt, s2) →
    let perm := (shuffle n (NewSource (unixNano env))).1 in
    perm ≡ₚ seqZ 0 n ∧
    mutations (since s1 s2)
      = gen_phase2 b n (nSlots fl) m (NewSource (unixNano env)) ∧
    ∃ groups : list (list (Z * Hash)),
      length groups = Z.to_nat m ∧
      Forall (λ g, length g = 500%nat ∧
                   Forall (λ p, 0 ≤ p.1 < nSlots fl ∧ length p.2 = 32%nat) g)
             groups ∧
      mutations (since s1 s2)
      = concat (zip_with
          (λ idx g, (λ p, ESetState (account_addr idx) (slot_key b idx p.1) p.2) <$> g)
          (take (Z.to_nat m) perm) groups).
Proof.
  intros n m.
  assert (clamp_modify fl = m) as Hm.
  { subst n m. unfold clamp_modify. case_decide; lia. }
  assert (m ≤ n) as Hle by (subst m; lia).
  split; [exact Hm|]. split.
  { intros s.
    assert (clamp_modify (with_mModify m fl) = m) as Hm'.
    { unfold clamp_modify. simpl. fold n. case_decide; lia. }
    unfold phase2. rewrite Hm, Hm'. reflexivity. }
  intros s s1 s2 H1 H2 perm.
  pose proof (phase2_mutations _ _ _ _ _ _ H1 H2) as Hmut.
  pose proof H2 as (perm' & s0 & s' & (Hn & _ & Hsh & _) & Hsteps & _)%phase2_Val.
  rewrite Hm in Hmut, Hsteps. fold n in Hmut, Hn.
  assert (perm ≡ₚ seqZ 0 n) as Hperm by by apply shuffle_perm.
  split_and!.
  - done.
  - done.
  - destruct (gen_modified_shape b (nSlots fl) (take (Z.to_nat m) perm)
                (shuffle n (NewSource (unixNano env))).2)
      as (groups & Hlen & Hall & Hg).
    { intros Hne. destruct (decide (1 ≤ m)) as [Hm1|Hm1].
      - rewrite seqZ_cons in Hsteps by lia.
        inversion Hsteps as [|i l sa sb sc Hb Hl]; subst.
        by destruct Hb as (_ & (_ & _ & _ & _ & _ & _ & ? & _) & _).
      - replace (Z.to_nat m) with 0%nat in Hne by lia. done. }
    exists groups. split_and!; [|done|].
    + rewrite Hlen, length_take, Hperm, length_seqZ. lia.
    + rewrite Hmut, <- Hg. unfold gen_phase2. subst perm.
      by destruct (shuffle n (NewSource (unixNano env))).
Qed.

(** ** A turn of a loop, however it ends *)

Lemma index_panics {A} (l : list A) i s :
  i < 0 ∨ l !! Z.to_nat i = None →
  index l i s = (Panicked "index out of range", s).
Proof.
  intros H. unfold index. case_decide; [|done].
  destruct H as [?| ->]; [lia|done].
Qed.

Lemma store_addr_panics i a s :
  ¬ (0 ≤ i ∧ (Z.to_nat i < length (addrs s))%nat) →
  store_addr i a s = (Panicked "index out of range", s).
Proof.
  intros H. unfold store_addr. mstep (gets_run _ _).
  assert (i < 0 ∨ addrs s !! Z.to_nat i = None) as Hi.
  { destruct (decide (i < 0)); [by left|right]. apply lookup_ge_None. lia. }
  by rewrite (bind_Panicked_l _ _ _ _ _ (index_panics (addrs s) i s Hi)).
Qed.

(** How a turn of a loop can end. The events [evs] of its mutations
    and of its progress line satisfy [Pq]; then either it panicked
    along the way, or it fell through without a commit, or it went
    into the commit of revision [rev]. [keep] tells whether the turn
    leaves [addrs] alone. *)
Definition step_any (keep : bool) (Pq : Event → Prop) (rev : Z)
    (lineS lineT : string → Line) (s : State) (o : Outcome unit) (s' : State)
    : Prop :=
  ∃ sa evs, out sa = out s ++ evs ∧ Forall Pq evs ∧
    currentRoot sa = currentRoot s ∧
    (keep = true → addrs sa = addrs s) ∧
    ((∃ msg, o = Panicked msg ∧ s' = sa) ∨
     (o = Val tt ∧ s' = sa) ∨
     commit_outcome rev lineS lineT sa o s').

(** The events of a turn of phase 1 before its commit. *)
Definition creation_event (e : Event) : Prop :=
  is_mutation e = true ∨ ∃ d t, e = EPrint (LProcessed d t).

Lemma Forall_account_events b i vs :
  Forall creation_event (account_events b i vs).
Proof.
  unfold account_events. do 2 (constructor; [by left|]).
  apply Forall_imap. intros. by left.
Qed.

Lemma Forall_progress_events (P : Event → Prop) line total i :
  P (EPrint (line (i + 1) total)) → Forall P (progress_events line total i).
Proof. intros. unfold progress_events. case_decide; by repeat constructor. Qed.

Lemma at_boundary_panics total i s :
  at_boundary 0 total i s = (Panicked "integer divide by zero", s).
Proof. reflexivity. Qed.

(** From the state [sa] after the mutations, the rest of a turn. *)
Lemma closing_any (keep : bool) (Pq : Event → Prop) line lineS lineT rev
    (commit : M unit) k total i s sa evs :
  out sa = out s ++ evs → Forall Pq evs → currentRoot sa = currentRoot s →
  (keep = true → addrs sa = addrs s) →
  Pq (EPrint (line (i + 1) total)) →
  (∀ s0, commit_outcome rev lineS lineT s0 (commit s0).1 (commit s0).2) →
  let rest := (progress line total i;;
               cut ← at_boundary k total i;
               if cut : bool then commit else mret tt) in
  step_any keep Pq rev lineS lineT s (rest sa).1 (rest sa).2.
Proof.
  intros Ho Hevs Hc Ha Hline Hcommit rest. subst rest.
  destruct (progress_run line total i sa) as (s2 & H2 & Ho2 & Hr2 & Ha2 & Hc2).
  mstep H2.
  exists s2, (evs ++ progress_events line total i).
  split_and!.
  - by rewrite Ho2, Ho, <- app_assoc.
  - apply Forall_app. split; [done|]. by apply Forall_progress_events.
  - congruence.
  - intros Hk. rewrite Ha2. by apply Ha.
  - destruct (decide (k = 0)) as [->|Hk].
    + rewrite (bind_Panicked_l _ _ _ _ _ (at_boundary_panics total i s2)).
      left. eauto.
    + mstep (at_boundary_run k total i s2 Hk).
      case_bool_decide.
      * right; right. apply Hcommit.
      * right; left. done.
Qed.

Lemma create_account_no_index b fl i s :
  ¬ (0 ≤ i ∧ (Z.to_nat i < length (addrs s))%nat) →
  create_account b fl i s = (Panicked "index out of range", s).
Proof.
  intros Hi. unfold create_account.
  by rewrite (bind_Panicked_l _ _ _ _ _ (store_addr_panics i _ s Hi)).
Qed.

Lemma create_step_any env b fl i s :
  step_any false creation_event (revision1 (kCommit fl) i)
    LCommitStateFailed LCommitTrieFailed
    s (create_step env b fl i s).1 (create_step env b fl i s).2.
Proof.
  unfold create_step.
  destruct (decide (0 ≤ i ∧ (Z.to_nat i < length (addrs s))%nat)) as [[Hi Hlt]|Hi].
  2: { rewrite !(bind_Panicked_l _ _ _ _ _ (create_account_no_index b fl i s Hi)).
       exists s, []. rewrite app_nil_r. split_and!; [done..|]. left. eauto. }
  destruct (decide (0 < slot_range fl)) as [Hr|Hr].
  - destruct (create_account_run b fl i s Hi Hlt Hr) as (sa & Ha & Ho & _ & _ & Hc).
    mstep Ha.
    apply (closing_any false creation_event LProcessed _ _ _
             (commit_created env fl i) _ _ _ s sa _ Ho); try done.
    + apply Forall_account_events.
    + right. eauto.
    + apply commit_created_outcome.
  - destruct (create_account_panics b fl i s Hi Hlt ltac:(lia)) as (sa & Ha & Ho & Hc).
    rewrite (bind_Panicked_l _ _ _ _ _ Ha).
    eexists sa, _. split_and!; [exact Ho|by repeat constructor; left|done|done|left; eauto].
Qed.

(** A mutation of phase 2 is a slot write to the address that [addrs]
    holds at some index [idx], with the key of a slot index below
    [slots]. *)
Definition modifies_existing (b : Build) (fl : Flags) (A : list Address)
    (e : Event) : Prop :=
  is_mutation e = true →
  ∃ idx slot addr v,
    e = ESetState addr (slot_key b idx slot) v ∧
    0 ≤ idx ∧ A !! Z.to_nat idx = Some addr ∧ 0 ≤ slot < nSlots fl.

Lemma modify_account_no_index b fl perm i s :
  (i < 0 ∨ perm !! Z.to_nat i = None) ∨
  (∃ idx, 0 ≤ i ∧ perm !! Z.to_nat i = Some idx ∧
          (idx < 0 ∨ addrs s !! Z.to_nat idx = None)) →
  modify_account b fl perm i s = (Panicked "index out of range", s).
Proof.
  unfold modify_account. intros [H|(idx & Hi & Hp & H)].
  - by rewrite (bind_Panicked_l _ _ _ _ _ (index_panics perm i s H)).
  - mstep (index_lookup perm i _ idx Hi Hp). mstep (gets_run _ _).
    by rewrite (bind_Panicked_l _ _ _ _ _ (index_panics (addrs s) idx s H)).
Qed.

(** The events of a turn of phase 2 before its commit. *)
Definition modification_event (b : Build) (fl : Flags) (A : list Address)
    (e : Event) : Prop :=
  (∃ idx slot addr v,
     e = ESetState addr (slot_key b idx slot) v ∧
     0 ≤ idx ∧ A !! Z.to_nat idx = Some addr ∧ 0 ≤ slot < nSlots fl) ∨
  ∃ d t, e = EPrint (LModified d t).

Lemma modification_event_existing b fl A e :
  modification_event b fl A e ∨ is_mutation e = false →
  modifies_existing b fl A e.
Proof.
  intros [[H|(d & t & ->)]|H] Hm; [done|done|congruence].
Qed.

Lemma Forall_gen_modifications b fl A idx addr n r :
  0 ≤ idx → A !! Z.to_nat idx = Some addr → 0 < nSlots fl →
  Forall (modification_event b fl A)
    (gen_modifications n b (nSlots fl) idx addr r).1.
Proof.
  intros Hidx HA Hn.
  destruct (gen_modifications_shape n b (nSlots fl) idx addr r Hn)
    as (g & _ & Hall & ->).
  apply Forall_fmap. eapply Forall_impl; [exact Hall|].
  intros [slot v] [Hslot _]. simpl in *. left. by exists idx, slot, addr, v.
Qed.

Lemma modify_step_any env b fl m perm i s :
  step_any true (modification_event b fl (addrs s)) (revision2 (kCommit fl) i)
    LCommitModFailed LCommitTrieModFailed
    s (modify_step env b fl m perm i s).1 (modify_step env b fl m perm i s).2.
Proof.
  unfold modify_step.
  assert (∀ msg, modify_account b fl perm i s = (Panicked msg, s) →
    step_any true (modification_event b fl (addrs s)) (revision2 (kCommit fl) i)
      LCommitModFailed LCommitTrieModFailed
      s (modify_step env b fl m perm i s).1 (modify_step env b fl m perm i s).2)
    as Hpanic.
  { intros msg H. unfold modify_step. rewrite !(bind_Panicked_l _ _ _ _ _ H).
    exists s, []. rewrite app_nil_r. split_and!; [done..|]. left. eauto. }
  destruct (decide (0 ≤ i)) as [Hi|Hi].
  2: { eapply Hpanic, modify_account_no_index. left; left; lia. }
  destruct (perm !! Z.to_nat i) as [idx|] eqn:Hp.
  2: { eapply Hpanic, modify_account_no_index. by left; right. }
  destruct (decide (0 ≤ idx)) as [Hidx|Hidx].
  2: { eapply Hpanic, modify_account_no_index. right. exists idx.
       split_and!; [done..|left; lia]. }
  destruct (addrs s !! Z.to_nat idx) as [addr|] eqn:Haddr.
  2: { eapply Hpanic, modify_account_no_index. right. exists idx.
       split_and!; [done..|by right]. }
  destruct (decide (0 < nSlots fl)) as [Hn|Hn].
  - destruct (modify_account_run b fl perm i idx addr s Hi Hp Hidx Haddr Hn)
      as (sa & Ha & (idx' & addr' & _ & Hp' & _ & Haddr' & _ & Ho & _ & Haa & Hc)).
    assert (idx' = idx) as -> by congruence.
    assert (addr' = addr) as -> by congruence.
    mstep Ha.
    apply (closing_any true _ LModified _ _ _
             (commit_modified env fl i) _ _ _ s sa _ Ho); try done.
    + by apply Forall_gen_modifications.
    + right. eauto.
    + apply commit_modified_outcome.
  - destruct (modify_account_panics b fl perm i idx addr s Hi Hp Hidx Haddr)
      as (sa & Ha & Ho & Haa & Hc); [lia|].
    rewrite !(bind_Panicked_l _ _ _ _ _ Ha).
    exists sa, []. rewrite app_nil_r. split_and!; [done..|left; eauto].
Qed.

(** ** Reasoning about every outcome *)

(** [wp c Q s]: the outcome and the final state of [c] from [s] satisfy
    [Q]. *)
Definition wp {A} (c : M A) (Q : Outcome A → State → Prop) (s : State) : Prop :=
  Q (c s).1 (c s).2.

(** The postcondition of a sequence, seen from its first part. *)
Definition and_then {A B} (k : A → M B) (Q : Outcome B → State → Prop)
    : Outcome A → State → Prop :=
  λ o s, match o with
         | Val a => wp (k a) Q s
         | Returned => Q Returned s
         | Panicked msg => Q (Panicked msg) s
         end.

Lemma wp_bind {A B} (c : M A) (k : A → M B) Q s :
  wp c (and_then k Q) s → wp (c ≫= k) Q s.
Proof.
  unfold wp, and_then. rewrite bind_run. by destruct (c s) as [[a| |msg] s1].
Qed.

Lemma wp_step {A B} (c : M A) (k : A → M B) Q s a s1 :
  c s = (Val a, s1) → wp (k a) Q s1 → wp (c ≫= k) Q s.
Proof. intros H ?. unfold wp. by rewrite (bind_Val_l _ _ _ _ _ H). Qed.

Lemma wp_stop {A B} (c : M A) (k : A → M B) Q s msg s1 :
  c s = (Panicked msg, s1) → Q (Panicked msg) s1 → wp (c ≫= k) Q s.
Proof. intros H ?. unfold wp. by rewrite (bind_Panicked_l _ _ _ _ _ H). Qed.

Lemma wp_mono {A} (c : M A) (Q Q' : Outcome A → State → Prop) s :
  wp c Q s → (∀ o s', Q o s' → Q' o s') → wp c Q' s.
Proof. unfold wp. eauto. Qed.

(** The rule of the loop: [Inv] holds as long as the turns fall
    through, [Q] when one of them does not. *)
Definition loop_post (Inv : State → Prop) (Q : Outcome unit → State → Prop)
    : Outcome unit → State → Prop :=
  λ o s, match o with Val _ => Inv s | _ => Q o s end.

Lemma wp_for_each (Inv : State → Prop) (Q : Outcome unit → State → Prop)
    l body s :
  Inv s →
  (∀ i s, i ∈ l → Inv s → wp (body i) (loop_post Inv Q) s) →
  wp (for_each l body) (loop_post Inv Q) s.
Proof.
  revert s. induction l as [|i l IH]; intros s Hs Hbody; [done|].
  simpl. apply wp_bind.
  eapply wp_mono; [apply Hbody; [constructor|done]|].
  intros [[]| |msg] s' H; [|done..].
  apply IH; [done|]. intros j s'' Hj. apply Hbody. by constructor.
Qed.

Lemma step_any_log keep Pq rev lineS lineT s o s' :
  step_any keep Pq rev lineS lineT s o s' →
  ∃ tr, out s' = out s ++ tr ∧
        Forall (λ e, Pq e ∨ is_mutation e = false) tr ∧
        (keep = true → addrs s' = addrs s).
Proof.
  intros (sa & evs & Ho & Hevs & _ & Hk & Hend).
  assert (Forall (λ e, Pq e ∨ is_mutation e = false) evs) as Hevs'.
  { eapply Forall_impl; [exact Hevs|]. by left. }
  destruct Hend as [(msg & _ & ->)|[(_ & ->)|Hc]]; [by exists evs..|].
  destruct Hc as (_ & Ha & [(err & _ & _ & Ho')|[(root & err & _ & _ & Ho')
                              |(root & line & _ & _ & _ & Ho')]]);
    rewrite Ho, <- app_assoc in Ho'; eexists; (split; [exact Ho'|]);
    (split; [|intros; rewrite Ha; by apply Hk]);
    (apply Forall_app; split; [done|]); repeat constructor; by right.
Qed.

(** ** The targets of phase 2 *)

Definition targets_existing (b : Build) (fl : Flags) (A : list Address)
    (s0 s : State) : Prop :=
  addrs s = A ∧ ∃ tr, out s = out s0 ++ tr ∧ Forall (modifies_existing b fl A) tr.

Lemma targets_existing_log b fl A s0 s e :
  is_mutation e = false →
  targets_existing b fl A s0 s → targets_existing b fl A s0 (log e s).
Proof.
  intros He (Ha & tr & Ho & Htr). split; [done|].
  exists (tr ++ [e]). simpl. rewrite Ho, <- app_assoc. split; [done|].
  apply Forall_app. split; [done|]. constructor; [|done]. intros ?. congruence.
Qed.

(** Whatever its outcome, phase 2 leaves [addrs] alone and all its
    mutations are slot writes to addresses held by [addrs]. *)
Lemma phase2_log env b fl s :
  targets_existing b fl (addrs s) s (phase2 env b fl s).2.
Proof.
  change (wp (phase2 env b fl) (λ _, targets_existing b fl (addrs s) s) s).
  set (A := addrs s). set (Inv := targets_existing b fl A s).
  assert (Inv s) as Hs.
  { split; [done|]. exists []. by rewrite app_nil_r. }
  unfold phase2. eapply wp_step; [apply print_run|].
  assert (Inv (log (EPrint (LPhase2 (clamp_modify fl) (kCommit fl))) s)) as Hs1.
  { by apply targets_existing_log. }
  destruct (reset_total_run b (log (EPrint (LPhase2 (clamp_modify fl) (kCommit fl))) s))
    as (s1 & H1 & Ho1 & _ & [Ha1 _] & _).
  eapply wp_step; [exact H1|].
  assert (Inv s1) as Hs2.
  { destruct Hs1 as (Ha & tr & Ho & Htr). split; [congruence|].
    exists tr. by rewrite Ho1. }
  eapply wp_step; [apply modify_run|].
  destruct (decide (nAccounts fl < 0)) as [Hn|Hn].
  { eapply wp_stop; [unfold Perm; by rewrite decide_True|exact Hs2]. }
  eapply wp_step; [apply Perm_run; lia|].
  apply wp_bind.
  eapply wp_mono.
  { apply (wp_for_each Inv (λ _, Inv)); [exact Hs2|].
    intros i s' _ (Ha & tr & Ho & Htr).
    pose proof (modify_step_any env b fl (clamp_modify fl)
                  (shuffle (nAccounts fl) (NewSource (unixNano env))).1 i s') as Hst.
    apply step_any_log in Hst as (tr' & Ho' & Htr' & Ha').
    assert (Inv (modify_step env b fl (clamp_modify fl)
                   (shuffle (nAccounts fl) (NewSource (unixNano env))).1 i s').2)
      as Hinv.
    { split; [rewrite Ha'; done|]. exists (tr ++ tr').
      rewrite Ho', Ho, <- app_assoc. split; [done|].
      apply Forall_app. split; [done|]. rewrite <- Ha.
      eapply Forall_impl; [exact Htr'|]. apply modification_event_existing. }
    unfold wp, loop_post. by destruct (modify_step _ _ _ _ _ _ _).1. }
  intros [[]| |msg] s' Hs'; simpl; try done.
  eapply wp_step; [apply gets_run|]. eapply wp_step; [apply gets_run|].
  eapply wp_step; [apply print_run|].
  destruct b.
  - eapply wp_step; [apply gets_run|]. unfold wp. simpl.
    apply targets_existing_log; [done|]. apply targets_existing_log; [done|].
    exact Hs'.
  - unfold wp. simpl. apply targets_existing_log; [done|]. exact Hs'.
Qed.

Lemma elem_of_gen_phase1 b n range idx vs e :
  0 ≤ idx →
  (gen_accounts (Z.to_nat n) range (NewSource 42)).1 !! Z.to_nat idx = Some vs →
  e ∈ account_events b idx vs → e ∈ gen_phase1 b n range.
Proof.
  intros Hidx Hvs He. unfold gen_phase1.
  apply list_elem_of_In, in_concat. exists (account_events b idx vs).
  split; [|by apply list_elem_of_In]. apply list_elem_of_In.
  apply (elem_of_lookup_zip_with_2 _ _ _ idx vs [] (Z.to_nat idx)); [|done].
  apply lookup_seqZ. split; [lia|].
  apply lookup_lt_Some in Hvs. rewrite gen_accounts_length in Hvs. lia.
Qed.

Lemma elem_of_mutations e tr : e ∈ mutations tr → e ∈ tr.
Proof. unfold mutations. rewrite list_elem_of_filter. tauto. Qed.

(** ** The accounts and the slots that phase 2 writes *)

(** X18. After a phase 1 that ran to its end, every mutation of
    phase 2, however phase 2 ends, is a slot write to the address of an
    account [idx] of phase 1 (its balance was set there; [addrs] is not
    changed, no balance or nonce is set), with the key that phase 1
    derives for [(idx, slot)], [0 ≤ slot < slots]. The write lands on a
    slot written in phase 1 whenever phase 1 generated a value for slot
    [slot] of that account; phase 1 generates fewer than [2 * slots]
    slots per account, possibly none. *)
Theorem phase2_targets_phase1_accounts env b fl s s1 :
  phase1 env b fl s = (Val tt, s1) →
  let s2 := (phase2 env b fl s1).2 in
  let vss := (gen_accounts (Z.to_nat (nAccounts fl)) (slot_range fl)
                (NewSource 42)).1 in
  addrs s1 = account_addr <$> seqZ 0 (nAccounts fl) ∧
  addrs s2 = addrs s1 ∧
  Forall (λ e, is_mutation e = true →
    ∃ idx slot v,
      e = ESetState (account_addr idx) (slot_key b idx slot) v ∧
      0 ≤ idx < nAccounts fl ∧ 0 ≤ slot < nSlots fl ∧
      ESetBalance (account_addr idx) (10 ^ 18) ∈ since s s1 ∧
      ∀ vs w, vss !! Z.to_nat idx = Some vs → vs !! Z.to_nat slot = Some w →
              ESetState (account_addr idx) (slot_key b idx slot) w ∈ since s s1)
    (since s1 s2).
Proof.
  intros H1 s2 vss.
  pose proof (phase1_addrs _ _ _ _ _ H1) as Ha.
  pose proof (phase1_mutations _ _ _ _ _ H1) as Hm.
  destruct (phase2_log env b fl s1) as (Ha2 & tr & Ho & Htr).
  split; [done|]. split; [done|].
  subst s2. rewrite (since_app _ _ _ Ho).
  eapply Forall_impl; [exact Htr|].
  intros e He Hmut.
  destruct (He Hmut) as (idx & slot & addr & v & -> & Hidx & Haddr & Hslot).
  rewrite Ha, list_lookup_fmap in Haddr.
  destruct (seqZ 0 (nAccounts fl) !! Z.to_nat idx) as [x|] eqn:Hx; [|done].
  apply lookup_seqZ in Hx as [-> Hlt]. simpl in Haddr. injection Haddr as <-.
  replace (0 + Z.of_nat (Z.to_nat idx)) with idx by lia.
  exists idx, slot, v. split_and!; try done; try lia.
  - destruct (lookup_lt_is_Some_2 vss (Z.to_nat idx)) as [vs Hvs].
    { subst vss. rewrite gen_accounts_length. lia. }
    apply elem_of_mutations. rewrite Hm.
    apply (elem_of_gen_phase1 _ _ _ idx vs); [done..|]. by left.
  - intros vs w Hvs Hw. apply elem_of_mutations. rewrite Hm.
    apply (elem_of_gen_phase1 _ _ _ idx vs); [done..|].
    unfold account_events. do 2 right.
    replace slot with (Z.of_nat (Z.to_nat slot)) at 1 by lia.
    by apply (elem_of_lookup_imap_2
      (λ j v, ESetState (account_addr idx) (slot_key b idx (Z.of_nat j)) v)).
Qed.

(** The slot keys of the accounts [0] to [n-1] do not collide, for the
    slot indices below [J]. *)
Definition keys_apart (b : Build) (n J : Z) : Prop :=
  ∀ i j i' j', 0 ≤ i < n → 0 ≤ i' < n → 0 ≤ j < J → 0 ≤ j' < J →
    slot_key b i j = slot_key b i' j' → i = i' ∧ j = j'.

Lemma elem_of_gen_phase1_inv b n range e :
  e ∈ gen_phase1 b n range →
  ∃ i vs, 0 ≤ i < n ∧
    (gen_accounts (Z.to_nat n) range (NewSource 42)).1 !! Z.to_nat i = Some vs ∧
    e ∈ account_events b i vs.
Proof.
  unfold gen_phase1. intros (evs & He & Hevs)%list_elem_of_In%in_concat.
  apply list_elem_of_In, elem_of_lookup_zip_with_1 in He
    as (k & i & vs & -> & [-> Hk]%lookup_seqZ & Hvs).
  exists (0 + Z.of_nat k), vs. split; [lia|]. split.
  - by replace (Z.to_nat (0 + Z.of_nat k)) with k by lia.
  - by apply list_elem_of_In.
Qed.

Lemma elem_of_account_events b i vs a k w :
  ESetState a k w ∈ account_events b i vs →
  a = account_addr i ∧ ∃ j : nat, vs !! j = Some w ∧ k = slot_key b i (Z.of_nat j).
Proof.
  rewrite account_events_slots. intros [H|H]%elem_of_app.
  - apply elem_of_cons in H as [H|H]; [done|].
    apply elem_of_cons in H as [H|H]; [done|]. by apply elem_of_nil in H.
  - unfold slot_events in H.
    apply elem_of_lookup_imap_1 in H as (j & v & [= -> -> ->] & Hj).
    split; [done|]. exists j. split; [done|]. f_equal; lia.
Qed.

Lemma gen_accounts_lengths n range r vs (i : nat) :
  0 < range → (gen_accounts n range r).1 !! i = Some vs →
  Z.of_nat (length vs) < range.
Proof.
  intros Hr. revert r i. induction n as [|n IH]; intros r i; simpl; [done|].
  pose proof (gen_account_length range r Hr) as Hl.
  destruct (gen_account range r) as [vs0 r1]. specialize (IH r1).
  destruct (gen_accounts n range r1) as [vss r2]. simpl in *.
  destruct i as [|i]; simpl; [by intros [= <-]|apply IH].
Qed.

Lemma phase1_slot_range env b fl s s1 :
  phase1 env b fl s = (Val tt, s1) → 1 ≤ nAccounts fl → 0 < slot_range fl.
Proof.
  intros (s0 & s' & _ & Hsteps & _)%phase1_Val Hn.
  rewrite seqZ_cons in Hsteps by lia.
  inversion Hsteps as [|i l sa sb sc Hb Hl]; subst.
  by destruct Hb as (_ & _ & _ & ? & _).
Qed.

(** X19. Nothing ties the slot index that phase 2 draws, from
    [[0, slots)], to the number of slots that phase 1 drew for the
    account, from [[0, 2 * slots)]. After a phase 1 that ran to its
    end, and provided the slot keys of the accounts do not collide, a
    slot write of phase 2, to slot [slot] of account [idx], has a key
    that phase 1 wrote if and only if [slot] is below the number of
    slots that phase 1 generated for that account; otherwise no call
    of phase 1 carries its key, and the write makes a new slot. *)
Theorem overwrites_iff_generated env b fl s s1 :
  keys_apart b (nAccounts fl) (Z.max (slot_range fl) (nSlots fl)) →
  phase1 env b fl s = (Val tt, s1) →
  let s2 := (phase2 env b fl s1).2 in
  let vss := (gen_accounts (Z.to_nat (nAccounts fl)) (slot_range fl)
                (NewSource 42)).1 in
  Forall (λ e, is_mutation e = true →
    ∃ idx slot v vs,
      e = ESetState (account_addr idx) (slot_key b idx slot) v ∧
      0 ≤ idx < nAccounts fl ∧ 0 ≤ slot < nSlots fl ∧
      vss !! Z.to_nat idx = Some vs ∧ Z.of_nat (length vs) < slot_range fl ∧
      ((∃ a w, ESetState a (slot_key b idx slot) w ∈ since s s1)
       ↔ slot < Z.of_nat (length vs)))
    (since s1 s2).
Proof.
  intros Hkeys H1 s2 vss.
  pose proof (phase1_addrs _ _ _ _ _ H1) as Ha.
  pose proof (phase1_mutations _ _ _ _ _ H1) as Hm.
  destruct (phase2_log env b fl s1) as (Ha2 & tr & Ho & Htr).
  subst s2. rewrite (since_app _ _ _ Ho).
  eapply Forall_impl; [exact Htr|].
  intros e He Hmut.
  destruct (He Hmut) as (idx & slot & addr & v & -> & Hidx & Haddr & Hslot).
  rewrite Ha, list_lookup_fmap in Haddr.
  destruct (seqZ 0 (nAccounts fl) !! Z.to_nat idx) as [x|] eqn:Hx; [|done].
  apply lookup_seqZ in Hx as [-> Hlt]. simpl in Haddr. injection Haddr as <-.
  replace (0 + Z.of_nat (Z.to_nat idx)) with idx by lia.
  destruct (lookup_lt_is_Some_2 vss (Z.to_nat idx)) as [vs Hvs].
  { subst vss. rewrite gen_accounts_length. lia. }
  assert (0 < slot_range fl) as Hr by (eapply phase1_slot_range; [exact H1|lia]).
  pose proof (gen_accounts_lengths _ _ _ _ _ Hr Hvs) as Hlen.
  exists idx, slot, v, vs. split_and!; try done; try lia.
  split.
  - intros (a & w & Hin).
    assert (ESetState a (slot_key b idx slot) w
            ∈ gen_phase1 b (nAccounts fl) (slot_range fl)) as Hg.
    { rewrite <- Hm. unfold mutations. apply list_elem_of_filter. by split. }
    apply elem_of_gen_phase1_inv in Hg as (i & vs' & Hi & Hvs' & Hev).
    apply elem_of_account_events in Hev as (_ & j & Hj & Hkey).
    pose proof (gen_accounts_lengths _ _ _ _ _ Hr Hvs') as Hlen'.
    pose proof (lookup_lt_Some _ _ _ Hj) as Hjlt.
    destruct (Hkeys idx slot i (Z.of_nat j)) as [Ei Ej]; [lia..|done|].
    assert (vs' = vs) as -> by (subst vss i; congruence).
    lia.
  - intros Hlt'.
    destruct (lookup_lt_is_Some_2 vs (Z.to_nat slot)) as [w Hw]; [lia|].
    exists (account_addr idx), w. apply elem_of_mutations. rewrite Hm.
    apply (elem_of_gen_phase1 _ _ _ idx vs); [lia|done|].
    unfold account_events. do 2 right.
    replace slot with (Z.of_nat (Z.to_nat slot)) at 1 by lia.
    by apply (elem_of_lookup_imap_2
      (λ j v, ESetState (account_addr idx) (slot_key b idx (Z.of_nat j)) v)).
Qed.

(** ** Failing commits *)

(** A run that has not failed: [currentRoot] is the root of the last
    commit that went through. *)
Definition healthy (s : State) : Prop :=
  Forall sound_event (out s) ∧ currentRoot s = last_root (out s).

(** A run that has just failed at a commit: the failed commit and the
    line that reports it are the last two events, and [currentRoot] is
    still the root of the last commit that went through. *)
Definition aborted (s : State) : Prop :=
  ∃ tr e l, out s = tr ++ [e; EPrint l] ∧ Forall sound_event tr ∧
    failed_commit e = true ∧ reports_failure e l ∧
    currentRoot s = last_root tr.

(** A run after its final report. *)
Definition reported (s : State) : Prop :=
  ∃ tr path size, out s = tr ++ [EPrint (LFinalReport path size)] ∧
    Forall sound_event tr ∧ currentRoot s = last_root tr.

Definition run_post (o : Outcome unit) (s : State) : Prop :=
  match o with Returned => aborted s | _ => healthy s end.

Lemma flushed_roots_app tr1 tr2 :
  flushed_roots (tr1 ++ tr2) = flushed_roots tr1 ++ flushed_roots tr2.
Proof. apply omap_app. Qed.

Lemma flushed_roots_quiet evs : Forall quiet_event evs → flushed_roots evs = [].
Proof.
  induction 1 as [|e evs (_ & _ & He) _ IH]; [done|].
  change (e :: evs) with ([e] ++ evs). by rewrite flushed_roots_app, He, IH.
Qed.

Lemma last_root_quiet tr evs :
  Forall quiet_event evs → last_root (tr ++ evs) = last_root tr.
Proof.
  intros H. unfold last_root.
  by rewrite flushed_roots_app, (flushed_roots_quiet _ H), app_nil_r.
Qed.

Lemma Forall_quiet_sound evs : Forall quiet_event evs → Forall sound_event evs.
Proof. intros H. eapply Forall_impl; [exact H|]. by intros e (? & ? & _). Qed.

Lemma healthy_ext s s' evs :
  healthy s → out s' = out s ++ evs → Forall quiet_event evs →
  currentRoot s' = currentRoot s → healthy s'.
Proof.
  intros [Hs Hc] Ho Hevs Hc'. split.
  - rewrite Ho. apply Forall_app. split; [done|]. by apply Forall_quiet_sound.
  - by rewrite Hc', Ho, last_root_quiet.
Qed.

Lemma healthy_log s e : healthy s → quiet_event e → healthy (log e s).
Proof.
  intros Hs He. apply (healthy_ext s _ [e]); [done|done| |done].
  by constructor.
Qed.

Lemma last_root_cut tr rev root line :
  last_root (tr ++ cut_events rev root line) = root.
Proof.
  unfold last_root. rewrite flushed_roots_app. simpl.
  by rewrite last_snoc.
Qed.

(** A turn of a loop keeps the run healthy, or aborts it at its
    commit. *)
Lemma step_any_healthy keep Pq rev lineS lineT s o s' :
  (∀ e, Pq e → quiet_event e) →
  (∀ r err, reports_failure (ECommit r (inl err)) (lineS err)) →
  (∀ r err, reports_failure (ETrieCommit r (Some err)) (lineT err)) →
  healthy s →
  step_any keep Pq rev lineS lineT s o s' →
  loop_post healthy run_post o s'.
Proof.
  intros HPq HlS HlT Hs (sa & evs & Ho & Hevs & Hc & _ & Hend).
  assert (healthy sa) as Hsa.
  { apply (healthy_ext s sa evs); [done..| |done].
    eapply Forall_impl; [exact Hevs|]. done. }
  destruct Hend as [(msg & -> & ->)|[(-> & ->)|Hcommit]]; [done..|].
  destruct Hsa as [Hsound Hroot].
  destruct Hcommit as (_ & _ & [(err & -> & Hc' & Ho')|[(root & err & -> & Hc' & Ho')
                                 |(root & line & -> & Hc' & Hline & Ho')]]); simpl.
  - exists (out sa), (ECommit rev (inl err)), (lineS err).
    split_and!; [done..|apply HlS|congruence].
  - exists (out sa ++ [ECommit rev (inr root)]),
           (ETrieCommit root (Some err)), (lineT err).
    split_and!; [by rewrite Ho', <- app_assoc| |done|apply HlT|].
    + apply Forall_app. split; [done|]. by constructor.
    + rewrite Hc', Hroot. symmetry. apply last_root_quiet. by constructor.
  - split.
    + rewrite Ho'. apply Forall_app. split; [done|].
      unfold cut_events.
      repeat first [apply Forall_nil_2 | apply Forall_cons_2; [by split|]].
    + rewrite Ho', last_root_cut. done.
Qed.

Lemma creation_event_quiet e : creation_event e → quiet_event e.
Proof. intros [H|(d & t & ->)]; [by destruct e|done]. Qed.

Lemma modification_event_quiet b fl A e :
  modification_event b fl A e → quiet_event e.
Proof. intros [(? & ? & ? & ? & -> & _)|(d & t & ->)]; done. Qed.

(** The variables before phase 1: no commit yet. *)
Definition pristine (s : State) : Prop :=
  Forall quiet_event (out s) ∧ currentRoot s = zeroHash.

Lemma pristine_healthy s : pristine s → healthy s.
Proof.
  intros [Hq Hc]. split; [by apply Forall_quiet_sound|].
  rewrite Hc. unfold last_root. by rewrite flushed_roots_quiet.
Qed.

Lemma phase1_healthy env b fl s :
  pristine s → wp (phase1 env b fl) run_post s.
Proof.
  intros Hs. pose proof (pristine_healthy s Hs) as Hh. unfold phase1.
  eapply wp_step; [apply print_run|].
  assert (healthy (log (EPrint (LPhase1 (nAccounts fl) (nSlots fl) (kCommit fl))) s))
    as Hh1 by by apply healthy_log.
  destruct (decide (nAccounts fl < 0 ∨ maxAlloc < 20 * nAccounts fl)) as [Hn|Hn].
  { eapply wp_stop; [by apply make_addrs_panics|done]. }
  eapply wp_step; [apply make_addrs_run; lia|].
  do 3 (eapply wp_step; [apply modify_run|]).
  apply wp_bind. eapply wp_mono.
  { apply (wp_for_each healthy run_post).
    - destruct Hs as [_ Hc]. destruct Hh1 as [Hso Hr]. split; [done|].
      simpl in *. by rewrite <- Hr, Hc.
    - intros i s' _ Hs'. unfold wp.
      eapply step_any_healthy; [| | |exact Hs'|apply (create_step_any env b fl i s')].
      + apply creation_event_quiet.
      + intros. by left.
      + intros. by left. }
  intros [[]| |msg] s' Hs'; simpl; try done.
  eapply wp_step; [apply gets_run|]. eapply wp_step; [apply gets_run|].
  eapply wp_step; [apply print_run|].
  destruct b.
  - eapply wp_step; [apply gets_run|]. unfold wp. simpl.
    apply healthy_log; [|done]. apply healthy_log; [|done]. exact Hs'.
  - unfold wp. simpl. apply healthy_log; [|done]. exact Hs'.
Qed.

Lemma phase2_healthy env b fl s :
  healthy s → wp (phase2 env b fl) run_post s.
Proof.
  intros Hh. unfold phase2.
  eapply wp_step; [apply print_run|].
  assert (healthy (log (EPrint (LPhase2 (clamp_modify fl) (kCommit fl))) s))
    as Hh1 by by apply healthy_log.
  destruct (reset_total_run b (log (EPrint (LPhase2 (clamp_modify fl) (kCommit fl))) s))
    as (s1 & H1 & Ho1 & _ & [_ Hc1] & _).
  eapply wp_step; [exact H1|].
  assert (healthy s1) as Hh2.
  { apply (healthy_ext _ s1 [] Hh1); [by rewrite app_nil_r|done|done]. }
  eapply wp_step; [apply modify_run|].
  destruct (decide (nAccounts fl < 0)) as [Hn|Hn].
  { eapply wp_stop; [unfold Perm; by rewrite decide_True|exact Hh2]. }
  eapply wp_step; [apply Perm_run; lia|].
  apply wp_bind. eapply wp_mono.
  { apply (wp_for_each healthy run_post); [exact Hh2|].
    intros i s' _ Hs'. unfold wp.
    eapply step_any_healthy; [| | |exact Hs'|apply modify_step_any].
    + apply modification_event_quiet.
    + intros. by right.
    + intros. by right. }
  intros [[]| |msg] s' Hs'; simpl; try done.
  eapply wp_step; [apply gets_run|]. eapply wp_step; [apply gets_run|].
  eapply wp_step; [apply print_run|].
  destruct b.
  - eapply wp_step; [apply gets_run|]. unfold wp. simpl.
    apply healthy_log; [|done]. apply healthy_log; [|done]. exact Hs'.
  - unfold wp. simpl. apply healthy_log; [|done]. exact Hs'.
Qed.

Definition final_post (o : Outcome unit) (s : State) : Prop :=
  match o with
  | Val _ => reported s
  | Returned => aborted s
  | Panicked _ => healthy s
  end.

Lemma phases_final env b fl s :
  pristine s → wp (phases env b fl) final_post s.
Proof.
  intros Hs. unfold phases. apply wp_bind.
  eapply wp_mono; [by apply phase1_healthy|].
  intros [[]| |msg] s1 Hs1; simpl; try done.
  apply wp_bind. eapply wp_mono; [by apply phase2_healthy|].
  intros [[]| |msg] s2 Hs2; simpl; try done.
  unfold report. eapply wp_step; [apply gets_run|].
  unfold wp. simpl. destruct Hs2 as [Hso Hr]. by eexists _, _, _.
Qed.

Lemma first_failure tr0 e0 p tr1 e tr2 :
  Forall sound_event tr0 → failed_commit e = true → failed_commit p = false →
  tr0 ++ [e0; p] = tr1 ++ e :: tr2 →
  tr1 = tr0 ∧ e = e0 ∧ tr2 = [p].
Proof.
  intros Hs He Hp. revert tr1. induction Hs as [|a tr0 [Ha _] _ IH]; intros tr1 H.
  - destruct tr1 as [|x [|y tr1]]; simplify_eq/=; [done|congruence|].
    by destruct tr1.
  - destruct tr1 as [|x tr1]; simplify_eq/=; [congruence|].
    destruct (IH tr1) as (-> & -> & ->); done.
Qed.

Lemma no_failure tr tr1 e tr2 :
  Forall (λ e, failed_commit e = false) tr →
  tr = tr1 ++ e :: tr2 → failed_commit e = true → False.
Proof.
  intros Hs -> He. apply Forall_app in Hs as [_ Hs].
  apply Forall_cons in Hs as [Hs _]. congruence.
Qed.

Lemma sound_not_failed tr :
  Forall sound_event tr → Forall (λ e, failed_commit e = false) tr.
Proof. intros H. eapply Forall_impl; [exact H|]. by intros e [? _]. Qed.

Lemma sound_no_failure tr tr1 e tr2 :
  Forall sound_event tr → tr = tr1 ++ e :: tr2 → failed_commit e = true → False.
Proof. intros Hs. by apply no_failure, sound_not_failed. Qed.

Lemma Forall_prologue b fl : Forall quiet_event (prologue b fl).
Proof. unfold prologue. destruct (clearDB fl); by repeat constructor. Qed.

Lemma pristine_init b fl st : pristine (init_state b fl st).
Proof.
  split; [|done]. simpl. apply Forall_app.
  split; [apply Forall_prologue|by repeat constructor].
Qed.

Lemma last_root_failure tr e l :
  failed_commit e = true → last_root (tr ++ [e; EPrint l]) = last_root tr.
Proof.
  intros He. unfold last_root. rewrite flushed_roots_app.
  destruct e as [| | |rev [|]|root [|]| |]; try done; by rewrite app_nil_r.
Qed.

Lemma reports_failure_not_final e l :
  reports_failure e l → is_final_report (EPrint l) = false.
Proof.
  destruct e as [| | |rev [|]|root [|]| |]; try done; by intros [-> | ->].
Qed.

Lemma sound_not_final tr :
  Forall sound_event tr → Forall (λ e, is_final_report e = false) tr.
Proof. intros H. eapply Forall_impl; [exact H|]. by intros e [_ ?]. Qed.

(** ** The claim about failing commits *)

(** C6. If a commit of [main] returns an error, be it the state commit
    or the trie commit, in phase 1 or in phase 2, [main] returns
    there: the failed commit is followed by the line that reports its
    error and by nothing else (no second attempt, no further mutation
    or commit, no final report), and no commit failed before it.
    Whenever the store was opened, [currentRoot] at the end of [main]
    is the root of the last commit that went through, state commit and
    trie commit (the zero hash if there is none). A run that returns
    early prints no final report; a run that reaches its end prints
    it last. *)
Theorem commit_failure_aborts env b fl :
  let '(o, tr, fin) := main env b fl in
  (∀ tr1 e tr2,
     tr = tr1 ++ e :: tr2 → failed_commit e = true →
     o = Returned ∧ Forall sound_event tr1 ∧
     ∃ l, tr2 = [EPrint l] ∧ reports_failure e l) ∧
  (∀ s, fin = Some s → out s = tr ∧ currentRoot s = last_root tr) ∧
  (o = Returned → Forall (λ e, is_final_report e = false) tr) ∧
  (o = Val tt →
     ∃ tr' path size, tr = tr' ++ [EPrint (LFinalReport path size)] ∧
       Forall sound_event tr').
Proof.
  unfold main. destruct (OpenStore b (dbPath fl) (clearDB fl)) as [err|st].
  { assert (Forall sound_event (prologue b fl ++ [EPrint (LOpenFailed err)]))
      as Hs.
    { apply Forall_app. split; [|by repeat constructor].
      apply Forall_quiet_sound, Forall_prologue. }
    split_and!; [|done| |done].
    - intros tr1 e tr2 Htr He. destruct (sound_no_failure _ _ _ _ Hs Htr He).
    - intros _. by apply sound_not_final. }
  pose proof (phases_final env b fl (init_state b fl st) (pristine_init b fl st))
    as Hfinal. unfold wp in Hfinal.
  destruct (phases env b fl (init_state b fl st)) as [[[]| |msg] s]; simpl in *.
  - destruct Hfinal as (tr' & path & size & Ho & Hs & Hr).
    split_and!; [|intros s' [= <-]; split; [done|]|done|eauto].
    + intros tr1 e tr2 Htr He. exfalso. rewrite Ho in Htr.
      eapply (no_failure (tr' ++ [EPrint (LFinalReport path size)]));
        [|exact Htr|exact He].
      apply Forall_app. split; [by apply sound_not_failed|]. by repeat constructor.
    + rewrite Hr, Ho. unfold last_root. rewrite flushed_roots_app. simpl.
      by rewrite app_nil_r.
  - destruct Hfinal as (tr0 & e0 & l & Ho & Hs & He0 & Hl & Hr).
    split_and!; [|intros s' [= <-]; split; [done|]| |done].
    + intros tr1 e tr2 Htr He. rewrite Ho in Htr.
      destruct (first_failure tr0 e0 (EPrint l) tr1 e tr2 Hs He eq_refl Htr)
        as (-> & -> & ->).
      eauto.
    + by rewrite Hr, Ho, last_root_failure.
    + intros _. rewrite Ho. apply Forall_app. split; [by apply sound_not_final|].
      constructor; [by destruct e0|].
      constructor; [by eapply reports_failure_not_final|done].
  - destruct Hfinal as [Hs Hr].
    split_and!; [|by intros s' [= <-]|done|done].
    intros tr1 e tr2 Htr He. destruct (sound_no_failure _ _ _ _ Hs Htr He).
Qed.

(** ** Two runs side by side *)

(** Two states that differ at most in the lines printed. *)
Definition agree (s1 s2 : State) : Prop :=
  statedb s1 = statedb s2 ∧ rng s1 = rng s2 ∧ addrs s1 = addrs s2 ∧
  currentRoot s1 = currentRoot s2 ∧ total s1 = total s2 ∧
  store_calls (out s1) = store_calls (out s2).

(** Two pieces of [main] that, from states that agree, end the same way
    in states that agree; the values they return are related by [V]. *)
Definition same_run {A} (V : A → A → Prop) (c1 c2 : M A) : Prop :=
  ∀ s1 s2, agree s1 s2 →
    agree (c1 s1).2 (c2 s2).2 ∧
    match (c1 s1).1, (c2 s2).1 with
    | Val a1, Val a2 => V a1 a2
    | Returned, Returned => True
    | Panicked m1, Panicked m2 => m1 = m2
    | _, _ => False
    end.

Lemma same_run_bind {A B} (V : A → A → Prop) (W : B → B → Prop)
    (c1 c2 : M A) (k1 k2 : A → M B) :
  same_run V c1 c2 →
  (∀ a1 a2, V a1 a2 → same_run W (k1 a1) (k2 a2)) →
  same_run W (c1 ≫= k1) (c2 ≫= k2).
Proof.
  intros Hc Hk s1 s2 Hs. rewrite !bind_run.
  destruct (Hc s1 s2 Hs) as [Hs' Ho].
  destruct (c1 s1) as [[a1| |m1] s1'], (c2 s2) as [[a2| |m2] s2']; simpl in *;
    try done. by apply Hk.
Qed.

Lemma same_run_for_each l (b1 b2 : Z → M unit) :
  (∀ i, same_run (λ _ _, True) (b1 i) (b2 i)) →
  same_run (λ _ _, True) (for_each l b1) (for_each l b2).
Proof.
  intros Hb. induction l as [|i l IH]; simpl.
  - intros s1 s2 Hs. done.
  - eapply same_run_bind; [apply Hb|]. intros _ _ _. apply IH.
Qed.

Lemma store_calls_app tr1 tr2 :
  store_calls (tr1 ++ tr2) = store_calls tr1 ++ store_calls tr2.
Proof. apply filter_app. Qed.

Lemma agree_log s1 s2 e1 e2 :
  (is_print e1 = true ∧ is_print e2 = true) ∨ e1 = e2 →
  agree s1 s2 → agree (log e1 s1) (log e2 s2).
Proof.
  intros He (? & ? & ? & ? & ? & Ho). split_and!; try done. simpl.
  rewrite !store_calls_app, Ho. f_equal.
  destruct He as [[Hp1 Hp2]| ->]; [|done].
  unfold store_calls. rewrite !filter_cons, !filter_nil.
  by rewrite !decide_False by congruence.
Qed.

(** Printing, whatever the line. *)
Lemma same_run_print l1 l2 : same_run (λ _ _, True) (print l1) (print l2).
Proof.
  intros s1 s2 Hs. split; [|done]. simpl. apply agree_log; [|done]. by left.
Qed.

(** Reading the variables: the log may differ, the rest may not. *)
Lemma same_run_gets_log {A} (f1 f2 : State → A) :
  same_run (λ _ _, True) (gets f1) (gets f2).
Proof. intros s1 s2 Hs. done. Qed.

Lemma same_run_gets {A} (f : State → A) :
  (∀ s1 s2, agree s1 s2 → f s1 = f s2) → same_run eq (gets f) (gets f).
Proof. intros Hf s1 s2 Hs. split; [done|]. simpl. by apply Hf. Qed.

Lemma same_run_modify (f : State → State) :
  (∀ s1 s2, agree s1 s2 → agree (f s1) (f s2)) →
  same_run (λ _ _, True) (modify f) (modify f).
Proof. intros Hf s1 s2 Hs. split; [|done]. by apply Hf. Qed.

Lemma same_run_mret {A} (a : A) : same_run eq (mret a) (mret a).
Proof. intros s1 s2 Hs. done. Qed.

Lemma same_run_weaken {A} (V W : A → A → Prop) (c1 c2 : M A) :
  (∀ a1 a2, V a1 a2 → W a1 a2) → same_run V c1 c2 → same_run W c1 c2.
Proof.
  intros HVW Hc s1 s2 Hs. destruct (Hc s1 s2 Hs) as [? Ho]. split; [done|].
  destruct (c1 s1).1, (c2 s2).1; try done. by apply HVW.
Qed.

Lemma same_run_Intn n : same_run eq (Intn n) (Intn n).
Proof.
  intros s1 s2 Hs. unfold Intn. case_decide; [done|].
  destruct Hs as (? & Hr & ? & ? & ? & ?). rewrite Hr.
  by destruct (draw n (rng s2)).
Qed.

Lemma same_run_Read : same_run eq Read Read.
Proof.
  intros s1 s2 Hs. unfold Read.
  destruct Hs as (? & Hr & ? & ? & ? & ?). rewrite Hr.
  by destruct (fill HashLength (rng s2)).
Qed.

Lemma same_run_index {A} (l : list A) i : same_run eq (index l i) (index l i).
Proof.
  intros s1 s2 Hs. unfold index. case_decide; [|done].
  by destruct (l !! Z.to_nat i).
Qed.

Lemma same_run_call (f : Store → Store) e :
  same_run (λ _ _, True) (modify (with_statedb f);; emit e)
                         (modify (with_statedb f);; emit e).
Proof.
  intros s1 s2 Hs. split; [|done]. simpl. apply agree_log; [by right|].
  destruct Hs as (Hst & ? & ? & ? & ? & ?). split_and!; try done.
  simpl. by rewrite Hst.
Qed.

Lemma same_run_call_Commit rev : same_run eq (call_Commit rev) (call_Commit rev).
Proof.
  intros s1 s2 Hs. unfold call_Commit.
  destruct Hs as (Hst & ? & ? & ? & ? & ?). rewrite Hst.
  destruct (Commit rev (statedb s2)) as [res st]. split; [|done]. simpl.
  apply agree_log; [by right|]. by split_and!.
Qed.

Lemma same_run_call_TrieCommit root :
  same_run eq (call_TrieCommit root) (call_TrieCommit root).
Proof.
  intros s1 s2 Hs. unfold call_TrieCommit.
  destruct Hs as (Hst & ? & ? & ? & ? & ?). rewrite Hst.
  destruct (TrieCommit root (statedb s2)) as [res st]. split; [|done]. simpl.
  apply agree_log; [by right|]. by split_and!.
Qed.

Lemma same_run_return_ {A} : same_run (λ _ _ : A, True) return_ return_.
Proof. intros s1 s2 Hs. done. Qed.

(** The pieces of phase 1, under two surroundings. *)
Lemma same_run_create_slot b i addr j :
  same_run (λ _ _, True) (create_slot b i addr j) (create_slot b i addr j).
Proof.
  unfold create_slot.
  eapply same_run_bind with (V := λ _ _, True).
  { destruct b; [|apply same_run_weaken with (V := eq); [done|apply same_run_mret]].
    apply same_run_modify. intros s1 s2 (? & ? & ? & ? & Ht & ?).
    split_and!; try done. simpl. by rewrite Ht. }
  intros _ _ _. eapply same_run_bind with (V := eq).
  { unfold slot_value. eapply same_run_bind; [apply same_run_Intn|].
    intros d ? <-. repeat case_decide; try apply same_run_mret.
    apply same_run_Read. }
  intros v ? <-. apply same_run_call.
Qed.

Lemma same_run_create_account b fl i :
  same_run (λ _ _, True) (create_account b fl i) (create_account b fl i).
Proof.
  unfold create_account.
  eapply same_run_bind with (V := λ _ _, True).
  { unfold store_addr. eapply same_run_bind.
    { apply same_run_gets. by intros s1 s2 (? & ? & ? & _). }
    intros l ? <-. eapply same_run_bind; [apply same_run_index|].
    intros _ _ _. apply same_run_modify.
    intros s1 s2 (? & ? & Ha & ? & ? & ?). split_and!; try done.
    simpl. by rewrite Ha. }
  intros _ _ _. eapply same_run_bind; [apply same_run_call|].
  intros _ _ _. eapply same_run_bind; [apply same_run_call|].
  intros _ _ _. eapply same_run_bind; [apply same_run_Intn|].
  intros v ? <-. apply same_run_for_each. intros j. apply same_run_create_slot.
Qed.

Lemma same_run_commit_created env1 env2 fl i :
  same_run (λ _ _, True) (commit_created env1 fl i) (commit_created env2 fl i).
Proof.
  unfold commit_created.
  eapply same_run_bind; [apply same_run_call_Commit|].
  intros [err|root] ? <-.
  { eapply same_run_bind; [apply same_run_print|]. intros _ _ _.
    apply same_run_return_. }
  eapply same_run_bind; [apply same_run_call_TrieCommit|].
  intros [err|] ? <-.
  { eapply same_run_bind; [apply same_run_print|]. intros _ _ _.
    apply same_run_return_. }
  eapply same_run_bind with (V := λ _ _, True).
  { apply same_run_modify. intros s1 s2 (? & ? & ? & ? & ? & ?). by split_and!. }
  intros _ _ _. eapply same_run_bind; [apply same_run_gets_log|].
  intros t1 t2 _. eapply same_run_bind.
  { apply same_run_gets. by intros s1 s2 (? & ? & ? & ? & _). }
  intros cur ? <-. eapply same_run_bind; [apply same_run_print|].
  intros _ _ _. apply same_run_call.
Qed.

Lemma same_run_create_step env1 env2 b fl i :
  same_run (λ _ _, True) (create_step env1 b fl i) (create_step env2 b fl i).
Proof.
  unfold create_step.
  eapply same_run_bind; [apply same_run_create_account|].
  intros _ _ _. eapply same_run_bind with (V := λ _ _, True).
  { unfold progress. case_decide; [apply same_run_print|].
    apply same_run_weaken with (V := eq); [done|apply same_run_mret]. }
  intros _ _ _. eapply same_run_bind with (V := eq).
  { unfold at_boundary, int_rem. case_decide.
    - intros s1 s2 Hs. done.
    - eapply same_run_bind; [apply same_run_mret|]. intros x ? <-.
      apply same_run_mret. }
  intros [|] ? <-; [apply same_run_commit_created|].
  apply same_run_weaken with (V := eq); [done|apply same_run_mret].
Qed.

Lemma same_run_phase1 env1 env2 b fl :
  same_run (λ _ _, True) (phase1 env1 b fl) (phase1 env2 b fl).
Proof.
  unfold phase1.
  eapply same_run_bind; [apply same_run_print|]. intros _ _ _.
  eapply same_run_bind with (V := λ _ _, True).
  { unfold make_addrs. case_decide; [by intros s1 s2 Hs|].
    apply same_run_modify. intros s1 s2 (? & ? & ? & ? & ? & ?). by split_and!. }
  intros _ _ _. eapply same_run_bind with (V := λ _ _, True).
  { apply same_run_modify. intros s1 s2 (? & ? & ? & ? & ? & ?). by split_and!. }
  intros _ _ _. eapply same_run_bind with (V := λ _ _, True).
  { apply same_run_modify. intros s1 s2 (? & ? & ? & ? & ? & ?). by split_and!. }
  intros _ _ _. eapply same_run_bind with (V := λ _ _, True).
  { apply same_run_modify. intros s1 s2 (? & ? & ? & ? & ? & ?). by split_and!. }
  intros _ _ _. eapply same_run_bind.
  { apply same_run_for_each. intros i. apply same_run_create_step. }
  intros _ _ _. eapply same_run_bind; [apply same_run_gets_log|].
  intros t1 t2 _. eapply same_run_bind.
  { apply same_run_gets. by intros s1 s2 (? & ? & ? & ? & _). }
  intros cur ? <-. eapply same_run_bind; [apply same_run_print|].
  intros _ _ _. destruct b.
  - eapply same_run_bind.
    { apply same_run_gets. by intros s1 s2 (? & ? & ? & ? & ? & _). }
    intros n ? <-. apply same_run_print.
  - apply same_run_weaken with (V := eq); [done|apply same_run_mret].
Qed.

Lemma mutations_store_calls tr : mutations (store_calls tr) = mutations tr.
Proof.
  induction tr as [|e tr IH]; [done|].
  unfold mutations, store_calls in *. rewrite !filter_cons.
  destruct e; simpl; rewrite ?filter_cons; simpl; by rewrite IH.
Qed.

Lemma commit_roots_store_calls tr : commit_roots (store_calls tr) = commit_roots tr.
Proof.
  induction tr as [|e tr IH]; [done|].
  unfold store_calls in *. rewrite filter_cons.
  destruct e; simpl; by rewrite IH.
Qed.

Lemma run_eq {A} (c : M A) s a : (c s).1 = Val a → c s = (Val a, (c s).2).
Proof. destruct (c s). simpl. congruence. Qed.

(** ** The claim about determinism *)

(** C9. Phase 1 does not depend on the surroundings of the run: from
    the same variables (the same store, the same flags, the seed 42
    fixed by the code), two runs of phase 1 under any two clocks and
    probes end the same way, make the same calls into the store in the
    same order (the same mutations with the same addresses, balances,
    nonces, keys and values, and the same commits), get the same batch
    roots and leave the same [currentRoot] and the same store. *)
Theorem phase1_deterministic env1 env2 b fl s :
  let r1 := phase1 env1 b fl s in
  let r2 := phase1 env2 b fl s in
  r1.1 = r2.1 ∧
  store_calls (out r1.2) = store_calls (out r2.2) ∧
  mutations (out r1.2) = mutations (out r2.2) ∧
  commit_roots (out r1.2) = commit_roots (out r2.2) ∧
  currentRoot r1.2 = currentRoot r2.2 ∧
  statedb r1.2 = statedb r2.2.
Proof.
  intros r1 r2.
  destruct (same_run_phase1 env1 env2 b fl s s) as [Ha Ho]; [done|].
  fold r1 r2 in Ha, Ho. destruct Ha as (Hst & _ & _ & Hc & _ & Hcalls).
  split_and!; try done.
  - destruct r1.1 as [[]| |m1], r2.1 as [[]| |m2]; try done. by subst.
  - by rewrite <- (mutations_store_calls (out r1.2)), Hcalls, mutations_store_calls.
  - by rewrite <- (commit_roots_store_calls (out r1.2)), Hcalls,
      commit_roots_store_calls.
Qed.

End Facts.

(** * Further properties of the run *)

(** ** The size of the database directory *)

Lemma wrap_int_add_l a b : wrap_int (wrap_int a + b) = wrap_int (a + b).
Proof.
  unfold wrap_int. f_equal.
  replace ((a + 2 ^ 63) `mod` 2 ^ 64 - 2 ^ 63 + b + 2 ^ 63)
    with ((a + 2 ^ 63) `mod` 2 ^ 64 + b) by lia.
  rewrite Zplus_mod_idemp_l. f_equal. lia.
Qed.

Lemma wrap_int_id z : - 2 ^ 63 ≤ z ≤ int_max → wrap_int z = z.
Proof. unfold wrap_int, int_max. intros. rewrite Z.mod_small; lia. Qed.

Lemma sum_list_Z_perm l1 l2 : l1 ≡ₚ l2 → sum_list_Z l1 = sum_list_Z l2.
Proof. unfold sum_list_Z. induction 1; simpl; lia. Qed.

Lemma walk_entries_failed l size :
  Exists (λ v, is_failed v = true) l →
  ∃ err size', walk_entries l add_size size = (Some err, size').
Proof.
  intros H. revert size. induction H as [v l Hv|v l _ IH]; intros size.
  - destruct v as [info|info err]; [done|]. simpl. eauto.
  - destruct v as [info|info err]; simpl; [apply IH|eauto].
Qed.

Lemma wrap_int_idemp a : wrap_int (wrap_int a) = wrap_int a.
Proof.
  transitivity (wrap_int (wrap_int a + 0)); [f_equal; lia|].
  rewrite wrap_int_add_l. f_equal. lia.
Qed.

Lemma sum_list_Z_nonneg l : Forall (λ z, 0 ≤ z) l → 0 ≤ sum_list_Z l.
Proof. unfold sum_list_Z. induction 1; simpl; lia. Qed.

Lemma walk_entries_found l size :
  Forall (λ v, is_failed v = false) l → wrap_int size = size →
  walk_entries l add_size size
  = (None, wrap_int (size + sum_list_Z (file_sizes l))).
Proof.
  intros H. revert size. induction H as [|v l Hv _ IH]; intros size Hsize.
  - simpl. unfold sum_list_Z. simpl. by rewrite Z.add_0_r, Hsize.
  - destruct v as [info|info err]; [|done]. simpl.
    destruct (IsDir info); [by apply IH|].
    rewrite IH by apply wrap_int_idemp.
    rewrite wrap_int_add_l. do 2 f_equal. unfold sum_list_Z. simpl. lia.
Qed.

Lemma Exists_failed_perm l1 l2 :
  l1 ≡ₚ l2 → Exists (λ v, is_failed v = true) l1 →
  Exists (λ v, is_failed v = true) l2.
Proof. intros Hp. by rewrite Hp. Qed.

(** X1. Whatever the walk met before, an error makes the size 0: a
    directory that does not exist (the walker then calls the function
    once, with the error of [Lstat]), an entry that cannot be read. *)
Theorem getDirSize_error `{Disk} (path : string) :
  Exists (λ v, is_failed v = true) (entries path) → getDirSize path = 0.
Proof.
  intros Hf. unfold getDirSize, Walk.
  destruct (walk_entries_failed _ 0 Hf) as (err & size & ->). done.
Qed.

(** X2. Without an error the size is the sum of the sizes of the entries
    that are not directories, as an [int64]; it is the sum itself when
    the sizes are not negative and the sum fits. *)
Theorem getDirSize_sum `{Disk} (path : string) :
  Forall (λ v, is_failed v = false) (entries path) →
  getDirSize path = wrap_int (sum_list_Z (file_sizes (entries path))) ∧
  (Forall (λ z, 0 ≤ z) (file_sizes (entries path)) →
   sum_list_Z (file_sizes (entries path)) ≤ int_max →
   getDirSize path = sum_list_Z (file_sizes (entries path)) ∧
   0 ≤ getDirSize path).
Proof.
  intros Hf.
  assert (getDirSize path = wrap_int (sum_list_Z (file_sizes (entries path)))) as E.
  { unfold getDirSize, Walk.
    by rewrite (walk_entries_found _ 0 Hf). }
  split; [exact E|]. intros Hpos Hmax.
  pose proof (sum_list_Z_nonneg _ Hpos) as H0.
  rewrite E, wrap_int_id; [done|]. unfold int_max in *. lia.
Qed.

(** X3. The order in which the walker goes through the tree does not
    matter to the size. *)
Theorem getDirSize_order (d1 d2 : Disk) (path : string) :
  @entries d1 path ≡ₚ @entries d2 path →
  @getDirSize d1 path = @getDirSize d2 path.
Proof.
  intros Hp.
  destruct (decide (Exists (λ v, is_failed v = true) (@entries d1 path))) as [Hf|Hf].
  - pose proof (Exists_failed_perm _ _ Hp Hf) as Hf'.
    unfold getDirSize, Walk.
    destruct (walk_entries_failed _ 0 Hf) as (err & size & ->).
    by destruct (walk_entries_failed _ 0 Hf') as (err' & size' & ->).
  - assert (Forall (λ v, is_failed v = false) (@entries d1 path)) as H1.
    { apply Forall_forall. intros v Hv. destruct (is_failed v) eqn:E; [|done].
      destruct Hf. apply Exists_exists. eauto. }
    assert (Forall (λ v, is_failed v = false) (@entries d2 path)) as H2.
    { by rewrite <- Hp. }
    unfold getDirSize, Walk.
    rewrite (walk_entries_found _ 0 H1), (walk_entries_found _ 0 H2) by done.
    do 2 f_equal. apply sum_list_Z_perm. unfold file_sizes. by rewrite Hp.
Qed.

(** ** The labels *)

(** The characters of a string. *)
Definition chars (s : string) : list Ascii.ascii := list_ascii_of_string s.

Lemma chars_app s1 s2 : chars (s1 +:+ s2) = chars s1 ++ chars s2.
Proof. induction s1 as [|c s1 IH]; simpl; [done|]. by rewrite IH. Qed.

Lemma chars_inj s1 s2 : chars s1 = chars s2 → s1 = s2.
Proof.
  intros H. rewrite <- (string_of_list_ascii_of_string s1),
    <- (string_of_list_ascii_of_string s2). unfold chars in H. by rewrite H.
Qed.

Lemma label_bytes_inj s1 s2 : label_bytes s1 = label_bytes s2 → s1 = s2.
Proof.
  intros H. rewrite <- (string_of_list_byte_of_string s1),
    <- (string_of_list_byte_of_string s2). unfold label_bytes in H. by rewrite H.
Qed.

(** The minus sign, and a character other than it. *)
Definition dash : Ascii.ascii :=
  Ascii.Ascii true false true true false true false false.

Definition no_dash (c : Ascii.ascii) : Prop := c ≠ dash.

Lemma pretty_N_char_no_dash x : no_dash (pretty_N_char x).
Proof. unfold no_dash, pretty_N_char. by repeat case_match. Qed.

(** The digits that [%d] prints hold no minus sign. *)
Lemma pretty_N_go_chars x s :
  ∃ d, chars (pretty_N_go x s) = d ++ chars s ∧ Forall no_dash d ∧
       ((0 < x)%N → d ≠ []).
Proof.
  revert s. induction (N.lt_wf_0 x) as [x _ IH]; intros s.
  assert (x = 0 ∨ 0 < x)%N as [->|Hx] by lia.
  - exists []. rewrite pretty_N_go_0. split_and!; [done|done|lia].
  - rewrite pretty_N_go_step by done.
    destruct (IH (x `div` 10)%N ltac:(by apply N.div_lt)
                (String (pretty_N_char (x `mod` 10)) s)) as (d & Hd & Hall & _).
    exists (d ++ [pretty_N_char (x `mod` 10)%N]). split_and!.
    + rewrite Hd. simpl. by rewrite <- app_assoc.
    + apply Forall_app. split; [done|].
      constructor; [apply pretty_N_char_no_dash|done].
    + intros _. by destruct d.
Qed.

(** A number printed by [%d]: a first character, then digits. *)
Lemma pretty_Z_chars (z : Z) :
  ∃ c d, chars (pretty z) = c :: d ∧ Forall no_dash d.
Proof.
  assert (∀ p, ∃ c d, chars (pretty (Npos p)) = c :: d ∧ Forall no_dash (c :: d))
    as Hpos.
  { intros p. unfold pretty, pretty_N. rewrite decide_False by done.
    destruct (pretty_N_go_chars (N.pos p) "") as (d & Hd & Hall & Hne).
    simpl in Hd. rewrite app_nil_r in Hd.
    destruct d as [|c d]; [by destruct Hne|]. eauto. }
  destruct z as [|p|p].
  - exists (Ascii.Ascii false false false false true true false false), [].
    by split.
  - destruct (Hpos p) as (c & d & Hd & Hall). exists c, d. split; [done|].
    by inversion Hall.
  - destruct (Hpos p) as (c & d & Hd & Hall). exists dash, (c :: d).
    split; [|done]. unfold pretty, pretty_Z. rewrite chars_app. simpl.
    by f_equal.
Qed.

(** Two strings of digits, each followed by a minus sign: the digits
    end at the same place. *)
Lemma split_at_dash (a a' X X' : list Ascii.ascii) :
  Forall no_dash a → Forall no_dash a' →
  a ++ dash :: X = a' ++ dash :: X' → a = a' ∧ X = X'.
Proof.
  intros Ha. revert a'. induction Ha as [|c a Hc _ IH]; intros a' Ha' H.
  - destruct Ha' as [|c' a' Hc' _]; simpl in H; [by simplify_eq|].
    injection H as <- _. by destruct Hc'.
  - destruct Ha' as [|c' a' Hc' Ha']; simpl in H.
    + injection H as -> _. by destruct Hc.
    + injection H as <- H. destruct (IH _ Ha' H) as [-> ->]. done.
Qed.

(** Two numbers printed by [%d], each followed by the same text that
    starts with a minus sign. *)
Lemma pretty_before_dash (i i' : Z) (X X' : list Ascii.ascii) :
  chars (pretty i) ++ dash :: X = chars (pretty i') ++ dash :: X' →
  i = i' ∧ X = X'.
Proof.
  destruct (pretty_Z_chars i) as (c & d & Hi & Hd).
  destruct (pretty_Z_chars i') as (c' & d' & Hi' & Hd').
  intros H. pose proof H as H'. rewrite Hi, Hi' in H'. simpl in H'.
  injection H' as Hc H'.
  destruct (split_at_dash _ _ _ _ Hd Hd' H') as [-> ->].
  split; [|done]. apply (inj pretty), chars_inj. congruence.
Qed.

(** X4. The labels that are hashed tell the accounts and the slots apart:
    two accounts have different labels, and so have two slots unless
    they are the same slot of the same account ("include account
    index i to ensure slots are unique across different accounts").
    The addresses and the keys are then as distinct as the digest
    makes them. *)
Theorem labels_are_distinct b i j i' j' :
  (label_bytes (account_label i) = label_bytes (account_label i') ↔ i = i') ∧
  (label_bytes (slot_label b i j) = label_bytes (slot_label b i' j')
   ↔ i = i' ∧ j = j').
Proof.
  split; (split; [|by intros; destruct_and?; simplify_eq]); intros H%label_bytes_inj.
  - unfold account_label in H. apply (f_equal chars) in H.
    rewrite !chars_app in H. apply app_inv_head in H.
    apply (inj pretty), chars_inj, H.
  - assert (chars (pretty i) ++ chars "-slot-" ++ chars (pretty j)
            = chars (pretty i') ++ chars "-slot-" ++ chars (pretty j')) as H'.
    { apply (f_equal chars) in H. unfold slot_label in H.
      destruct b; rewrite !chars_app in H; by apply app_inv_head in H. }
    apply pretty_before_dash in H' as [-> H'].
    split; [done|]. apply (inj pretty), chars_inj. by simplify_eq.
Qed.

(** ** Panics *)

(** Whether a piece of [main] ended in a panic. *)
Definition panicked {A} (o : Outcome A) : bool :=
  match o with Panicked _ => true | _ => false end.

Section Further.
Context `{HS : Hasher} `{RS : RandSource} `{SS : StateStore}.

Tactic Notation "mstep" uconstr(H) := erewrite (bind_Val_l _ _ _ _ _ H).

(** ** Flags under which nothing panics *)

Lemma slot_range_sane fl : 1 ≤ nSlots fl < 2 ^ 62 → slot_range fl = nSlots fl * 2.
Proof. intros. unfold slot_range. apply wrap_int_id. unfold int_max. lia. Qed.

Definition no_panic (o : Outcome unit) (s : State) : Prop := panicked o = false.

Definition sized (n : nat) (s : State) : Prop := length (addrs s) = n.

Lemma create_step_safe env b fl i s :
  0 ≤ i → (Z.to_nat i < length (addrs s))%nat → 0 < slot_range fl →
  kCommit fl ≠ 0 →
  wp (create_step env b fl i) (loop_post (sized (length (addrs s))) no_panic) s.
Proof.
  intros Hi Hlt Hr Hk. unfold create_step.
  destruct (create_account_run b fl i s Hi Hlt Hr) as (sa & Ha & _ & _ & Haddr & _).
  eapply wp_step; [exact Ha|].
  destruct (progress_run LProcessed (nAccounts fl) i sa)
    as (s2 & H2 & _ & _ & Ha2 & _).
  eapply wp_step; [exact H2|].
  eapply wp_step; [by apply at_boundary_run|].
  assert (sized (length (addrs s)) s2) as Hs2.
  { unfold sized. by rewrite Ha2, Haddr, length_insert. }
  case_bool_decide; [|exact Hs2].
  unfold wp.
  destruct (commit_created_outcome env fl i s2) as (_ & Ha3 & Hc).
  destruct Hc as [(err & -> & _)|[(root & err & -> & _)|(root & line & -> & _)]];
    [done..|].
  unfold loop_post, sized. by rewrite Ha3.
Qed.

Lemma phase1_safe env b fl s :
  0 ≤ nAccounts fl → 20 * nAccounts fl ≤ maxAlloc →
  0 < slot_range fl → kCommit fl ≠ 0 →
  wp (phase1 env b fl) (loop_post (sized (Z.to_nat (nAccounts fl))) no_panic) s.
Proof.
  intros Hn Hmem Hr Hk. unfold phase1.
  eapply wp_step; [apply print_run|].
  eapply wp_step; [by apply make_addrs_run|].
  do 3 (eapply wp_step; [apply modify_run|]).
  apply wp_bind. eapply wp_mono.
  { apply (wp_for_each (sized (Z.to_nat (nAccounts fl))) no_panic).
    - unfold sized. simpl. apply length_replicate.
    - intros i s' Hi%elem_of_seqZ Hs'. unfold sized in Hs'.
      rewrite <- Hs'. apply create_step_safe; [lia|lia|done|done]. }
  intros [[]| |msg] s' Hs'; simpl; try done.
  eapply wp_step; [apply gets_run|]. eapply wp_step; [apply gets_run|].
  eapply wp_step; [apply print_run|].
  destruct b; [eapply wp_step; [apply gets_run|]|]; exact Hs'.
Qed.

Lemma modify_step_safe env b fl m perm i idx s :
  0 ≤ i → perm !! Z.to_nat i = Some idx →
  0 ≤ idx → (Z.to_nat idx < length (addrs s))%nat →
  0 < nSlots fl → kCommit fl ≠ 0 →
  wp (modify_step env b fl m perm i)
     (loop_post (sized (length (addrs s))) no_panic) s.
Proof.
  intros Hi Hp Hidx Hlt Hn Hk. unfold modify_step.
  destruct (lookup_lt_is_Some_2 _ _ Hlt) as [addr Haddr].
  destruct (modify_account_run b fl perm i idx addr s Hi Hp Hidx Haddr Hn)
    as (sa & Ha & (_ & _ & _ & _ & _ & _ & _ & _ & _ & [Haa _])).
  eapply wp_step; [exact Ha|].
  destruct (progress_run LModified m i sa) as (s2 & H2 & _ & _ & Ha2 & _).
  eapply wp_step; [exact H2|].
  eapply wp_step; [by apply at_boundary_run|].
  assert (sized (length (addrs s)) s2) as Hs2.
  { unfold sized. by rewrite Ha2, Haa. }
  case_bool_decide; [|exact Hs2].
  unfold wp.
  destruct (commit_modified_outcome env fl i s2) as (_ & Ha3 & Hc).
  destruct Hc as [(err & -> & _)|[(root & err & -> & _)|(root & line & -> & _)]];
    [done..|].
  unfold loop_post, sized. by rewrite Ha3.
Qed.

Lemma phase2_safe env b fl s :
  0 ≤ nAccounts fl → 0 < nSlots fl → kCommit fl ≠ 0 →
  sized (Z.to_nat (nAccounts fl)) s →
  wp (phase2 env b fl) no_panic s.
Proof.
  intros Hn Hslots Hk Hs. unfold phase2.
  eapply wp_step; [apply print_run|].
  destruct (reset_total_run b (log (EPrint (LPhase2 (clamp_modify fl) (kCommit fl))) s))
    as (s1 & H1 & _ & _ & [Ha1 _] & _).
  eapply wp_step; [exact H1|].
  eapply wp_step; [apply modify_run|].
  eapply wp_step; [by apply Perm_run|].
  apply wp_bind. eapply wp_mono.
  { apply (wp_for_each (sized (Z.to_nat (nAccounts fl))) no_panic).
    - unfold sized in *. simpl. by rewrite Ha1.
    - intros i s' Hi%elem_of_seqZ Hs'. unfold sized in Hs'.
      pose proof (clamp_modify_le fl) as Hm.
      destruct (shuffle_lookup (nAccounts fl) (NewSource (unixNano env)) (Z.to_nat i))
        as (idx & Hidx & Hrange); [lia|].
      rewrite <- Hs'. eapply modify_step_safe; [lia|exact Hidx|lia|lia|done|done]. }
  intros [[]| |msg] s' Hs'; simpl; try done.
  eapply wp_step; [apply gets_run|]. eapply wp_step; [apply gets_run|].
  eapply wp_step; [apply print_run|].
  destruct b; [eapply wp_step; [apply gets_run|]|]; done.
Qed.

(** X5. With a number of accounts that is not negative and whose
    addresses can be allocated (20 bytes each, at most [maxAlloc]), a
    slot count from 1 to [2^62 - 1] and a batch size other than 0,
    none of the operations of [main] panics, on any store whose calls
    return (those of the interface: every [state.New] yields a
    [statedb] that can be used), whatever the commits answer and
    whatever the random sources and the clock give: the allocation of
    line 67 is within its bounds, the slices [addrs] and [perm] are
    indexed within theirs, [Intn] gets a positive argument and the
    remainder a divisor other than 0. The run ends normally or returns
    after a failed commit or a database that did not open. *)
Theorem sane_flags_never_panic env b fl :
  0 ≤ nAccounts fl → 20 * nAccounts fl ≤ maxAlloc →
  1 ≤ nSlots fl < 2 ^ 62 → kCommit fl ≠ 0 →
  panicked (main env b fl).1.1 = false.
Proof.
  intros Hn Hmem Hslots Hk. unfold main.
  destruct (OpenStore b (dbPath fl) (clearDB fl)) as [err|st]; [done|].
  assert (0 < slot_range fl) as Hr by (rewrite slot_range_sane; lia).
  assert (wp (phases env b fl) no_panic (init_state b fl st)) as H.
  { unfold phases. apply wp_bind.
    eapply wp_mono; [by apply phase1_safe|].
    intros [[]| |msg] s1 Hs1; simpl; try done.
    apply wp_bind. eapply wp_mono; [apply phase2_safe; [done|lia|done|exact Hs1]|].
    intros [[]| |msg] s2 Hs2; simpl; try done. }
  unfold wp, no_panic in H.
  by destruct (phases env b fl (init_state b fl st)).
Qed.

(** ** The calls into the store of a piece of the log *)

Lemma store_calls_prints (ls : list Line) : store_calls (EPrint <$> ls) = [].
Proof. by induction ls. Qed.

Lemma store_calls_progress line total i :
  store_calls (progress_events line total i) = [].
Proof. unfold progress_events. by case_decide. Qed.

Lemma store_calls_mutations tr :
  Forall (λ e, is_mutation e = true) tr → store_calls tr = tr.
Proof.
  induction 1 as [|e tr He _ IH]; [done|].
  unfold store_calls in *. rewrite filter_cons, decide_True; [by rewrite IH|].
  by destruct e.
Qed.

Lemma store_calls_account_events b i vs :
  store_calls (account_events b i vs) = account_events b i vs.
Proof.
  apply store_calls_mutations. unfold account_events.
  do 2 (constructor; [done|]). by apply Forall_imap.
Qed.

Lemma store_calls_init b fl st : store_calls (out (init_state b fl st)) = [].
Proof. unfold init_state, prologue. simpl. by destruct (clearDB fl). Qed.

(** ** A batch size of 0 *)

Lemma create_step_zero_batch env b fl i s :
  kCommit fl = 0 → 0 ≤ i → (Z.to_nat i < length (addrs s))%nat →
  0 < slot_range fl →
  ∃ s', create_step env b fl i s = (Panicked "integer divide by zero", s') ∧
    out s' = out s ++ account_events b i (gen_account (slot_range fl) (rng s)).1
               ++ progress_events LProcessed (nAccounts fl) i.
Proof.
  intros Hk Hi Hlt Hr. unfold create_step.
  destruct (create_account_run b fl i s Hi Hlt Hr) as (sa & Ha & Ho & _).
  mstep Ha.
  destruct (progress_run LProcessed (nAccounts fl) i sa) as (s2 & H2 & Ho2 & _).
  mstep H2. rewrite Hk.
  rewrite (bind_Panicked_l _ _ _ _ _ (at_boundary_panics (nAccounts fl) i s2)).
  exists s2. split; [done|]. by rewrite Ho2, Ho, <- app_assoc.
Qed.

Lemma phase1_zero_batch env b fl s :
  kCommit fl = 0 → 1 ≤ nAccounts fl → 20 * nAccounts fl ≤ maxAlloc →
  0 < slot_range fl →
  ∃ s', phase1 env b fl s = (Panicked "integer divide by zero", s') ∧
    out s' = out s ++
      [EPrint (LPhase1 (nAccounts fl) (nSlots fl) (kCommit fl))] ++
      account_events b 0 (gen_account (slot_range fl) (NewSource 42)).1 ++
      progress_events LProcessed (nAccounts fl) 0.
Proof.
  intros Hk Hn Hmem Hr. assert (0 ≤ nAccounts fl) as Hn0 by lia.
  unfold phase1. mstep (print_run _ _). mstep (make_addrs_run _ _ Hn0 Hmem).
  do 3 mstep (modify_run _ _).
  unfold for_range. rewrite Z.sub_0_r, seqZ_cons by lia.
  lazymatch goal with |- ex (λ _, _ ?s0 = _ ∧ _) =>
    destruct (create_step_zero_batch env b fl 0 s0) as (s1 & H1 & Ho1) end;
    [done|done| |done|].
  { simpl. rewrite length_replicate. lia. }
  apply (for_each_head_panics _ (seqZ 1 (Z.pred (nAccounts fl)))) in H1.
  rewrite (bind_Panicked_l _ _ _ _ _ H1).
  exists s1. split; [done|]. rewrite Ho1. simpl. by rewrite <- app_assoc.
Qed.

(** X6. With a batch size of 0 the test [(i+1) % batchSize] divides by
    zero. With at least one account, and no more than line 67 can
    allocate addresses for (and a slot count that lets the first draw
    through), [main] panics there, at the end of the first turn of the
    loop of phase 1: account 0 was created in full, and nothing was
    committed. *)
Theorem zero_batch_size_panics env b fl st :
  kCommit fl = 0 → 1 ≤ nAccounts fl → 20 * nAccounts fl ≤ maxAlloc →
  1 ≤ nSlots fl < 2 ^ 62 →
  OpenStore b (dbPath fl) (clearDB fl) = inr st →
  ∃ s', main env b fl = (Panicked "integer divide by zero", out s', Some s') ∧
    store_calls (out s')
    = account_events b 0 (gen_account (nSlots fl * 2) (NewSource 42)).1.
Proof.
  intros Hk Hn Hmem Hslots Hopen. rewrite (main_opened _ _ _ _ Hopen).
  pose proof (slot_range_sane fl Hslots) as Hrange.
  destruct (phase1_zero_batch env b fl (init_state b fl st)) as (s' & H1 & Ho);
    [done|done|done|lia|].
  unfold phases. rewrite (bind_Panicked_l _ _ _ _ _ H1). simpl.
  exists s'. split; [done|]. rewrite Ho, <- Hrange.
  rewrite !store_calls_app, store_calls_init, store_calls_account_events,
    store_calls_progress. simpl. by rewrite app_nil_r.
Qed.

(** ** A slot count out of range *)

Lemma slot_range_not_positive fl :
  - 2 ^ 62 ≤ nSlots fl ≤ int_max → ¬ (1 ≤ nSlots fl < 2 ^ 62) →
  slot_range fl ≤ 0.
Proof.
  unfold slot_range, wrap_int, int_max. intros Hs Hn.
  destruct (decide (nSlots fl ≤ 0)).
  - rewrite Z.mod_small by lia. lia.
  - replace (nSlots fl * 2 + 2 ^ 63)
      with ((nSlots fl * 2 - 2 ^ 63) + 1 * 2 ^ 64) by lia.
    rewrite Z_mod_plus_full, Z.mod_small by lia. lia.
Qed.

(** X7. The range of the slot count of an account is [*nSlots * 2], an
    [int]. From [2^62] on the product wraps around to a negative
    number, so that for a slot count from [-2^62] to [2^63 - 1] other
    than one from 1 to [2^62 - 1] the first draw of phase 1 panics: the
    run with at least one account, and no more than line 67 can
    allocate addresses for, stops after the balance and the nonce of
    account 0, with nothing committed. *)
Theorem slot_count_out_of_range env b fl st :
  - 2 ^ 62 ≤ nSlots fl ≤ int_max → ¬ (1 ≤ nSlots fl < 2 ^ 62) →
  1 ≤ nAccounts fl → 20 * nAccounts fl ≤ maxAlloc →
  OpenStore b (dbPath fl) (clearDB fl) = inr st →
  wrap_int (nSlots fl * 2) ≤ 0 ∧
  ∃ s', main env b fl = (Panicked "invalid argument to Intn", out s', Some s') ∧
    store_calls (out s')
    = [ESetBalance (account_addr 0) (10 ^ 18); ESetNonce (account_addr 0) 0].
Proof.
  intros Hs Hnot Hn Hmem Hopen.
  pose proof (slot_range_not_positive fl Hs Hnot) as Hr.
  split; [exact Hr|]. rewrite (main_opened _ _ _ _ Hopen).
  destruct (phase1_panics_at_first_draw env b fl (init_state b fl st) Hr Hn Hmem)
    as (s1 & H1 & Ho1).
  unfold phases. rewrite (bind_Panicked_l _ _ _ _ _ H1). simpl.
  exists s1. split; [done|]. rewrite Ho1.
  by rewrite store_calls_app, store_calls_init.
Qed.

(** ** Nothing to create, nothing to modify *)

Lemma phase1_empty env b fl s :
  nAccounts fl = 0 →
  ∃ s' ls, phase1 env b fl s = (Val tt, s') ∧
    out s' = out s ++ (EPrint <$> ls) ∧
    statedb s' = statedb s ∧ currentRoot s' = zeroHash ∧ addrs s' = [] ∧
    LCreationFinished (elapsed env (S (length (out s)))) zeroHash ∈ ls.
Proof.
  intros Hn. unfold phase1. rewrite Hn.
  mstep (print_run _ _). mstep (make_addrs_run 0 _ ltac:(done) ltac:(by compute)).
  do 3 mstep (modify_run _ _).
  unfold for_range. simpl for_each. rewrite bind_run. simpl.
  destruct b; eexists; [eexists [_; _; _]|eexists [_; _]];
    (split; [reflexivity|]); simpl; rewrite <- ?app_assoc;
    (split_and!; [reflexivity|done|done|done|]);
    rewrite length_app; simpl; rewrite Nat.add_1_r;
    apply list_elem_of_further, list_elem_of_here.
Qed.

Lemma phase2_idle env b fl s :
  0 ≤ nAccounts fl → clamp_modify fl ≤ 0 →
  ∃ s' ls, phase2 env b fl s = (Val tt, s') ∧
    out s' = out s ++ (EPrint <$> ls) ∧
    statedb s' = statedb s ∧ currentRoot s' = currentRoot s ∧
    addrs s' = addrs s ∧
    LModificationFinished (elapsed env (S (length (out s)))) (currentRoot s) ∈ ls.
Proof.
  intros Hn Hm. unfold phase2.
  mstep (print_run _ _).
  lazymatch goal with |- ex (λ _, ex (λ _, _ ?s0 = _ ∧ _)) =>
    destruct (reset_total_run b s0) as (s1 & H1 & Ho1 & _ & [Ha1 Hc1] & Hst1) end.
  mstep H1. mstep (modify_run _ _). mstep (Perm_run _ _ Hn).
  unfold for_range. rewrite seqZ_nil by lia. simpl for_each.
  rewrite bind_run. simpl.
  destruct b; eexists; [eexists [_; _; _]|eexists [_; _]];
    (split; [reflexivity|]); simpl;
    rewrite Ho1, Hst1, Hc1, Ha1; simpl; rewrite <- ?app_assoc;
    (split_and!; [reflexivity|done|done|done|]);
    rewrite length_app; simpl; rewrite Nat.add_1_r;
    apply list_elem_of_further, list_elem_of_here.
Qed.

(** X8. When no account is to be modified, because [m] is not positive or
    because there is no account, phase 2 makes no call into the store,
    whatever the slot count and the batch size (0 included): it prints
    its lines, the last root among them, and leaves the store, the
    root and the addresses as they were. *)
Theorem nothing_to_modify env b fl s :
  0 ≤ nAccounts fl → mModify fl ≤ 0 ∨ nAccounts fl = 0 →
  ∃ s', phase2 env b fl s = (Val tt, s') ∧
    store_calls (since s s') = [] ∧
    statedb s' = statedb s ∧ currentRoot s' = currentRoot s ∧
    addrs s' = addrs s ∧
    ∃ t, EPrint (LModificationFinished t (currentRoot s)) ∈ since s s'.
Proof.
  intros Hn Hm.
  assert (clamp_modify fl ≤ 0) as Hc.
  { pose proof (clamp_modify_le fl). unfold clamp_modify in *. case_decide; lia. }
  destruct (phase2_idle env b fl s Hn Hc) as (s' & ls & H & Ho & Hst & Hr & Ha & Hl).
  exists s'. rewrite (since_app _ _ _ Ho).
  split_and!; [done|apply store_calls_prints|done..|].
  eexists. apply list_elem_of_fmap. eauto.
Qed.

(** X9. With no account at all, [main] runs to its end without a single
    call into the store, whatever the other flags (a slot count or a
    batch size of 0 included): both phases report the zero root. *)
Theorem no_accounts_run env b fl st :
  nAccounts fl = 0 →
  OpenStore b (dbPath fl) (clearDB fl) = inr st →
  ∃ s', main env b fl = (Val tt, out s', Some s') ∧
    store_calls (out s') = [] ∧ statedb s' = st ∧ currentRoot s' = zeroHash ∧
    ∃ t1 t2, EPrint (LCreationFinished t1 zeroHash) ∈ out s' ∧
             EPrint (LModificationFinished t2 zeroHash) ∈ out s'.
Proof.
  intros Hn Hopen. rewrite (main_opened _ _ _ _ Hopen).
  destruct (phase1_empty env b fl (init_state b fl st) Hn)
    as (s1 & ls1 & H1 & Ho1 & Hst1 & Hr1 & _ & Hl1).
  destruct (phase2_idle env b fl s1) as (s2 & ls2 & H2 & Ho2 & Hst2 & Hr2 & _ & Hl2).
  { lia. } { pose proof (clamp_modify_le fl). lia. }
  unfold phases. mstep H1. mstep H2. unfold report.
  mstep (gets_run _ _). rewrite print_run. simpl.
  exists (log (EPrint (LFinalReport (dbPath fl) (dirSize env (length (out s2))))) s2).
  split; [reflexivity|]. simpl. rewrite Ho2, Ho1, Hst2, Hst1, Hr2, Hr1.
  rewrite !store_calls_app, store_calls_init, !store_calls_prints.
  split_and!; [done..|]. rewrite Hr1 in Hl2.
  eexists _, _. split.
  - rewrite !elem_of_app. left; left; right. apply list_elem_of_fmap. eauto.
  - rewrite !elem_of_app. left; right. apply list_elem_of_fmap. eauto.
Qed.

(** ** The number of batches *)

(** The number of batches of [k] units among [n] units, the last one
    possibly shorter. *)
Definition batches (k n : Z) : Z := (n + k - 1) `div` k.

Lemma div_succ k t :
  0 < k → 0 ≤ t →
  (t + 1) `div` k = if decide ((t + 1) `mod` k = 0) then t `div` k + 1 else t `div` k.
Proof.
  intros Hk Ht.
  pose proof (Z.div_mod t k ltac:(lia)) as E.
  pose proof (Z.mod_pos_bound t k Hk) as Hr.
  destruct (decide (t `mod` k + 1 = k)) as [Hlast|Hlast].
  - assert ((t + 1) `mod` k = 0) as ->.
    { symmetry. apply (Z.mod_unique _ _ (t `div` k + 1)); lia. }
    rewrite decide_True by done.
    symmetry. apply (Z.div_unique _ _ _ 0); lia.
  - assert ((t + 1) `mod` k = t `mod` k + 1) as ->.
    { symmetry. apply (Z.mod_unique _ _ (t `div` k)); lia. }
    rewrite decide_False by lia.
    symmetry. apply (Z.div_unique _ _ _ (t `mod` k + 1)); lia.
Qed.

Lemma seqZ_one m : seqZ m 1 = [m].
Proof. reflexivity. Qed.

Lemma multiples_div k (t : nat) :
  0 < k →
  (λ i, i `div` k) <$> filter (λ i, (i + 1) `mod` k = 0) (seqZ 0 (Z.of_nat t))
  = seqZ 0 (Z.of_nat t `div` k).
Proof.
  intros Hk. induction t as [|t IH]; [by rewrite Z.div_0_l by lia|].
  rewrite seqZ_S, Z.add_0_l, filter_app, fmap_app, IH.
  replace (Z.of_nat (S t)) with (Z.of_nat t + 1) by lia.
  rewrite (div_succ k (Z.of_nat t)) by lia.
  assert (0 ≤ Z.of_nat t `div` k) by (apply Z.div_pos; lia).
  rewrite filter_cons, filter_nil. case_decide.
  - simpl. rewrite seqZ_app by lia. by rewrite seqZ_one.
  - by rewrite app_nil_r.
Qed.

Lemma filter_ext_Forall {X} (P Q : X → Prop) `{∀ x, Decision (P x)}
    `{∀ x, Decision (Q x)} (l : list X) :
  Forall (λ x, P x ↔ Q x) l → filter P l = filter Q l.
Proof.
  induction 1 as [|x l Hx _ IH]; [done|].
  rewrite !filter_cons, IH. by repeat case_decide; try tauto.
Qed.

Lemma boundaries_last k n :
  1 ≤ n →
  boundaries k n = filter (λ i, (i + 1) `mod` k = 0) (seqZ 0 (n - 1)) ++ [n - 1].
Proof.
  intros Hn. unfold boundaries.
  replace n with ((n - 1) + 1) at 1 by lia.
  rewrite seqZ_app by lia. rewrite filter_app. f_equal.
  - apply filter_ext_Forall. apply Forall_seqZ. intros i Hi.
    unfold is_boundary. rewrite bool_decide_eq_true. intuition lia.
  - rewrite seqZ_one.
    rewrite filter_cons, filter_nil, decide_True; [done|].
    unfold is_boundary. rewrite bool_decide_eq_true. right. lia.
Qed.

Lemma batches_succ k n : 0 < k → batches k n = (n - 1) `div` k + 1.
Proof.
  intros Hk. unfold batches.
  replace (n + k - 1) with ((n - 1) + 1 * k) by lia.
  by rewrite Z.div_add by lia.
Qed.

Lemma batches_none k n : 0 < k → n ≤ 0 → batches k n ≤ 0.
Proof.
  intros Hk Hn. rewrite batches_succ by done.
  assert ((n - 1) `div` k < 0); [|lia].
  apply Z.div_lt_upper_bound; lia.
Qed.

(** The batch numbers [i / k] at the boundaries are 0, 1, 2, ... *)
Lemma boundaries_div k n :
  0 < k → (λ i, i `div` k) <$> boundaries k n = seqZ 0 (batches k n).
Proof.
  intros Hk. destruct (decide (1 ≤ n)) as [Hn|Hn].
  - rewrite boundaries_last, fmap_app, batches_succ by done.
    replace (n - 1) with (Z.of_nat (Z.to_nat (n - 1))) at 1 by lia.
    rewrite multiples_div by done.
    replace (Z.of_nat (Z.to_nat (n - 1))) with (n - 1) by lia.
    assert (0 ≤ (n - 1) `div` k) by (apply Z.div_pos; lia).
    rewrite seqZ_app by lia. by rewrite seqZ_one.
  - unfold boundaries. rewrite seqZ_nil by lia.
    rewrite seqZ_nil; [done|]. apply batches_none; lia.
Qed.

Lemma fmap_boundaries (rev f : Z → Z) k n :
  0 < k → (∀ i, 0 ≤ i < n → rev i = f (i `div` k)) →
  rev <$> boundaries k n = f <$> seqZ 0 (batches k n).
Proof.
  intros Hk Hrev. rewrite <- boundaries_div by done.
  rewrite <- list_fmap_compose. apply Forall_fmap_ext_1, Forall_forall.
  intros i (Hi & _)%elem_of_boundaries. simpl. by apply Hrev.
Qed.

(** X10. For a batch size [k] of at least 1, the revisions handed to
    [Commit] are consecutive block numbers without a gap or a repeat:
    0, 1, ... in phase 1, one for each of the [⌈n / k⌉] batches, and
    1000000, 1000001, ... in phase 2, one for each of the
    [⌈m / k⌉] batches of the clamped [m]. *)
Theorem revisions_are_consecutive env b fl s s1 s2 :
  1 ≤ kCommit fl → nAccounts fl ≤ int_max →
  phase1 env b fl s = (Val tt, s1) →
  phase2 env b fl s1 = (Val tt, s2) →
  commit_revisions (since s s1)
    = seqZ 0 (batches (kCommit fl) (nAccounts fl)) ∧
  commit_revisions (since s1 s2)
    = seqZ 1000000 (batches (kCommit fl) (clamp_modify fl)).
Proof.
  intros Hk Hmax H1 H2. assert (0 < kCommit fl) as Hk' by lia.
  pose proof (clamp_modify_le fl) as Hm.
  rewrite (phase1_commit_revisions _ _ _ _ _ Hk' H1).
  rewrite (phase2_commit_revisions _ _ _ _ _ Hk' H2).
  unfold phase1_revisions, phase2_revisions. fold (clamp_modify fl). split.
  - rewrite (fmap_boundaries _ id); [apply list_fmap_id|done|].
    intros i Hi. apply revision1_div; lia.
  - rewrite (fmap_boundaries _ (Z.add 1000000)).
    + by rewrite fmap_add_seqZ.
    + done.
    + intros i Hi. rewrite revision2_div by lia. unfold phaseOffset. lia.
Qed.

(** ** A negative batch size *)

(** The test of the loops, for a negative batch size: the remainder
    has the sign of the dividend, so that the boundaries are those of
    the absolute value. *)
Lemma boundary_test_neg k total i :
  k < 0 → 0 ≤ i →
  bool_decide ((i + 1) `rem` k = 0 ∨ i + 1 = total) = is_boundary (- k) total i.
Proof.
  intros Hk Hi. unfold is_boundary.
  assert ((i + 1) `rem` k = (i + 1) `mod` (- k)) as ->; [|done].
  rewrite <- (Z.rem_opp_r' (i + 1) k). apply rem_mod_nonneg; lia.
Qed.

Lemma schedule_unit_trace_neg is_unit body line rev k total i tr (u : nat) :
  (∀ l, is_unit (EPrint l) = false) →
  (∀ root res, is_unit (ETrieCommit root res) = false) →
  (∀ root, is_unit (EStateNew root) = false) →
  k < 0 → 0 ≤ i →
  schedule is_unit body = replicate u (inl ()) →
  unit_trace body line rev k total i tr →
  schedule is_unit tr =
    replicate u (inl ()) ++ if is_boundary (- k) total i then [inr (rev i)] else [].
Proof.
  intros Hp Ht Hn Hk Hi Hbody (cut & -> & Hcut).
  rewrite !schedule_app, Hbody, schedule_progress by done. simpl.
  rewrite boundary_test_neg in Hcut by done.
  destruct (is_boundary (- k) total i).
  - destruct Hcut as (root & batch & ->). by rewrite schedule_cut.
  - by subst cut.
Qed.

Lemma phase1_schedule_neg env b fl s s1 :
  kCommit fl < 0 →
  phase1 env b fl s = (Val tt, s1) →
  schedule is_nonce (since s s1)
  = scheduled 1 (revision1 (kCommit fl)) (- kCommit fl) (nAccounts fl).
Proof.
  intros Hk (s0 & s' & (Hn & Ho0 & _) & Hsteps & (ls & Ho1 & _))%phase1_Val.
  destruct (steps_trace (created_trace b fl) _ _ _ _
              (created_has_trace b fl) Hsteps) as (trs & Ho & HT).
  rewrite (since_app s s1 ([EPrint (LPhase1 (nAccounts fl) (nSlots fl) (kCommit fl))]
                           ++ concat trs ++ (EPrint <$> ls))).
  2: { rewrite Ho1, Ho, Ho0, <- !app_assoc. done. }
  rewrite !schedule_app, schedule_prints by done. simpl. rewrite app_nil_r.
  unfold scheduled. eapply omap_concat_Forall2; [|exact HT].
  intros i tr Hi%elem_of_seqZ (vs & _ & Htr).
  eapply (schedule_unit_trace_neg is_nonce _ _ _ _ _ _ _ 1); try done; [lia|].
  apply schedule_account_events.
Qed.

Lemma phase2_schedule_neg env b fl s s1 :
  kCommit fl < 0 →
  phase2 env b fl s = (Val tt, s1) →
  schedule is_slot_write (since s s1)
  = scheduled 500 (revision2 (kCommit fl)) (- kCommit fl) (clamp_modify fl).
Proof.
  intros Hk (perm & s0 & s' & (Hn & Ho0 & _) & Hsteps & (ls & Ho1 & _))%phase2_Val.
  destruct (steps_trace (modified_trace fl (clamp_modify fl)) _ _ _ _
              (modified_has_trace b fl _ perm) Hsteps) as (trs & Ho & HT).
  rewrite (since_app s s1 ([EPrint (LPhase2 (clamp_modify fl) (kCommit fl))]
                           ++ concat trs ++ (EPrint <$> ls))).
  2: { rewrite Ho1, Ho, Ho0, <- !app_assoc. done. }
  rewrite !schedule_app, schedule_prints by done. simpl. rewrite app_nil_r.
  unfold scheduled. eapply omap_concat_Forall2; [|exact HT].
  intros i tr Hi%elem_of_seqZ (body & Hbody & Htr).
  eapply (schedule_unit_trace_neg is_slot_write _ _ _ _ _ _ _ 500); try done. lia.
Qed.

(** The revision of the batch [q = i / |k|] when [k] is negative: the
    quotient [i / k] is [-q], and its conversion to [uint64] wraps
    around. *)
Lemma revision1_neg k i :
  k < 0 → 0 ≤ i → revision1 k i = (- (i `div` (- k))) `mod` 2 ^ 64.
Proof.
  intros Hk Hi. unfold revision1, to_uint64.
  assert (i `quot` k = - (i `div` (- k))) as ->; [|done].
  rewrite <- (quot_div_nonneg i (- k)), <- Z.quot_opp_r by lia.
  f_equal. lia.
Qed.

Lemma revision2_neg k i :
  k < 0 → 0 ≤ i → revision2 k i = (1000000 - i `div` (- k)) `mod` 2 ^ 64.
Proof.
  intros Hk Hi. unfold revision2. fold (revision1 k i).
  rewrite revision1_neg by done. unfold to_uint64, phaseOffset.
  rewrite Zplus_mod_idemp_l. f_equal. lia.
Qed.

(** X11. A negative batch size [k] batches like its absolute value: the
    commits come after every [|k|] units and after the last one. The
    revisions count down: the quotient [i / k] is not positive, and
    [uint64] of it wraps around, so that phase 1 commits the revisions
    0, [2^64 - 1], [2^64 - 2], ... and phase 2 the revisions 1000000,
    999999, ... *)
Theorem negative_batch_size env b fl s s1 s2 :
  kCommit fl < 0 →
  phase1 env b fl s = (Val tt, s1) →
  phase2 env b fl s1 = (Val tt, s2) →
  let k := - kCommit fl in
  schedule is_nonce (since s s1)
    = scheduled 1 (λ i, (- (i `div` k)) `mod` 2 ^ 64) k (nAccounts fl) ∧
  schedule is_slot_write (since s1 s2)
    = scheduled 500 (λ i, (1000000 - i `div` k) `mod` 2 ^ 64) k (clamp_modify fl) ∧
  commit_revisions (since s s1)
    = (λ q, (- q) `mod` 2 ^ 64) <$> seqZ 0 (batches k (nAccounts fl)) ∧
  commit_revisions (since s1 s2)
    = (λ q, (1000000 - q) `mod` 2 ^ 64) <$> seqZ 0 (batches k (clamp_modify fl)).
Proof.
  intros Hk H1 H2 k. subst k.
  assert (schedule is_nonce (since s s1)
    = scheduled 1 (λ i, (- (i `div` (- kCommit fl))) `mod` 2 ^ 64)
        (- kCommit fl) (nAccounts fl)) as E1.
  { rewrite (phase1_schedule_neg _ _ _ _ _ Hk H1).
    apply scheduled_ext. intros i Hi. apply revision1_neg; lia. }
  assert (schedule is_slot_write (since s1 s2)
    = scheduled 500 (λ i, (1000000 - i `div` (- kCommit fl)) `mod` 2 ^ 64)
        (- kCommit fl) (clamp_modify fl)) as E2.
  { rewrite (phase2_schedule_neg _ _ _ _ _ Hk H2).
    apply scheduled_ext. intros i Hi. apply revision2_neg; lia. }
  split_and!; [exact E1|exact E2| |].
  - rewrite (commit_revisions_schedule is_nonce), E1, scheduled_revisions.
    by apply (fmap_boundaries _ (λ q, (- q) `mod` 2 ^ 64)); [lia|].
  - rewrite (commit_revisions_schedule is_slot_write), E2, scheduled_revisions.
    by apply (fmap_boundaries _ (λ q, (1000000 - q) `mod` 2 ^ 64)); [lia|].
Qed.

(** ** The turns of the loops, event by event *)

(** [totalSlotsCreated++] and [totalSlotsModified++] on the counter. *)
Definition counted (b : Build) (t : Z) : Z :=
  match b with Pebble => wrap_int (t + 1) | LevelDB => t end.

Lemma create_slot_total b i addr j s s' :
  create_slot b i addr j s = (Val tt, s') → total s' = counted b (total s).
Proof.
  unfold create_slot. intros H.
  apply bind_Val in H as ([] & s1 & H1 & H).
  apply bind_Val in H as (v & s2 & H2 & H3).
  rewrite slot_value_run in H2. injection H2 as <- <-.
  injection H3 as <-. simpl.
  destruct b; injection H1 as <-; done.
Qed.

Lemma create_slots_total b i addr (n : nat) lo s s' :
  for_each (seqZ lo (Z.of_nat n)) (create_slot b i addr) s = (Val tt, s') →
  total s' = Nat.iter n (counted b) (total s).
Proof.
  revert lo s. induction n as [|n IH]; intros lo s.
  - by intros [= <-].
  - rewrite seqZ_cons by lia. simpl for_each.
    intros ([] & s1 & H1 & H)%bind_Val.
    replace (Z.pred (Z.of_nat (S n))) with (Z.of_nat n) in H by lia.
    rewrite (IH _ _ H), (create_slot_total _ _ _ _ _ _ H1).
    by rewrite Nat.iter_succ_r.
Qed.

Lemma create_account_total b fl i s s' :
  create_account b fl i s = (Val tt, s') →
  total s' = Nat.iter (length (gen_account (slot_range fl) (rng s)).1)
               (counted b) (total s).
Proof.
  intros H. pose proof H as (Hi & Hlt & Hr & _)%create_account_Val.
  unfold create_account in H.
  rewrite (bind_Val_l _ _ _ _ _ (store_addr_run _ (account_addr i) _ Hi Hlt)) in H.
  rewrite (bind_Val_l _ _ _ _ _ (call_SetBalance_run (account_addr i) (10 ^ 18) _)) in H.
  rewrite (bind_Val_l _ _ _ _ _ (call_SetNonce_run (account_addr i) (to_uint64 i) _)) in H.
  fold (slot_range fl) in H.
  rewrite (bind_Val_l _ _ _ _ _ (Intn_pos (slot_range fl) _ Hr)) in H.
  unfold for_range in H. rewrite Z.sub_0_r in H.
  pose proof (draw_range (slot_range fl) (rng s) Hr) as Hd.
  unfold gen_account. simpl in H.
  destruct (draw (slot_range fl) (rng s)) as [v r1]; simpl in *.
  replace (seqZ 0 v) with (seqZ 0 (Z.of_nat (Z.to_nat v))) in H by (f_equal; lia).
  apply create_slots_total in H. by rewrite gen_values_length.
Qed.

Lemma progress_state line total i s :
  progress line total i s
  = (Val tt, if decide ((i + 1) `rem` 10 = 0 ∨ i + 1 = total)
             then log (EPrint (line (i + 1) total)) s else s).
Proof. unfold progress. by case_decide. Qed.

Lemma progress_Val line n i s s' :
  progress line n i s = (Val tt, s') →
  out s' = out s ++ progress_events line n i ∧ total s' = total s ∧
  currentRoot s' = currentRoot s ∧ rng s' = rng s ∧ addrs s' = addrs s.
Proof.
  rewrite progress_state. unfold progress_events. intros [= <-].
  case_decide; simpl; by rewrite ?app_nil_r.
Qed.

(** The events of a commit of phase 1 that went through, after account
    [i]; [t] events were logged before its line. *)
Definition batch_events (env : Env) (fl : Flags) (i : Z) (t : nat) (root : Hash)
    : list Event :=
  cut_events (revision1 (kCommit fl) i) root
    (LBatch (wrap_int (i `quot` kCommit fl + 1)) root
       (dirSize env t) (memAlloc env t)).

(** The same for phase 2, after the [i]-th account. *)
Definition mod_batch_events (env : Env) (fl : Flags) (i : Z) (t : nat)
    (root : Hash) : list Event :=
  cut_events (revision2 (kCommit fl) i) root
    (LModBatch (dirSize env t) (memAlloc env t)).

Lemma commit_created_Val env fl i s s' :
  commit_created env fl i s = (Val tt, s') →
  ∃ root, out s' = out s ++ batch_events env fl i (length (out s) + 2) root ∧
    currentRoot s' = root ∧ total s' = total s.
Proof.
  unfold commit_created, call_Commit, call_TrieCommit. rewrite bind_run.
  destruct (Commit _ (statedb s)) as [[err|root] st1]; simpl; [done|].
  rewrite bind_run. simpl.
  destruct (TrieCommit root st1) as [[err|] st2]; simpl; [done|].
  intros [= <-]. exists root. simpl. rewrite <- !app_assoc.
  split_and!; [|done..]. unfold batch_events, cut_events, revision1. simpl.
  by rewrite !length_app.
Qed.

Lemma commit_modified_Val env fl i s s' :
  commit_modified env fl i s = (Val tt, s') →
  ∃ root, out s' = out s ++ mod_batch_events env fl i (length (out s) + 2) root ∧
    currentRoot s' = root ∧ total s' = total s.
Proof.
  unfold commit_modified, call_Commit, call_TrieCommit. rewrite bind_run.
  destruct (Commit _ (statedb s)) as [[err|root] st1]; simpl; [done|].
  rewrite bind_run. simpl.
  destruct (TrieCommit root st1) as [[err|] st2]; simpl; [done|].
  intros [= <-]. exists root. simpl. rewrite <- !app_assoc.
  split_and!; [|done..]. unfold mod_batch_events, cut_events, revision2. simpl.
  by rewrite !length_app.
Qed.

(** The log of a turn of a loop that ran to its end: the mutations
    [body], the progress line, and the events [cut events] of the
    commit exactly when the test of the loop holds; [root] is
    [currentRoot] after the turn. *)
Definition turn_log (body : list Event) (line : Z → Z → Line)
    (events : nat → Hash → list Event) (k n i : Z) (root0 root : Hash)
    (tr : list Event) : Prop :=
  ∃ cut, tr = body ++ progress_events line n i ++ cut ∧
    if bool_decide ((i + 1) `rem` k = 0 ∨ i + 1 = n)
    then ∃ t, cut = events t root
    else cut = [] ∧ root = root0.

(** A turn of the loop of phase 1 that ran to its end. *)
Definition created_exactly (env : Env) (b : Build) (fl : Flags) (i : Z)
    (s s' : State) : Prop :=
  ∃ vs tr, out s' = out s ++ tr ∧ 0 ≤ i ∧ kCommit fl ≠ 0 ∧
    total s' = Nat.iter (length vs) (counted b) (total s) ∧
    turn_log (account_events b i vs) LProcessed (batch_events env fl i)
      (kCommit fl) (nAccounts fl) i (currentRoot s) (currentRoot s') tr.

Lemma create_step_exactly env b fl i s s' :
  create_step env b fl i s = (Val tt, s') → created_exactly env b fl i s s'.
Proof.
  unfold create_step.
  intros ([] & sa & Ha & H)%bind_Val.
  pose proof (create_account_total _ _ _ _ _ Ha) as Hta.
  apply create_account_Val in Ha as (Hi & _ & _ & Hoa & _ & _ & Hca).
  apply bind_Val in H as ([] & s2 & (Ho2 & Ht2 & Hc2 & _)%progress_Val & H).
  apply bind_Val in H as (cut & s3 & (Hk & -> & ->)%at_boundary_Val & H).
  exists (gen_account (slot_range fl) (rng s)).1. unfold turn_log.
  destruct (bool_decide ((i + 1) `rem` kCommit fl = 0 ∨ i + 1 = nAccounts fl)).
  - apply commit_created_Val in H as (root & Ho & Hc & Ht).
    eexists. split_and!; [|done|done|congruence|].
    + rewrite Ho, Ho2, Hoa, <- !app_assoc. reflexivity.
    + eexists. split; [reflexivity|]. eexists. rewrite Hc. reflexivity.
  - injection H as <-.
    exists (account_events b i (gen_account (slot_range fl) (rng s)).1
            ++ progress_events LProcessed (nAccounts fl) i ++ []).
    split_and!; [|done|done|congruence|].
    + by rewrite Ho2, Hoa, app_nil_r, <- !app_assoc.
    + exists []. split; [done|]. split; [done|]. congruence.
Qed.

Lemma modify_slot_total b fl idx addr j s s' :
  modify_slot b fl idx addr j s = (Val tt, s') → total s' = counted b (total s).
Proof.
  unfold modify_slot. intros H.
  apply bind_Val in H as ([] & s1 & H1 & H).
  apply bind_Val in H as (x & s2 & H2 & H).
  apply bind_Val in H as (v & s3 & H3 & H4).
  unfold Intn in H2. case_decide; [done|].
  destruct (draw (nSlots fl) (rng s1)) as [y r1]. injection H2 as <- <-.
  rewrite Read_run in H3. injection H3 as <- <-.
  injection H4 as <-. simpl.
  destruct b; injection H1 as <-; done.
Qed.

Lemma modify_slots_total b fl idx addr (n : nat) lo s s' :
  for_each (seqZ lo (Z.of_nat n)) (modify_slot b fl idx addr) s = (Val tt, s') →
  total s' = Nat.iter n (counted b) (total s).
Proof.
  revert lo s. induction n as [|n IH]; intros lo s.
  - by intros [= <-].
  - rewrite seqZ_cons by lia. simpl for_each.
    intros ([] & s1 & H1 & H)%bind_Val.
    replace (Z.pred (Z.of_nat (S n))) with (Z.of_nat n) in H by lia.
    rewrite (IH _ _ H), (modify_slot_total _ _ _ _ _ _ _ H1).
    by rewrite Nat.iter_succ_r.
Qed.

Lemma modify_account_total b fl perm i s s' :
  modify_account b fl perm i s = (Val tt, s') →
  total s' = Nat.iter 500 (counted b) (total s).
Proof.
  unfold modify_account. intros H.
  apply bind_Val in H as (idx & ? & (_ & _ & ->)%index_Val & H).
  apply bind_Val in H as (l & ? & [= <- <-] & H).
  apply bind_Val in H as (addr & ? & (_ & _ & ->)%index_Val & H).
  by apply (modify_slots_total b fl idx addr 500 0) in H.
Qed.

(** A turn of the loop of phase 2 that ran to its end. *)
Definition modified_exactly (env : Env) (b : Build) (fl : Flags) (m : Z)
    (perm : list Z) (i : Z) (s s' : State) : Prop :=
  ∃ idx addr tr, out s' = out s ++ tr ∧ kCommit fl ≠ 0 ∧
    perm !! Z.to_nat i = Some idx ∧
    total s' = Nat.iter 500 (counted b) (total s) ∧
    turn_log (gen_modifications 500 b (nSlots fl) idx addr (rng s)).1
      LModified (mod_batch_events env fl i)
      (kCommit fl) m i (currentRoot s) (currentRoot s') tr.

Lemma modify_step_exactly env b fl m perm i s s' :
  modify_step env b fl m perm i s = (Val tt, s') →
  modified_exactly env b fl m perm i s s'.
Proof.
  unfold modify_step.
  intros ([] & sa & Ha & H)%bind_Val.
  pose proof (modify_account_total _ _ _ _ _ _ Ha) as Hta.
  apply modify_account_Val in Ha
    as (idx & addr & _ & Hp & _ & _ & _ & Hoa & _ & _ & Hca).
  apply bind_Val in H as ([] & s2 & (Ho2 & Ht2 & Hc2 & _)%progress_Val & H).
  apply bind_Val in H as (cut & s3 & (Hk & -> & ->)%at_boundary_Val & H).
  exists idx, addr. unfold turn_log.
  destruct (bool_decide ((i + 1) `rem` kCommit fl = 0 ∨ i + 1 = m)).
  - apply commit_modified_Val in H as (root & Ho & Hc & Ht).
    eexists. split_and!; [|done|done|congruence|].
    + rewrite Ho, Ho2, Hoa, <- !app_assoc. reflexivity.
    + eexists. split; [reflexivity|]. eexists. rewrite Hc. reflexivity.
  - injection H as <-.
    exists ((gen_modifications 500 b (nSlots fl) idx addr (rng s)).1
            ++ progress_events LModified m i ++ []).
    split_and!; [|done|done|congruence|].
    + by rewrite Ho2, Hoa, app_nil_r, <- !app_assoc.
    + exists []. split; [done|]. split; [done|]. congruence.
Qed.

(** The lines that close a phase: the time and the last root, then (in
    the Pebble build) the counter. *)
Definition finish_events (env : Env) (b : Build) (line : Z → Hash → Line)
    (count : Z → Z → Line) (s : State) : list Event :=
  EPrint (line (elapsed env (length (out s))) (currentRoot s)) ::
  match b with
  | Pebble => [EPrint (count (total s) (elapsed env (length (out s))))]
  | LevelDB => []
  end.

Lemma finish_run env b (line : Z → Hash → Line) (count : Z → Z → Line) s s' :
  (t ← gets (λ s, length (out s));
   cur ← gets currentRoot;
   print (line (elapsed env t) cur);;
   match b with
   | Pebble => n ← gets total; print (count n (elapsed env t))
   | LevelDB => mret tt
   end) s = (Val tt, s') →
  out s' = out s ++ finish_events env b line count s ∧
  currentRoot s' = currentRoot s ∧ statedb s' = statedb s ∧ addrs s' = addrs s.
Proof.
  intros H.
  apply bind_Val in H as (t & ? & [= <- <-] & H).
  apply bind_Val in H as (cur & ? & [= <- <-] & H).
  apply bind_Val in H as ([] & ? & [= <-] & H).
  unfold finish_events. destruct b.
  - apply bind_Val in H as (n & ? & [= <- <-] & [= <-]). simpl.
    by rewrite <- app_assoc.
  - by injection H as <-.
Qed.

Lemma phase1_steps env b fl s s' :
  phase1 env b fl s = (Val tt, s') →
  ∃ s0 s1, phase1_start fl s s0 ∧ total s0 = 0 ∧
    steps (created_exactly env b fl) (seqZ 0 (nAccounts fl)) s0 s1 ∧
    out s' = out s1 ++ finish_events env b LCreationFinished LSlotsCreated s1 ∧
    currentRoot s' = currentRoot s1.
Proof.
  unfold phase1. intros H.
  apply bind_Val in H as ([] & s1 & [= <-] & H).
  apply bind_Val in H as ([] & s2 & H2 & H).
  unfold make_addrs in H2. case_decide; [done|]. injection H2 as <-.
  apply bind_Val in H as ([] & s3 & [= <-] & H).
  apply bind_Val in H as ([] & s4 & [= <-] & H).
  apply bind_Val in H as ([] & s5 & [= <-] & H).
  apply bind_Val in H as ([] & s6 & Hloop & H).
  unfold for_range in Hloop. rewrite Z.sub_0_r in Hloop.
  apply for_each_Val in Hloop.
  match type of Hloop with steps _ _ ?s0 _ => exists s0, s6 end.
  apply finish_run in H as (Ho & Hc & _).
  split_and!; [|done| |done|done].
  - split; [lia|]. split_and!; reflexivity.
  - eapply steps_impl; [|exact Hloop]. intros ??? _ Hst.
    exact (create_step_exactly _ _ _ _ _ _ Hst).
Qed.

Lemma phase2_steps env b fl s s' :
  phase2 env b fl s = (Val tt, s') →
  ∃ perm s0 s1, phase2_start env fl perm s s0 ∧
    (b = Pebble → total s0 = 0) ∧
    steps (modified_exactly env b fl (clamp_modify fl) perm)
      (seqZ 0 (clamp_modify fl)) s0 s1 ∧
    out s' = out s1 ++ finish_events env b LModificationFinished LSlotsModified s1 ∧
    currentRoot s' = currentRoot s1.
Proof.
  unfold phase2. intros H.
  apply bind_Val in H as ([] & s1 & [= <-] & H).
  apply bind_Val in H as ([] & s2 & H2 & H).
  assert (out s2 = out s ++ [EPrint (LPhase2 (clamp_modify fl) (kCommit fl))] ∧
          same_vars s s2 ∧ statedb s2 = statedb s ∧
          (b = Pebble → total s2 = 0)) as (Ho2 & Hv2 & Hst2 & Ht2).
  { destruct b; injection H2 as <-; done. }
  clear H2.
  apply bind_Val in H as ([] & s3 & [= <-] & H).
  apply bind_Val in H as (perm & s4 & H4 & H).
  unfold Perm in H4. case_decide; [done|].
  simpl in H4. destruct (shuffle _ _) as [p r] eqn:Hsh. injection H4 as <- <-.
  apply bind_Val in H as ([] & s6 & Hloop & H).
  unfold for_range in Hloop. rewrite Z.sub_0_r in Hloop.
  apply for_each_Val in Hloop.
  match type of Hloop with steps _ _ ?s0 _ => exists p, s0, s6 end.
  apply finish_run in H as (Ho & Hc & _).
  split_and!; [|done| |done|done].
  - split; [lia|]. by simpl.
  - eapply steps_impl; [|exact Hloop]. intros ??? _ Hst.
    exact (modify_step_exactly _ _ _ _ _ _ _ _ Hst).
Qed.

(** ** The counters of the Pebble build *)

(** The number of slot writes in a piece of the log. *)
Definition slot_writes (tr : list Event) : nat :=
  length (filter (λ e, is_slot_write e = true) tr).

Lemma slot_writes_app tr1 tr2 :
  slot_writes (tr1 ++ tr2) = (slot_writes tr1 + slot_writes tr2)%nat.
Proof. unfold slot_writes. by rewrite filter_app, length_app. Qed.

Lemma slot_writes_none tr :
  Forall (λ e, is_slot_write e = false) tr → slot_writes tr = 0%nat.
Proof.
  unfold slot_writes. induction 1 as [|e tr He _ IH]; [done|].
  rewrite filter_cons, decide_False by congruence. done.
Qed.

Lemma slot_writes_all tr :
  Forall (λ e, is_slot_write e = true) tr → slot_writes tr = length tr.
Proof.
  unfold slot_writes. induction 1 as [|e tr He _ IH]; [done|].
  rewrite filter_cons, decide_True by done. simpl. by rewrite IH.
Qed.

Lemma slot_writes_progress line n i : slot_writes (progress_events line n i) = 0%nat.
Proof. unfold progress_events. by case_decide. Qed.

Lemma slot_writes_account_events b i vs :
  slot_writes (account_events b i vs) = length vs.
Proof.
  unfold account_events.
  change (slot_writes ([ESetBalance (account_addr i) (10 ^ 18);
                        ESetNonce (account_addr i) (to_uint64 i)] ++
                       imap (λ j v, ESetState (account_addr i)
                                      (slot_key b i (Z.of_nat j)) v) vs)
          = length vs).
  rewrite slot_writes_app.
  rewrite (slot_writes_all (imap _ vs)) by by apply Forall_imap.
  by rewrite length_imap.
Qed.

Lemma slot_writes_gen_modifications n b slots idx addr r :
  slot_writes (gen_modifications n b slots idx addr r).1 = n.
Proof.
  revert r. induction n as [|n IH]; intros r; simpl; [done|].
  unfold gen_modification at 1.
  destruct (draw slots r) as [x r1]. destruct (fill 32 r1) as [v r2].
  specialize (IH r2). destruct (gen_modifications n b slots idx addr r2).
  simpl in *. unfold slot_writes in *. rewrite filter_cons, decide_True by done.
  simpl. by rewrite IH.
Qed.

Lemma slot_writes_turn body line events k n i root0 root tr :
  (∀ t r, slot_writes (events t r) = 0%nat) →
  turn_log body line events k n i root0 root tr →
  slot_writes tr = slot_writes body.
Proof.
  intros Hev (cut & -> & Hcut).
  rewrite !slot_writes_app, slot_writes_progress.
  case_bool_decide.
  - destruct Hcut as (t & ->). rewrite Hev. simpl. apply Nat.add_0_r.
  - destruct Hcut as (-> & _). simpl. apply Nat.add_0_r.
Qed.

Lemma slot_writes_batch env fl i t r :
  slot_writes (batch_events env fl i t r) = 0%nat.
Proof. reflexivity. Qed.

Lemma slot_writes_mod_batch env fl i t r :
  slot_writes (mod_batch_events env fl i t r) = 0%nat.
Proof. reflexivity. Qed.

Lemma iter_counted b (n : nat) :
  Nat.iter n (counted b) 0 = match b with Pebble => wrap_int (Z.of_nat n) | LevelDB => 0 end.
Proof.
  induction n as [|n IH]; [by destruct b|].
  simpl. rewrite IH. destruct b; [|done]. simpl.
  rewrite wrap_int_add_l. f_equal. lia.
Qed.

Lemma steps_created_total env b fl l s s' :
  steps (created_exactly env b fl) l s s' →
  ∃ tr, out s' = out s ++ tr ∧
    total s' = Nat.iter (slot_writes tr) (counted b) (total s).
Proof.
  induction 1 as [s|i l s s1 s2 Hb _ (tr & Ho & Ht)].
  - exists []. by rewrite app_nil_r.
  - destruct Hb as (vs & tr1 & Ho1 & _ & _ & Ht1 & Hlog).
    exists (tr1 ++ tr). split; [by rewrite Ho, Ho1, <- app_assoc|].
    rewrite slot_writes_app, Nat.add_comm, Nat.iter_add, Ht, Ht1.
    by rewrite (slot_writes_turn _ _ _ _ _ _ _ _ _ (slot_writes_batch env fl i) Hlog),
      slot_writes_account_events.
Qed.

Lemma steps_modified_total env b fl m perm l s s' :
  steps (modified_exactly env b fl m perm) l s s' →
  ∃ tr, out s' = out s ++ tr ∧
    slot_writes tr = (500 * length l)%nat ∧
    total s' = Nat.iter (slot_writes tr) (counted b) (total s).
Proof.
  induction 1 as [s|i l s s1 s2 Hb _ (tr & Ho & Hn & Ht)].
  - exists []. by rewrite app_nil_r.
  - destruct Hb as (idx & addr & tr1 & Ho1 & _ & _ & Ht1 & Hlog).
    pose proof (slot_writes_turn _ _ _ _ _ _ _ _ _
                  (slot_writes_mod_batch env fl i) Hlog) as Hw.
    rewrite slot_writes_gen_modifications in Hw.
    exists (tr1 ++ tr). split; [by rewrite Ho, Ho1, <- app_assoc|].
    rewrite slot_writes_app, Hn, Hw. split; [simpl; lia|].
    by rewrite Nat.add_comm, Nat.iter_add, <- Hn, Ht, Ht1.
Qed.

(** X12. In the Pebble build each phase ends on the line of its counter,
    and the counter is the number of slot writes of the phase (as an
    [int64]): those that phase 1 generated, and 500 for each account
    of the clamped [m] in phase 2. *)
Theorem slot_counters env fl s s1 s2 :
  phase1 env Pebble fl s = (Val tt, s1) →
  phase2 env Pebble fl s1 = (Val tt, s2) →
  (∃ t, last (since s s1)
        = Some (EPrint (LSlotsCreated
                  (wrap_int (Z.of_nat (slot_writes (since s s1)))) t))) ∧
  (∃ t, last (since s1 s2)
        = Some (EPrint (LSlotsModified
                  (wrap_int (Z.of_nat (slot_writes (since s1 s2)))) t))) ∧
  slot_writes (since s1 s2) = (500 * Z.to_nat (clamp_modify fl))%nat.
Proof.
  intros H1 H2.
  apply phase1_steps in H1 as (s0 & sa & (_ & Ho0 & _) & Ht0 & Hsteps & Ho & _).
  apply steps_created_total in Hsteps as (tr & Hoa & Hta).
  apply phase2_steps in H2
    as (perm & s0' & sb & (_ & Ho0' & _) & Ht0' & Hsteps' & Ho' & _).
  apply steps_modified_total in Hsteps' as (tr' & Hob & Hn & Htb).
  rewrite Ht0, iter_counted in Hta. rewrite (Ht0' eq_refl), iter_counted in Htb.
  assert (since s s1
          = (EPrint (LPhase1 (nAccounts fl) (nSlots fl) (kCommit fl)) :: tr)
            ++ finish_events env Pebble LCreationFinished LSlotsCreated sa) as E1.
  { apply since_app. by rewrite Ho, Hoa, Ho0, <- !app_assoc. }
  assert (since s1 s2
          = (EPrint (LPhase2 (clamp_modify fl) (kCommit fl)) :: tr')
            ++ finish_events env Pebble LModificationFinished LSlotsModified sb) as E2.
  { apply since_app. by rewrite Ho', Hob, Ho0', <- !app_assoc. }
  assert (slot_writes (since s s1) = slot_writes tr) as W1.
  { rewrite E1, slot_writes_app. apply Nat.add_0_r. }
  assert (slot_writes (since s1 s2) = slot_writes tr') as W2.
  { rewrite E2, slot_writes_app. apply Nat.add_0_r. }
  rewrite W1, W2, Hn, length_seqZ. split_and!; [| |done].
  - rewrite E1, last_app. unfold finish_events. simpl last. rewrite Hta. eauto.
  - rewrite E2, last_app. unfold finish_events. simpl last. rewrite Htb, Hn, length_seqZ.
    eauto.
Qed.

(** ** The log of a phase, turn by turn *)

Definition created_log (env : Env) (b : Build) (fl : Flags) (i : Z)
    (tr : list Event) : Prop :=
  ∃ vs root0 root,
    turn_log (account_events b i vs) LProcessed (batch_events env fl i)
      (kCommit fl) (nAccounts fl) i root0 root tr.

Definition modified_log (env : Env) (fl : Flags) (m i : Z)
    (tr : list Event) : Prop :=
  ∃ body root0 root, Forall (λ e, is_slot_write e = true) body ∧
    turn_log body LModified (mod_batch_events env fl i)
      (kCommit fl) m i root0 root tr.

Lemma Forall_slot_writes_gen_modifications n b slots idx addr r :
  Forall (λ e, is_slot_write e = true) (gen_modifications n b slots idx addr r).1.
Proof.
  revert r. induction n as [|n IH]; intros r; simpl; [done|].
  unfold gen_modification at 1.
  destruct (draw slots r) as [x r1]. destruct (fill 32 r1) as [v r2].
  specialize (IH r2). destruct (gen_modifications n b slots idx addr r2).
  simpl in *. by constructor.
Qed.

Lemma created_exactly_log env b fl i s s' :
  created_exactly env b fl i s s' →
  ∃ tr, out s' = out s ++ tr ∧ created_log env b fl i tr.
Proof.
  intros (vs & tr & Ho & _ & _ & _ & Hlog). exists tr. split; [done|].
  by eexists _, _, _.
Qed.

Lemma modified_exactly_log env b fl m perm i s s' :
  modified_exactly env b fl m perm i s s' →
  ∃ tr, out s' = out s ++ tr ∧ modified_log env fl m i tr.
Proof.
  intros (idx & addr & tr & Ho & _ & _ & _ & Hlog). exists tr. split; [done|].
  eexists _, _, _. split; [|exact Hlog].
  apply Forall_slot_writes_gen_modifications.
Qed.

Lemma phase1_turns env b fl s s1 :
  phase1 env b fl s = (Val tt, s1) →
  ∃ trs sa, Forall2 (created_log env b fl) (seqZ 0 (nAccounts fl)) trs ∧
    since s s1 = [EPrint (LPhase1 (nAccounts fl) (nSlots fl) (kCommit fl))]
                 ++ concat trs
                 ++ finish_events env b LCreationFinished LSlotsCreated sa.
Proof.
  intros (s0 & sa & (_ & Ho0 & _) & _ & Hsteps & Ho & _)%phase1_steps.
  destruct (steps_trace (created_log env b fl) _ _ _ _
              (created_exactly_log env b fl) Hsteps) as (trs & Hoa & HT).
  exists trs, sa. split; [done|].
  apply since_app. by rewrite Ho, Hoa, Ho0, <- !app_assoc.
Qed.

Lemma phase2_turns env b fl s s1 :
  phase2 env b fl s = (Val tt, s1) →
  ∃ trs sa, Forall2 (modified_log env fl (clamp_modify fl))
              (seqZ 0 (clamp_modify fl)) trs ∧
    since s s1 = [EPrint (LPhase2 (clamp_modify fl) (kCommit fl))]
                 ++ concat trs
                 ++ finish_events env b LModificationFinished LSlotsModified sa.
Proof.
  intros (perm & s0 & sa & (_ & Ho0 & _) & _ & Hsteps & Ho & _)%phase2_steps.
  destruct (steps_trace (modified_log env fl (clamp_modify fl)) _ _ _ _
              (modified_exactly_log env b fl _ perm) Hsteps) as (trs & Hoa & HT).
  exists trs, sa. split; [done|].
  apply since_app. by rewrite Ho, Hoa, Ho0, <- !app_assoc.
Qed.

(** ** The progress lines *)

(** The pairs printed by the progress lines of both phases. *)
Definition progress_lines (tr : list Event) : list (Z * Z) :=
  omap (λ e, match e with
             | EPrint (LProcessed d t) | EPrint (LModified d t) => Some (d, t)
             | _ => None
             end) tr.

Lemma omap_none {X Y} (f : X → option Y) (P : X → Prop) l :
  (∀ x, P x → f x = None) → Forall P l → omap f l = [].
Proof.
  intros Hf. induction 1 as [|x l Hx _ IH]; [done|].
  simpl. by rewrite (Hf x Hx).
Qed.

Lemma Forall_mutations_account_events b i vs :
  Forall (λ e, is_mutation e = true) (account_events b i vs).
Proof.
  unfold account_events. do 2 (constructor; [done|]). by apply Forall_imap.
Qed.

Lemma slot_write_mutation e : is_slot_write e = true → is_mutation e = true.
Proof. by destruct e. Qed.

Lemma flat_map_filter {X} (P : Z → Prop) `{∀ i, Decision (P i)} (g : Z → X) l :
  flat_map (λ i, if decide (P i) then [g i] else []) l = g <$> filter P l.
Proof.
  induction l as [|i l IH]; [done|].
  simpl. rewrite filter_cons, IH. by case_decide.
Qed.

Lemma progress_test n i :
  0 ≤ i → ((i + 1) `rem` 10 = 0 ∨ i + 1 = n) ↔ is_boundary 10 n i = true.
Proof.
  intros Hi. unfold is_boundary. rewrite bool_decide_eq_true.
  by rewrite rem_mod_nonneg by lia.
Qed.

Lemma progress_lines_turn body line events k n i root0 root tr :
  Forall (λ e, is_mutation e = true) body →
  (∀ t r, progress_lines (events t r) = []) →
  (∀ d t, progress_lines [EPrint (line d t)] = [(d, t)]) →
  turn_log body line events k n i root0 root tr →
  progress_lines tr
  = if decide ((i + 1) `rem` 10 = 0 ∨ i + 1 = n) then [(i + 1, n)] else [].
Proof.
  intros Hbody Hev Hline (cut & -> & Hcut). unfold progress_lines at 1.
  rewrite !omap_app.
  rewrite (omap_none _ (λ e, is_mutation e = true) body); [|by intros []|done].
  assert (progress_lines cut = []) as Hc.
  { case_bool_decide; [destruct Hcut as (t & ->); apply Hev|by destruct Hcut as [-> _]]. }
  fold (progress_lines cut). rewrite Hc, app_nil_r. simpl. clear Hcut.
  unfold progress_events.
  destruct (decide ((i + 1) `rem` 10 = 0 ∨ i + 1 = n)); [apply Hline|done].
Qed.

(** X13. A progress line is printed after every tenth unit of work and
    after the last one, in both phases; it shows the number of units
    done and their total, which in phase 2 is the clamped [m]. *)
Theorem progress_every_ten env b fl s s1 s2 :
  phase1 env b fl s = (Val tt, s1) →
  phase2 env b fl s1 = (Val tt, s2) →
  progress_lines (since s s1)
    = (λ i, (i + 1, nAccounts fl)) <$> boundaries 10 (nAccounts fl) ∧
  progress_lines (since s1 s2)
    = (λ i, (i + 1, clamp_modify fl)) <$> boundaries 10 (clamp_modify fl).
Proof.
  intros (trs1 & sa & HT1 & E1)%phase1_turns (trs2 & sb & HT2 & E2)%phase2_turns.
  assert (∀ n, flat_map (λ i, if decide ((i + 1) `rem` 10 = 0 ∨ i + 1 = n)
                              then [(i + 1, n)] else []) (seqZ 0 n)
               = (λ i, (i + 1, n)) <$> boundaries 10 n) as Hflat.
  { intros n. rewrite (flat_map_filter _ (λ i, (i + 1, n))). f_equal.
    unfold boundaries. apply filter_ext_Forall, Forall_seqZ.
    intros i Hi. apply progress_test. lia. }
  split.
  - rewrite E1. unfold progress_lines at 1. rewrite !omap_app.
    rewrite (omap_none _ (λ e, is_print e = true ∧ progress_lines [e] = [])
               (finish_events _ _ _ _ _)).
    2: { intros [] [? He]; try done. simpl in He. by destruct l. }
    2: { unfold finish_events. destruct b; repeat constructor. }
    simpl. rewrite app_nil_r, <- Hflat.
    eapply omap_concat_Forall2; [|exact HT1].
    intros i tr _ (vs & r0 & r & Hlog).
    eapply progress_lines_turn; [| | |exact Hlog]; try done.
    apply Forall_mutations_account_events.
  - rewrite E2. unfold progress_lines at 1. rewrite !omap_app.
    rewrite (omap_none _ (λ e, is_print e = true ∧ progress_lines [e] = [])
               (finish_events _ _ _ _ _)).
    2: { intros [] [? He]; try done. simpl in He. by destruct l. }
    2: { unfold finish_events. destruct b; repeat constructor. }
    simpl. rewrite app_nil_r, <- Hflat.
    eapply omap_concat_Forall2; [|exact HT2].
    intros i tr _ (body & r0 & r & Hbody & Hlog).
    eapply progress_lines_turn; [| | |exact Hlog]; try done.
    eapply Forall_impl; [exact Hbody|]. apply slot_write_mutation.
Qed.

(** ** The batch lines of phase 1 *)

(** The batch number and the root shown by each batch line. *)
Definition batch_lines (tr : list Event) : list (Z * Hash) :=
  omap (λ e, match e with
             | EPrint (LBatch idx root _ _) => Some (idx, root)
             | _ => None
             end) tr.

(** The batch lines of a piece of the log show, in order, the
    revisions of its commits plus one and the roots these returned. *)
Definition numbered (tr : list Event) : Prop :=
  (batch_lines tr).*1 = (λ r, r + 1) <$> commit_revisions tr ∧
  (batch_lines tr).*2 = commit_roots tr.

Lemma numbered_app tr1 tr2 : numbered tr1 → numbered tr2 → numbered (tr1 ++ tr2).
Proof.
  intros [H1 H1'] [H2 H2']. unfold numbered, batch_lines, commit_revisions,
    commit_roots in *.
  rewrite !omap_app, !fmap_app. by rewrite H1, H1', H2, H2'.
Qed.

Lemma numbered_concat trs : Forall numbered trs → numbered (concat trs).
Proof.
  induction 1 as [|tr trs Htr _ IH]; [done|]. simpl. by apply numbered_app.
Qed.

Lemma numbered_quiet tr :
  Forall (λ e, is_mutation e = true ∨ ∃ l, e = EPrint l ∧ batch_lines [e] = []) tr →
  numbered tr.
Proof.
  induction 1 as [|e tr He _ IH]; [done|].
  change (e :: tr) with ([e] ++ tr). apply numbered_app; [|done].
  destruct He as [He|(l & -> & He)]; [by destruct e|].
  unfold numbered. by rewrite He.
Qed.

Lemma batch_number k n i :
  0 < k → 0 ≤ i < n → n ≤ int_max →
  wrap_int (i `quot` k + 1) = revision1 k i + 1.
Proof.
  intros Hk Hi Hn. rewrite revision1_div, quot_div_nonneg by lia.
  assert (0 ≤ i `div` k ≤ i).
  { split; [apply Z.div_pos; lia|]. apply Z.div_le_upper_bound; nia. }
  apply wrap_int_id. unfold int_max in *. lia.
Qed.

Lemma numbered_created env b fl i tr :
  0 < kCommit fl → 0 ≤ i < nAccounts fl → nAccounts fl ≤ int_max →
  created_log env b fl i tr → numbered tr.
Proof.
  intros Hk Hi Hn (vs & r0 & r & cut & -> & Hcut).
  apply numbered_app; [|apply numbered_app].
  - apply numbered_quiet. eapply Forall_impl; [apply Forall_mutations_account_events|].
    by left.
  - apply numbered_quiet. apply Forall_progress_events. right. eauto.
  - case_bool_decide; [|by destruct Hcut as [-> _]].
    destruct Hcut as (t & ->). unfold numbered, batch_events. simpl.
    by rewrite (batch_number _ (nAccounts fl)).
Qed.

(** X14. For a batch size of at least 1, the batch lines of phase 1 are
    numbered 1, 2, ... without a gap, one for each commit, and the
    line of batch [q] shows the root that the [q]-th commit
    returned. *)
Theorem batch_lines_numbered env b fl s s1 :
  1 ≤ kCommit fl → nAccounts fl ≤ int_max →
  phase1 env b fl s = (Val tt, s1) →
  batch_lines (since s s1)
    = zip (seqZ 1 (batches (kCommit fl) (nAccounts fl)))
          (commit_roots (since s s1)) ∧
  length (commit_roots (since s s1))
    = Z.to_nat (batches (kCommit fl) (nAccounts fl)).
Proof.
  intros Hk Hmax H1. assert (0 < kCommit fl) as Hk' by lia.
  pose proof (phase1_commit_revisions _ _ _ _ _ Hk' H1) as Hrev.
  unfold phase1_revisions in Hrev. rewrite (fmap_boundaries _ id) in Hrev;
    [|done|by intros; apply revision1_div; lia].
  rewrite list_fmap_id in Hrev.
  apply phase1_turns in H1 as (trs & sa & HT & E).
  assert (numbered (since s s1)) as [Hn1 Hn2].
  { rewrite E. apply numbered_app.
    { apply numbered_quiet.
      repeat first [apply Forall_nil_2 | apply Forall_cons_2; [right; by eauto|]]. }
    apply numbered_app.
    - apply numbered_concat.
      apply (Forall2_Forall_r _ (λ tr, numbered tr) _ _ HT).
      apply Forall_seqZ. intros i Hi tr Htr.
      eapply numbered_created; [done| |done|exact Htr]. lia.
    - apply numbered_quiet. unfold finish_events.
      destruct b;
        repeat first [apply Forall_nil_2 | apply Forall_cons_2; [right; by eauto|]]. }
  assert ((λ r, r + 1) <$> seqZ 0 (batches (kCommit fl) (nAccounts fl))
          = seqZ 1 (batches (kCommit fl) (nAccounts fl))) as Hs.
  { transitivity (Z.add 1 <$> seqZ 0 (batches (kCommit fl) (nAccounts fl)));
      [|apply (fmap_add_seqZ 1 0)].
    apply list_fmap_ext. intros. lia. }
  rewrite Hrev, Hs in Hn1. split.
  - rewrite <- (zip_fst_snd (batch_lines (since s s1))) at 1.
    by rewrite Hn1, Hn2.
  - rewrite <- Hn2, length_fmap, <- (length_fmap fst), Hn1.
    apply length_seqZ.
Qed.

(** ** The end of a phase *)

Lemma steps_snoc_inv (R : Z → State → State → Prop) l i s s' :
  steps R (l ++ [i]) s s' → ∃ sm, steps R l s sm ∧ R i sm s'.
Proof.
  revert s. induction l as [|j l IH]; intros s H; simpl in H;
    inversion H as [|? ? ? sa ? Hj Hl]; subst.
  - inversion Hl; subst. exists s. split; [constructor|done].
  - destruct (IH _ Hl) as (sm & Hsm & Hi). exists sm.
    split; [by econstructor|done].
Qed.

Lemma steps_out (R : Z → State → State → Prop) l s s' :
  (∀ i s s', R i s s' → ∃ tr, out s' = out s ++ tr) →
  steps R l s s' → ∃ tr, out s' = out s ++ tr.
Proof.
  intros HR. induction 1 as [s|i l s s1 s2 Hb _ (tr & Ho)].
  - exists []. by rewrite app_nil_r.
  - destruct (HR _ _ _ Hb) as (tr1 & Ho1). exists (tr1 ++ tr).
    by rewrite Ho, Ho1, <- app_assoc.
Qed.

Lemma seqZ_snoc n : 1 ≤ n → seqZ 0 n = seqZ 0 (n - 1) ++ [n - 1].
Proof.
  intros Hn. replace n with ((n - 1) + 1) at 1 by lia.
  rewrite seqZ_app by lia. by rewrite seqZ_one.
Qed.

(** The last turn of a loop that ran to its end, with at least one
    turn: it commits. *)
Lemma last_turn body line events k n root0 root tr :
  turn_log body line events k n (n - 1) root0 root tr →
  ∃ t, tr = body ++ progress_events line n (n - 1) ++ events t root.
Proof.
  intros (cut & -> & Hcut). rewrite bool_decide_true in Hcut by (right; lia).
  destruct Hcut as (t & ->). eauto.
Qed.

Lemma created_exactly_out env b fl i s s' :
  created_exactly env b fl i s s' → ∃ tr, out s' = out s ++ tr.
Proof. intros (vs & tr & Ho & _). eauto. Qed.

Lemma modified_exactly_out env b fl m perm i s s' :
  modified_exactly env b fl m perm i s s' → ∃ tr, out s' = out s ++ tr.
Proof. intros (idx & addr & tr & Ho & _). eauto. Qed.

(** X15. A phase that has work to do ends on a commit of all of it: the
    last calls into the store are the state commit after the last
    unit, the trie commit of its root and the re-opening of the state
    at that root, and the closing line of the phase shows this root,
    which is [currentRoot]. No mutation is left uncommitted. *)
Theorem phases_end_committed env b fl s s1 s2 :
  1 ≤ nAccounts fl → 1 ≤ mModify fl →
  phase1 env b fl s = (Val tt, s1) →
  phase2 env b fl s1 = (Val tt, s2) →
  (∃ tr t t' rest,
     since s s1
     = tr ++ batch_events env fl (nAccounts fl - 1) t (currentRoot s1)
          ++ EPrint (LCreationFinished t' (currentRoot s1)) :: rest ∧
     store_calls rest = []) ∧
  (∃ tr t t' rest,
     since s1 s2
     = tr ++ mod_batch_events env fl (clamp_modify fl - 1) t (currentRoot s2)
          ++ EPrint (LModificationFinished t' (currentRoot s2)) :: rest ∧
     store_calls rest = []).
Proof.
  intros Hn Hm H1 H2.
  assert (1 ≤ clamp_modify fl) as Hm'.
  { unfold clamp_modify. case_decide; lia. }
  split.
  - apply phase1_steps in H1 as (s0 & sa & (_ & Ho0 & _) & _ & Hsteps & Ho & Hc).
    rewrite seqZ_snoc in Hsteps by done.
    apply steps_snoc_inv in Hsteps as (sm & Hsteps & Hlast).
    apply (steps_out _ _ _ _ (created_exactly_out env b fl)) in Hsteps
      as (tr0 & Hom).
    destruct Hlast as (vs & tr & Hoa & _ & _ & _ & (t & ->)%last_turn).
    exists ([EPrint (LPhase1 (nAccounts fl) (nSlots fl) (kCommit fl))] ++ tr0
            ++ account_events b (nAccounts fl - 1) vs
            ++ progress_events LProcessed (nAccounts fl) (nAccounts fl - 1)),
      t, (elapsed env (length (out sa))),
      (match b with
       | Pebble => [EPrint (LSlotsCreated (total sa) (elapsed env (length (out sa))))]
       | LevelDB => []
       end).
    split; [|by destruct b].
    apply since_app. rewrite Ho, Hc. unfold finish_events.
    rewrite Hoa at 1. rewrite Hom, Ho0, <- !app_assoc. reflexivity.
  - apply phase2_steps in H2
      as (perm & s0 & sb & (_ & Ho0 & _) & _ & Hsteps & Ho & Hc).
    rewrite seqZ_snoc in Hsteps by done.
    apply steps_snoc_inv in Hsteps as (sm & Hsteps & Hlast).
    apply (steps_out _ _ _ _ (modified_exactly_out env b fl _ perm)) in Hsteps
      as (tr0 & Hom).
    destruct Hlast as (idx & addr & tr & Hoa & _ & _ & _ & (t & ->)%last_turn).
    exists ([EPrint (LPhase2 (clamp_modify fl) (kCommit fl))] ++ tr0
            ++ (gen_modifications 500 b (nSlots fl) idx addr (rng sm)).1
            ++ progress_events LModified (clamp_modify fl) (clamp_modify fl - 1)),
      t, (elapsed env (length (out sb))),
      (match b with
       | Pebble => [EPrint (LSlotsModified (total sb) (elapsed env (length (out sb))))]
       | LevelDB => []
       end).
    split; [|by destruct b].
    apply since_app. rewrite Ho, Hc. unfold finish_events.
    rewrite Hoa at 1. rewrite Hom, Ho0, <- !app_assoc. reflexivity.
Qed.

(** ** The order of the commits *)

(** The shape of a log: mutations and lines, and among them the
    commits, each one a state commit that failed, or a state commit
    followed at once by the trie commit of the root it returned, which
    failed or was followed by one line and the re-opening of the state
    at that root. *)
Inductive well_cut : list Event → Prop :=
| well_cut_nil : well_cut []
| well_cut_plain e tr :
    is_mutation e = true ∨ is_print e = true →
    well_cut tr → well_cut (e :: tr)
| well_cut_state_failed rev err tr :
    well_cut tr → well_cut (ECommit rev (inl err) :: tr)
| well_cut_trie_failed rev root err tr :
    well_cut tr →
    well_cut (ECommit rev (inr root) :: ETrieCommit root (Some err) :: tr)
| well_cut_through rev root line tr :
    well_cut tr → well_cut (cut_events rev root line ++ tr).

Lemma well_cut_app tr1 tr2 : well_cut tr1 → well_cut tr2 → well_cut (tr1 ++ tr2).
Proof.
  induction 1 as [|e tr He _ IH|rev err tr _ IH|rev root err tr _ IH
                  |rev root line tr _ IH]; intros H2; simpl.
  - done.
  - apply well_cut_plain; auto.
  - apply well_cut_state_failed; auto.
  - apply well_cut_trie_failed; auto.
  - apply (well_cut_through rev root line (tr ++ tr2)); auto.
Qed.

Lemma well_cut_plains evs :
  Forall (λ e, is_mutation e = true ∨ is_print e = true) evs → well_cut evs.
Proof. induction 1; [constructor|by apply well_cut_plain]. Qed.

Lemma well_cut_log s e :
  well_cut (out s) → is_mutation e = true ∨ is_print e = true →
  well_cut (out (log e s)).
Proof.
  intros Hs He. simpl. apply well_cut_app; [done|].
  apply well_cut_plain; [done|constructor].
Qed.

Lemma step_any_well_cut keep Pq rev lineS lineT s o s' :
  (∀ e, Pq e → is_mutation e = true ∨ is_print e = true) →
  well_cut (out s) →
  step_any keep Pq rev lineS lineT s o s' → well_cut (out s').
Proof.
  intros HPq Hs (sa & evs & Ho & Hevs & _ & _ & Hend).
  assert (well_cut (out sa)) as Hsa.
  { rewrite Ho. apply well_cut_app; [done|]. apply well_cut_plains.
    eapply Forall_impl; [exact Hevs|done]. }
  destruct Hend as [(msg & _ & ->)|[(_ & ->)|Hc]]; [done..|].
  destruct Hc as (_ & _ & [(err & _ & _ & Ho')|[(root & err & _ & _ & Ho')
                             |(root & line & _ & _ & _ & Ho')]]);
    rewrite Ho'; (apply well_cut_app; [done|]).
  - apply well_cut_state_failed, well_cut_plain; [by right|constructor].
  - apply well_cut_trie_failed, well_cut_plain; [by right|constructor].
  - rewrite <- (app_nil_r (cut_events _ _ _)).
    apply well_cut_through, well_cut_nil.
Qed.

Lemma creation_event_plain e :
  creation_event e → is_mutation e = true ∨ is_print e = true.
Proof. intros [H|(d & t & ->)]; [by left|by right]. Qed.

Lemma modification_event_plain b fl A e :
  modification_event b fl A e → is_mutation e = true ∨ is_print e = true.
Proof. intros [(? & ? & ? & ? & -> & _)|(d & t & ->)]; [by left|by right]. Qed.

Definition cut_post (o : Outcome unit) (s : State) : Prop := well_cut (out s).

Lemma phase1_well_cut env b fl s :
  well_cut (out s) → wp (phase1 env b fl) cut_post s.
Proof.
  intros Hs. unfold phase1.
  eapply wp_step; [apply print_run|].
  assert (well_cut (out (log (EPrint (LPhase1 (nAccounts fl) (nSlots fl)
                                         (kCommit fl))) s))) as Hs1.
  { apply well_cut_log; [done|by right]. }
  destruct (decide (nAccounts fl < 0 ∨ maxAlloc < 20 * nAccounts fl)) as [Hn|Hn].
  { eapply wp_stop; [by apply make_addrs_panics|done]. }
  eapply wp_step; [apply make_addrs_run; lia|].
  do 3 (eapply wp_step; [apply modify_run|]).
  apply wp_bind. eapply wp_mono.
  { apply (wp_for_each (λ s, well_cut (out s)) cut_post); [exact Hs1|].
    intros i s' _ Hs'.
    assert (well_cut (out (create_step env b fl i s').2)) as H.
    { eapply step_any_well_cut; [apply creation_event_plain|exact Hs'|].
      apply (create_step_any env b fl i s'). }
    unfold wp, loop_post. by destruct (create_step env b fl i s').1. }
  intros [[]| |msg] s' Hs'; simpl; try done.
  eapply wp_step; [apply gets_run|]. eapply wp_step; [apply gets_run|].
  eapply wp_step; [apply print_run|].
  destruct b.
  - eapply wp_step; [apply gets_run|]. unfold wp, cut_post.
    apply well_cut_log; [|by right]. apply well_cut_log; [|by right]. exact Hs'.
  - unfold wp, cut_post. apply well_cut_log; [|by right]. exact Hs'.
Qed.

Lemma phase2_well_cut env b fl s :
  well_cut (out s) → wp (phase2 env b fl) cut_post s.
Proof.
  intros Hs. unfold phase2.
  eapply wp_step; [apply print_run|].
  assert (well_cut (out (log (EPrint (LPhase2 (clamp_modify fl) (kCommit fl))) s)))
    as Hs1.
  { apply well_cut_log; [done|by right]. }
  destruct (reset_total_run b (log (EPrint (LPhase2 (clamp_modify fl) (kCommit fl))) s))
    as (s1 & H1 & Ho1 & _).
  eapply wp_step; [exact H1|].
  rewrite <- Ho1 in Hs1.
  eapply wp_step; [apply modify_run|].
  destruct (decide (nAccounts fl < 0)) as [Hn|Hn].
  { eapply wp_stop; [unfold Perm; by rewrite decide_True|exact Hs1]. }
  eapply wp_step; [apply Perm_run; lia|].
  apply wp_bind. eapply wp_mono.
  { apply (wp_for_each (λ s, well_cut (out s)) cut_post); [exact Hs1|].
    intros i s' _ Hs'.
    assert (well_cut (out (modify_step env b fl (clamp_modify fl)
              (shuffle (nAccounts fl) (NewSource (unixNano env))).1 i s').2)) as H.
    { eapply step_any_well_cut; [apply modification_event_plain|exact Hs'|].
      apply modify_step_any. }
    unfold wp, loop_post. by destruct (modify_step _ _ _ _ _ _ _).1. }
  intros [[]| |msg] s' Hs'; simpl; try done.
  eapply wp_step; [apply gets_run|]. eapply wp_step; [apply gets_run|].
  eapply wp_step; [apply print_run|].
  destruct b.
  - eapply wp_step; [apply gets_run|]. unfold wp, cut_post.
    apply well_cut_log; [|by right]. apply well_cut_log; [|by right]. exact Hs'.
  - unfold wp, cut_post. apply well_cut_log; [|by right]. exact Hs'.
Qed.

(** X16. In the log of every run of [main], however it ends, the commits
    come in one of three shapes: a state commit that failed; a state
    commit followed at once by the trie commit of the root it
    returned, which failed; or a state commit, the trie commit of its
    root, one line, and the re-opening of the state at that same root.
    Everything else in the log is a mutation or a line: the trie
    commit is never given another root, and the state is re-opened
    only after a trie commit that went through. *)
Theorem commits_in_order env b fl : well_cut (main env b fl).1.2.
Proof.
  unfold main. destruct (OpenStore b (dbPath fl) (clearDB fl)) as [err|st].
  { simpl. apply well_cut_plains. unfold prologue.
    destruct (clearDB fl); repeat (constructor; [by right|]); constructor. }
  assert (wp (phases env b fl) cut_post (init_state b fl st)) as H.
  { unfold phases. apply wp_bind. eapply wp_mono.
    { apply phase1_well_cut. apply well_cut_plains. unfold init_state, prologue.
      simpl. destruct (clearDB fl); repeat (constructor; [by right|]); constructor. }
    intros [[]| |msg] s1 Hs1; simpl; try done.
    apply wp_bind. eapply wp_mono; [by apply phase2_well_cut|].
    intros [[]| |msg] s2 Hs2; simpl; try done.
    unfold report. eapply wp_step; [apply gets_run|].
    unfold wp, cut_post. apply well_cut_log; [done|by right]. }
  unfold wp, cut_post in H.
  by destruct (phases env b fl (init_state b fl st)).
Qed.

(** ** The accounts of phase 2 *)

(** X17. Phase 2 never picks an account twice: the accounts it modifies
    are the first [m] (clamped) entries of the permutation, pairwise
    distinct indices of accounts of phase 1, and its mutations are the
    500 slot writes of each of them, in that order. *)
Theorem modified_accounts_distinct env b fl s s1 s2 :
  phase1 env b fl s = (Val tt, s1) →
  phase2 env b fl s1 = (Val tt, s2) →
  let perm := shuffle (nAccounts fl) (NewSource (unixNano env)) in
  let idxs := take (Z.to_nat (clamp_modify fl)) perm.1 in
  NoDup idxs ∧ Forall (λ idx, 0 ≤ idx < nAccounts fl) idxs ∧
  length idxs = Z.to_nat (clamp_modify fl) ∧
  mutations (since s1 s2) = (gen_modified b (nSlots fl) idxs perm.2).1.
Proof.
  intros H1 H2 perm idxs.
  pose proof (phase2_mutations _ _ _ _ _ _ H1 H2) as Hmut.
  apply phase2_Val in H2 as (_ & _ & _ & (Hn & _) & _).
  pose proof (shuffle_perm (nAccounts fl) (NewSource (unixNano env)) Hn) as Hp.
  fold perm in Hp. pose proof (clamp_modify_le fl) as Hm.
  split_and!.
  - apply (sublist_NoDup _ perm.1); [|apply sublist_take].
    rewrite Hp. apply NoDup_seqZ.
  - apply Forall_take. rewrite Hp. apply Forall_seqZ. lia.
  - subst idxs. rewrite length_take, Hp, length_seqZ. lia.
  - rewrite Hmut. unfold gen_phase2. fold perm. by destruct perm.
Qed.

End Further.

(** * Runs on the small collaborators

    The theorems above are applied to concrete flags, and the claims
    that fail are shown to fail, on the collaborators of [Sim]. *)

(** Whether a line opens phase 2. *)
Definition is_phase2_line (e : Event) : bool :=
  match e with EPrint (LPhase2 _ _) => true | _ => false end.

Section Runs.
#[local] Existing Instances Sim.hasher Sim.rand Sim.reliable.

Definition fresh : Sim.counters :=
  {| Sim.writes := 0; Sim.commits := 0; Sim.flushes := 0 |}.

(** The variables of [main] when phase 1 starts, on a fresh store. *)
Definition start (b : Build) (fl : Flags) : State := init_state b fl fresh.

(** The flags of the runs below. *)
Definition flags_237 : Flags := Sim.flags 237 1 1 50.
Definition flags_small : Flags := Sim.flags 3 2 2 2.
Definition flags_one_slot : Flags := Sim.flags 1 1 1 1.
Definition flags_two_slots : Flags := Sim.flags 1 2 0 1.
Definition flags_no_slot : Flags := Sim.flags 1 0 1 1.
Definition flags_nothing : Flags := Sim.flags 0 0 1 1.
Definition flags_million : Flags := Sim.flags 1000001 1 1 1.
Definition flags_eager : Flags := Sim.flags 2 2 5 2.

Lemma revisions_disjoint_within_offset_witness :
  4 ∈ phase1_revisions 237 50 ∧ 4 ∉ phase2_revisions 237 1 50.
Proof.
  assert (4 ∈ phase1_revisions 237 50) as H.
  { apply list_elem_of_fmap. exists 236. split; [reflexivity|].
    apply (proj2 (elem_of_boundaries 50 237 236)). split; [lia|reflexivity]. }
  split; [exact H|].
  assert (1 ≤ kCommit flags_237) as Hk by (vm_compute; congruence).
  assert (nAccounts flags_237 ≤ phaseOffset * kCommit flags_237) as Hn
    by (vm_compute; congruence).
  assert (nAccounts flags_237 ≤ int_max) as Hmax by (vm_compute; congruence).
  exact (proj1 (revisions_disjoint_within_offset flags_237 Hk Hn Hmax) 4 H).
Defined.

(** C1, as stated, fails: with 1000001 accounts and batches of 1 (more
    than 1000000 batches), the last commit of phase 1 (after account
    1000001, [i = 1000000]) and the first commit of phase 2 ([i = 0])
    both carry revision 1000000. *)
Lemma revisions_collide_beyond_offset :
  ¬ (∀ r, r ∈ phase1_revisions 1000001 1 → r ∉ phase2_revisions 1000001 1 1) ∧
  commit_revisions
    (since (start Pebble flags_million)
       (commit_created Sim.env flags_million 1000000 (start Pebble flags_million)).2)
    = [1000000] ∧
  commit_revisions
    (since (start Pebble flags_million)
       (commit_modified Sim.env flags_million 0 (start Pebble flags_million)).2)
    = [1000000].
Proof.
  split; [|split; vm_compute; reflexivity].
  intros H. apply (H 1000000).
  - apply list_elem_of_fmap. exists 1000000. split; [reflexivity|].
    apply (proj2 (elem_of_boundaries 1 1000001 1000000)). split; [lia|reflexivity].
  - apply list_elem_of_fmap. exists 0. split; [reflexivity|].
    apply (proj2 (elem_of_boundaries 1 1 0)). split; [lia|reflexivity].
Qed.

Lemma slot_keys_are_labelled_witness :
  ∃ vss : list (list Hash),
    length vss = 3%nat ∧
    mutations (since (start LevelDB flags_small)
                 (phase1 Sim.env LevelDB flags_small (start LevelDB flags_small)).2)
    = concat (zip_with (labelled_account_events LevelDB) (seqZ 0 3) vss).
Proof.
  assert ((phase1 Sim.env LevelDB flags_small (start LevelDB flags_small)).1 = Val tt)
    as H1 by (vm_compute; reflexivity).
  destruct (slot_keys_are_labelled Sim.env LevelDB flags_small
              (start LevelDB flags_small) _ (run_eq _ _ _ H1))
    as (vss & Hlen & Hm & _).
  exists vss. split; [exact Hlen|exact Hm].
Defined.

(** C2, as stated, fails on the Pebble build: the first slot write of
    account 0 has the key of the label ["acc-0-slot-0"], which is not
    the digest of ["account-0-slot-0"]. *)
Lemma pebble_slot_key_label :
  (∃ v, since (start Pebble flags_two_slots)
          (phase1 Sim.env Pebble flags_two_slots (start Pebble flags_two_slots)).2
        !! 3%nat
        = Some (ESetState (account_addr 0)
                  (BytesToHash (Keccak256 (label_bytes "acc-0-slot-0"))) v)) ∧
  slot_label Pebble 0 0 = "acc-0-slot-0" ∧
  BytesToHash (Keccak256 (label_bytes "acc-0-slot-0"))
  ≠ BytesToHash (Keccak256 (label_bytes "account-0-slot-0")).
Proof.
  split; [|split].
  - eexists. vm_compute. reflexivity.
  - reflexivity.
  - vm_compute. congruence.
Qed.

Lemma zero_slots_panics_in_phase1_witness :
  (main Sim.env Pebble flags_no_slot).1.1 = Panicked "invalid argument to Intn".
Proof.
  destruct (zero_slots_panics_in_phase1 (SS := Sim.reliable)
              Sim.env Pebble flags_no_slot fresh)
    as (s' & H & _).
  - reflexivity.
  - vm_compute. congruence.
  - vm_compute. congruence.
  - reflexivity.
  - rewrite H. reflexivity.
Defined.

Lemma phase2_targets_phase1_accounts_witness :
  addrs (phase2 Sim.env Pebble flags_small
           (phase1 Sim.env Pebble flags_small (start Pebble flags_small)).2).2
  = addrs (phase1 Sim.env Pebble flags_small (start Pebble flags_small)).2.
Proof.
  assert ((phase1 Sim.env Pebble flags_small (start Pebble flags_small)).1 = Val tt)
    as H1 by (vm_compute; reflexivity).
  exact (proj1 (proj2 (phase2_targets_phase1_accounts Sim.env Pebble flags_small
                         (start Pebble flags_small) _ (run_eq _ _ _ H1)))).
Defined.

(** With [slots = 1], on the small collaborators, phase 1 draws no slot
    for account 0; phase 2 then writes slot 0 of that account, a key
    that no call of phase 1 carries. *)
Lemma overwrites_iff_generated_witness :
  (∃ v, since (phase1 Sim.env Pebble flags_one_slot (start Pebble flags_one_slot)).2
          (phase2 Sim.env Pebble flags_one_slot
             (phase1 Sim.env Pebble flags_one_slot (start Pebble flags_one_slot)).2).2
        !! 1%nat
        = Some (ESetState (account_addr 0) (slot_key Pebble 0 0) v)) ∧
  ¬ ∃ a w, ESetState a (slot_key Pebble 0 0) w
           ∈ since (start Pebble flags_one_slot)
               (phase1 Sim.env Pebble flags_one_slot (start Pebble flags_one_slot)).2.
Proof.
  assert ((phase1 Sim.env Pebble flags_one_slot (start Pebble flags_one_slot)).1 = Val tt)
    as H1 by (vm_compute; reflexivity).
  assert (keys_apart Pebble (nAccounts flags_one_slot)
            (Z.max (slot_range flags_one_slot) (nSlots flags_one_slot))) as Hk.
  { intros i j i' j' Hi Hi' Hj Hj' Heq.
    change (nAccounts flags_one_slot) with 1 in Hi, Hi'.
    change (Z.max (slot_range flags_one_slot) (nSlots flags_one_slot)) with 2
      in Hj, Hj'.
    assert (i = 0) as -> by lia. assert (i' = 0) as -> by lia.
    split; [reflexivity|].
    assert (j = 0 ∨ j = 1) as [-> | ->] by lia;
      assert (j' = 0 ∨ j' = 1) as [-> | ->] by lia;
      try reflexivity; vm_compute in Heq; congruence. }
  pose proof (overwrites_iff_generated Sim.env Pebble flags_one_slot
                (start Pebble flags_one_slot) _ Hk (run_eq _ _ _ H1)) as Hall.
  cbv zeta in Hall.
  assert (∃ v, since (phase1 Sim.env Pebble flags_one_slot (start Pebble flags_one_slot)).2
                 (phase2 Sim.env Pebble flags_one_slot
                    (phase1 Sim.env Pebble flags_one_slot
                       (start Pebble flags_one_slot)).2).2
               !! 1%nat
               = Some (ESetState (account_addr 0) (slot_key Pebble 0 0) v))
    as [v Hv] by (eexists; vm_compute; reflexivity).
  split; [by exists v|].
  destruct (Forall_lookup_1 _ _ _ _ Hall Hv eq_refl)
    as (idx & slot & v' & vs & _ & Hidx & Hslot & Hvs & _ & Hiff).
  change (nAccounts flags_one_slot) with 1 in Hidx.
  change (nSlots flags_one_slot) with 1 in Hslot.
  assert (idx = 0) as -> by lia. assert (slot = 0) as -> by lia.
  vm_compute in Hvs. injection Hvs as <-.
  intros Hex. apply Hiff in Hex. simpl in Hex. lia.
Defined.

Lemma batch_boundaries_witness :
  commit_revisions
    (since (start Pebble flags_237)
       (phase1 Sim.env Pebble flags_237 (start Pebble flags_237)).2)
  = [0; 1; 2; 3; 4].
Proof.
  assert ((phase1 Sim.env Pebble flags_237 (start Pebble flags_237)).1 = Val tt)
    as H1 by (vm_compute; reflexivity).
  assert ((phase2 Sim.env Pebble flags_237
             (phase1 Sim.env Pebble flags_237 (start Pebble flags_237)).2).1 = Val tt)
    as H2 by (vm_compute; reflexivity).
  assert (1 ≤ kCommit flags_237) as Hk by (vm_compute; congruence).
  assert (nAccounts flags_237 ≤ int_max) as Hmax by (vm_compute; congruence).
  exact (proj1 (proj2 (proj2 (batch_boundaries Sim.env Pebble flags_237
     (start Pebble flags_237) _ _ Hk Hmax (run_eq _ _ _ H1) (run_eq _ _ _ H2)))
     eq_refl eq_refl)).
Defined.

(** The database does not open: [main] reports it and returns before
    any work. *)
Example store_does_not_open :
  @main Sim.hasher Sim.rand Sim.closed_store Sim.env LevelDB default_flags
  = (Returned,
     [EPrint (LCleaning "mpt_bench_db");
      EPrint (LInitDB LevelDB "mpt_bench_db");
      EPrint (LOpenFailed "resource temporarily unavailable")],
     None).
Proof. reflexivity. Qed.

(** The store fails at its third commit: [main] returns after the line
    that reports it, without a final report, and [currentRoot] is the
    root of the second batch. *)
Example fatal_abort_at_third_commit :
  let '(o, tr, fin) :=
    @main Sim.hasher Sim.rand (Sim.store (Sim.at_rank 2) Sim.never)
      Sim.env Pebble (Sim.flags 5 1 0 1) in
  o = Returned ∧
  drop (length tr - 2) tr
    = [ECommit 2 (inl "disk full"); EPrint (LCommitStateFailed "disk full")] ∧
  commit_revisions tr = [0; 1; 2] ∧
  (currentRoot <$> fin) = commit_roots tr !! 1%nat ∧
  filter (λ e, is_final_report e = true) tr = [].
Proof. vm_compute. split_and!; reflexivity. Qed.

Lemma commit_failure_aborts_witness :
  let '(o, tr, fin) :=
    @main Sim.hasher Sim.rand (Sim.store (Sim.at_rank 2) Sim.never)
      Sim.env Pebble (Sim.flags 5 1 0 1) in
  ∀ s, fin = Some s → out s = tr ∧ currentRoot s = last_root tr.
Proof.
  pose proof (@commit_failure_aborts Sim.hasher Sim.rand
                (Sim.store (Sim.at_rank 2) Sim.never)
                Sim.env Pebble (Sim.flags 5 1 0 1)) as H.
  destruct (@main Sim.hasher Sim.rand (Sim.store (Sim.at_rank 2) Sim.never)
              Sim.env Pebble (Sim.flags 5 1 0 1)) as [[o tr] fin].
  exact (proj1 (proj2 H)).
Defined.

(** Asked to modify 5 accounts out of 2, phase 2 modifies the 2 of
    them, 500 slots each. *)
Lemma modification_generator_witness :
  mModify flags_eager = 5 ∧ nAccounts flags_eager = 2 ∧
  clamp_modify flags_eager = 2 ∧
  ∃ groups : list (list (Z * Hash)),
    length groups = 2%nat ∧
    Forall (λ g, length g = 500%nat) groups ∧
    mutations
      (since (phase1 Sim.env LevelDB flags_eager (start LevelDB flags_eager)).2
         (phase2 Sim.env LevelDB flags_eager
            (phase1 Sim.env LevelDB flags_eager (start LevelDB flags_eager)).2).2)
    = concat (zip_with
        (λ idx g, (λ p, ESetState (account_addr idx) (slot_key LevelDB idx p.1) p.2) <$> g)
        (shuffle 2 (NewSource (unixNano Sim.env))).1 groups).
Proof.
  assert ((phase1 Sim.env LevelDB flags_eager (start LevelDB flags_eager)).1 = Val tt)
    as H1 by (vm_compute; reflexivity).
  assert ((phase2 Sim.env LevelDB flags_eager
             (phase1 Sim.env LevelDB flags_eager (start LevelDB flags_eager)).2).1
          = Val tt)
    as H2 by (vm_compute; reflexivity).
  destruct (modification_generator Sim.env LevelDB flags_eager) as (Hm & _ & H).
  destruct (H (start LevelDB flags_eager) _ _ (run_eq _ _ _ H1) (run_eq _ _ _ H2))
    as (_ & _ & groups & Hlen & Hall & Hmut).
  split; [reflexivity|]. split; [reflexivity|]. split; [exact Hm|].
  exists groups. split; [exact Hlen|]. split.
  - eapply Forall_impl; [exact Hall|]. by intros g [Hg _].
  - exact Hmut.
Defined.

Lemma slot_value_policy_witness :
  mutations
    (since (start Pebble flags_small)
       (phase1 Sim.env Pebble flags_small (start Pebble flags_small)).2)
  = gen_phase1 Pebble 3 (slot_range flags_small).
Proof.
  assert ((phase1 Sim.env Pebble flags_small (start Pebble flags_small)).1 = Val tt)
    as H1 by (vm_compute; reflexivity).
  exact (proj2 (proj2 (proj2 (proj2 (proj2 (proj2 (proj2 (proj2
     slot_value_policy))))))) Sim.env Pebble flags_small
     (start Pebble flags_small) _ (run_eq _ _ _ H1)).
Defined.

Lemma zero_slots_phase2_witness :
  ∃ s', phases Sim.env Pebble flags_no_slot (start Pebble flags_no_slot)
        = (Panicked "invalid argument to Intn", s').
Proof.
  destruct (proj1 (proj2 (zero_slots_phase2 Sim.env Pebble flags_no_slot eq_refl))
              (start Pebble flags_no_slot)) as (s' & H & _).
  - vm_compute. congruence.
  - vm_compute. congruence.
  - exists s'. exact H.
Defined.

(** C10, as stated, fails: with [slots = 0] and [m = 1], a run with one
    account panics before phase 2 starts (its first line is not
    printed), and a run with no account reaches its end. *)
Lemma zero_slots_never_reach_phase2 :
  (main Sim.env Pebble flags_no_slot).1.1 = Panicked "invalid argument to Intn" ∧
  existsb is_phase2_line (main Sim.env Pebble flags_no_slot).1.2 = false ∧
  (main Sim.env Pebble flags_nothing).1.1 = Val tt ∧
  mutations (main Sim.env Pebble flags_nothing).1.2 = [].
Proof. vm_compute. split_and!; reflexivity. Qed.

End Runs.

(** * Further runs on the small collaborators *)

Section FurtherRuns.
#[local] Existing Instances Sim.hasher Sim.rand Sim.reliable.

(** A directory with two files, one that holds an entry that cannot be
    read, the first one walked in another order, and one that does not
    exist. *)
Definition file (size : Z) : Visit := Found {| IsDir := false; Size := size |}.
Definition folder : Visit := Found {| IsDir := true; Size := 4096 |}.

Definition two_files : Disk :=
  {| entries := λ _, [folder; file 100; folder; file 23] |}.
Definition two_files_reversed : Disk :=
  {| entries := λ _, [file 23; folder; file 100; folder] |}.
Definition unreadable : Disk :=
  {| entries := λ _, [folder; file 100; Failed None "permission denied"; file 23] |}.
Definition missing : Disk :=
  {| entries := λ _, [Failed None "no such file or directory"] |}.

(** The flags of the runs below. *)
Definition flags_zero_batch : Flags := Sim.flags 2 1 1 0.
Definition flags_negative_batch : Flags := Sim.flags 3 2 1 (-2).
Definition flags_brief : Flags := Sim.flags 3 2 1 2.
Definition flags_wide : Flags := Sim.flags 1 (2 ^ 62) 1 1.
Definition flags_twelve : Flags := Sim.flags 12 1 1 5.

Lemma getDirSize_error_witness :
  @getDirSize unreadable "mpt_bench_db" = 0 ∧
  @getDirSize missing "mpt_bench_db" = 0.
Proof.
  split.
  - apply (@getDirSize_error unreadable).
    do 2 apply Exists_cons_tl. by apply Exists_cons_hd.
  - apply (@getDirSize_error missing). by apply Exists_cons_hd.
Defined.

Lemma getDirSize_sum_witness : @getDirSize two_files "mpt_bench_db" = 123.
Proof.
  assert (Forall (λ v, is_failed v = false) (@entries two_files "mpt_bench_db"))
    as Hf by (repeat constructor).
  assert (Forall (λ z, 0 ≤ z) (file_sizes (@entries two_files "mpt_bench_db")))
    as Hpos by (repeat constructor; vm_compute; congruence).
  assert (sum_list_Z (file_sizes (@entries two_files "mpt_bench_db")) ≤ int_max)
    as Hmax by (vm_compute; congruence).
  exact (proj1 (proj2 (@getDirSize_sum two_files "mpt_bench_db" Hf) Hpos Hmax)).
Defined.

Lemma getDirSize_order_witness :
  @getDirSize two_files "mpt_bench_db" = @getDirSize two_files_reversed "mpt_bench_db".
Proof.
  apply getDirSize_order.
  exact (Permutation_app_comm [folder; file 100; folder] [file 23]).
Defined.

Lemma sane_flags_never_panic_witness :
  panicked (main Sim.env Pebble flags_small).1.1 = false.
Proof.
  apply sane_flags_never_panic.
  - vm_compute. congruence.
  - vm_compute. congruence.
  - split; vm_compute; congruence.
  - vm_compute. congruence.
Defined.

Lemma zero_batch_size_panics_witness :
  ∃ s', main Sim.env Pebble flags_zero_batch
        = (Panicked "integer divide by zero", out s', Some s') ∧
    store_calls (out s')
    = account_events Pebble 0 (gen_account 2 (NewSource 42)).1.
Proof.
  apply (zero_batch_size_panics (SS := Sim.reliable) Sim.env Pebble
           flags_zero_batch fresh).
  - reflexivity.
  - vm_compute. congruence.
  - vm_compute. congruence.
  - split; vm_compute; congruence.
  - reflexivity.
Defined.

Lemma slot_count_out_of_range_witness :
  wrap_int (2 ^ 62 * 2) ≤ 0 ∧
  ∃ s', main Sim.env Pebble flags_wide
        = (Panicked "invalid argument to Intn", out s', Some s') ∧
    store_calls (out s')
    = [ESetBalance (account_addr 0) (10 ^ 18); ESetNonce (account_addr 0) 0].
Proof.
  apply (slot_count_out_of_range (SS := Sim.reliable) Sim.env Pebble
           flags_wide fresh).
  - split; vm_compute; congruence.
  - intros [_ H]. vm_compute in H. congruence.
  - vm_compute. congruence.
  - vm_compute. congruence.
  - reflexivity.
Defined.

Lemma nothing_to_modify_witness :
  ∃ s', phase2 Sim.env Pebble flags_two_slots (start Pebble flags_two_slots)
        = (Val tt, s') ∧
    store_calls (since (start Pebble flags_two_slots) s') = [] ∧
    statedb s' = statedb (start Pebble flags_two_slots) ∧
    currentRoot s' = currentRoot (start Pebble flags_two_slots) ∧
    addrs s' = addrs (start Pebble flags_two_slots) ∧
    ∃ t, EPrint (LModificationFinished t
                   (currentRoot (start Pebble flags_two_slots)))
         ∈ since (start Pebble flags_two_slots) s'.
Proof.
  apply nothing_to_modify.
  - vm_compute. congruence.
  - left. vm_compute. congruence.
Defined.

Lemma no_accounts_run_witness :
  ∃ s', main Sim.env LevelDB flags_nothing = (Val tt, out s', Some s') ∧
    store_calls (out s') = [] ∧ statedb s' = fresh ∧ currentRoot s' = zeroHash ∧
    ∃ t1 t2, EPrint (LCreationFinished t1 zeroHash) ∈ out s' ∧
             EPrint (LModificationFinished t2 zeroHash) ∈ out s'.
Proof.
  apply (no_accounts_run (SS := Sim.reliable) Sim.env LevelDB flags_nothing fresh);
    reflexivity.
Defined.

Lemma revisions_are_consecutive_witness :
  commit_revisions
    (since (start Pebble flags_brief)
       (phase1 Sim.env Pebble flags_brief (start Pebble flags_brief)).2)
  = [0; 1] ∧
  commit_revisions
    (since (phase1 Sim.env Pebble flags_brief (start Pebble flags_brief)).2
       (phase2 Sim.env Pebble flags_brief
          (phase1 Sim.env Pebble flags_brief (start Pebble flags_brief)).2).2)
  = [1000000].
Proof.
  assert ((phase1 Sim.env Pebble flags_brief (start Pebble flags_brief)).1 = Val tt)
    as H1 by (vm_compute; reflexivity).
  assert ((phase2 Sim.env Pebble flags_brief
             (phase1 Sim.env Pebble flags_brief (start Pebble flags_brief)).2).1 = Val tt)
    as H2 by (vm_compute; reflexivity).
  assert (1 ≤ kCommit flags_brief) as Hk by (vm_compute; congruence).
  assert (nAccounts flags_brief ≤ int_max) as Hmax by (vm_compute; congruence).
  exact (revisions_are_consecutive Sim.env Pebble flags_brief
           (start Pebble flags_brief) _ _ Hk Hmax
           (run_eq _ _ _ H1) (run_eq _ _ _ H2)).
Defined.

Lemma negative_batch_size_witness :
  commit_revisions
    (since (start Pebble flags_negative_batch)
       (phase1 Sim.env Pebble flags_negative_batch
          (start Pebble flags_negative_batch)).2)
  = [0; 2 ^ 64 - 1] ∧
  commit_revisions
    (since (phase1 Sim.env Pebble flags_negative_batch
              (start Pebble flags_negative_batch)).2
       (phase2 Sim.env Pebble flags_negative_batch
          (phase1 Sim.env Pebble flags_negative_batch
             (start Pebble flags_negative_batch)).2).2)
  = [1000000].
Proof.
  assert ((phase1 Sim.env Pebble flags_negative_batch
             (start Pebble flags_negative_batch)).1 = Val tt)
    as H1 by (vm_compute; reflexivity).
  assert ((phase2 Sim.env Pebble flags_negative_batch
             (phase1 Sim.env Pebble flags_negative_batch
                (start Pebble flags_negative_batch)).2).1 = Val tt)
    as H2 by (vm_compute; reflexivity).
  assert (kCommit flags_negative_batch < 0) as Hk by (vm_compute; congruence).
  exact (proj2 (proj2 (negative_batch_size Sim.env Pebble flags_negative_batch
           (start Pebble flags_negative_batch) _ _ Hk
           (run_eq _ _ _ H1) (run_eq _ _ _ H2)))).
Defined.

Lemma slot_counters_witness :
  slot_writes
    (since (phase1 Sim.env Pebble flags_brief (start Pebble flags_brief)).2
       (phase2 Sim.env Pebble flags_brief
          (phase1 Sim.env Pebble flags_brief (start Pebble flags_brief)).2).2)
  = 500%nat.
Proof.
  assert ((phase1 Sim.env Pebble flags_brief (start Pebble flags_brief)).1 = Val tt)
    as H1 by (vm_compute; reflexivity).
  assert ((phase2 Sim.env Pebble flags_brief
             (phase1 Sim.env Pebble flags_brief (start Pebble flags_brief)).2).1 = Val tt)
    as H2 by (vm_compute; reflexivity).
  exact (proj2 (proj2 (slot_counters Sim.env flags_brief
           (start Pebble flags_brief) _ _
           (run_eq _ _ _ H1) (run_eq _ _ _ H2)))).
Defined.

Lemma progress_every_ten_witness :
  progress_lines
    (since (start Pebble flags_twelve)
       (phase1 Sim.env Pebble flags_twelve (start Pebble flags_twelve)).2)
  = [(10, 12); (12, 12)] ∧
  progress_lines
    (since (phase1 Sim.env Pebble flags_twelve (start Pebble flags_twelve)).2
       (phase2 Sim.env Pebble flags_twelve
          (phase1 Sim.env Pebble flags_twelve (start Pebble flags_twelve)).2).2)
  = [(1, 1)].
Proof.
  assert ((phase1 Sim.env Pebble flags_twelve (start Pebble flags_twelve)).1 = Val tt)
    as H1 by (vm_compute; reflexivity).
  assert ((phase2 Sim.env Pebble flags_twelve
             (phase1 Sim.env Pebble flags_twelve (start Pebble flags_twelve)).2).1
          = Val tt)
    as H2 by (vm_compute; reflexivity).
  exact (progress_every_ten Sim.env Pebble flags_twelve
           (start Pebble flags_twelve) _ _
           (run_eq _ _ _ H1) (run_eq _ _ _ H2)).
Defined.

Lemma batch_lines_numbered_witness :
  length (commit_roots
    (since (start LevelDB flags_brief)
       (phase1 Sim.env LevelDB flags_brief (start LevelDB flags_brief)).2))
  = 2%nat.
Proof.
  assert ((phase1 Sim.env LevelDB flags_brief (start LevelDB flags_brief)).1 = Val tt)
    as H1 by (vm_compute; reflexivity).
  assert (1 ≤ kCommit flags_brief) as Hk by (vm_compute; congruence).
  assert (nAccounts flags_brief ≤ int_max) as Hmax by (vm_compute; congruence).
  exact (proj2 (batch_lines_numbered Sim.env LevelDB flags_brief
           (start LevelDB flags_brief) _ Hk Hmax (run_eq _ _ _ H1))).
Defined.

Lemma phases_end_committed_witness :
  ∃ tr t t' rest,
    since (start Pebble flags_brief)
      (phase1 Sim.env Pebble flags_brief (start Pebble flags_brief)).2
    = tr ++ batch_events Sim.env flags_brief 2 t
              (currentRoot (phase1 Sim.env Pebble flags_brief
                              (start Pebble flags_brief)).2)
         ++ EPrint (LCreationFinished t'
              (currentRoot (phase1 Sim.env Pebble flags_brief
                              (start Pebble flags_brief)).2)) :: rest ∧
    store_calls rest = [].
Proof.
  assert ((phase1 Sim.env Pebble flags_brief (start Pebble flags_brief)).1 = Val tt)
    as H1 by (vm_compute; reflexivity).
  assert ((phase2 Sim.env Pebble flags_brief
             (phase1 Sim.env Pebble flags_brief (start Pebble flags_brief)).2).1 = Val tt)
    as H2 by (vm_compute; reflexivity).
  assert (1 ≤ nAccounts flags_brief) as Hn by (vm_compute; congruence).
  assert (1 ≤ mModify flags_brief) as Hm by (vm_compute; congruence).
  exact (proj1 (phases_end_committed Sim.env Pebble flags_brief
           (start Pebble flags_brief) _ _ Hn Hm
           (run_eq _ _ _ H1) (run_eq _ _ _ H2))).
Defined.

(** Two accounts out of three are modified: two different ones. *)
Lemma modified_accounts_distinct_witness :
  NoDup (take 2 (shuffle 3 (NewSource (unixNano Sim.env))).1) ∧
  length (take 2 (shuffle 3 (NewSource (unixNano Sim.env))).1) = 2%nat ∧
  mutations
    (since (phase1 Sim.env Pebble flags_small (start Pebble flags_small)).2
       (phase2 Sim.env Pebble flags_small
          (phase1 Sim.env Pebble flags_small (start Pebble flags_small)).2).2)
  = (gen_modified Pebble 2 (take 2 (shuffle 3 (NewSource (unixNano Sim.env))).1)
       (shuffle 3 (NewSource (unixNano Sim.env))).2).1.
Proof.
  assert ((phase1 Sim.env Pebble flags_small (start Pebble flags_small)).1 = Val tt)
    as H1 by (vm_compute; reflexivity).
  assert ((phase2 Sim.env Pebble flags_small
             (phase1 Sim.env Pebble flags_small (start Pebble flags_small)).2).1 = Val tt)
    as H2 by (vm_compute; reflexivity).
  destruct (modified_accounts_distinct Sim.env Pebble flags_small
              (start Pebble flags_small) _ _
              (run_eq _ _ _ H1) (run_eq _ _ _ H2)) as (Hnd & _ & Hlen & Hmut).
  split; [exact Hnd|]. split; [exact Hlen|exact Hmut].
Defined.

End FurtherRuns.
